(** * CTVM: the TVAL3 solver of [src/ctvm.cpp], embedded and checked

    The solver works on [double]s stored in Boost uBLAS containers
    ([BoostDoubleVector], [BoostDoubleMatrix]: [ctvm_util.h], which declares
    them, is not among the sources; they are taken to be uBLAS's dense
    [vector<double>] and row-major [matrix<double>]).  The embedding keeps
    the following explicit:

    - arithmetic goes through the interface [Scalar], with one instance for
      IEEE binary64 numbers (what the program runs on) and one for the real
      numbers (the arithmetic the method is stated in);
    - every element access [M(i,j)] or [v(i)] written in the source is
      range-checked, as uBLAS does it ([BOOST_UBLAS_CHECK] raises
      [bad_index]); whole-container expressions ([prod], [trans],
      [inner_prod], [norm_2], [+], [-], scaling) are total functions,
      meant at operands whose sizes agree: there they are what uBLAS
      computes (on other operands uBLAS raises [bad_argument], and the
      functions work on the common prefix);
    - [unsigned long] values are integers, with the wrap-around written out
      where the source subtracts; [sqrt] of a size is the integer square
      root;
    - a [do ... while] loop takes fuel and ends with [no_fuel] when the
      fuel is used up before the loop is left. *)

From Stdlib Require Import ZArith Bool Lia PrimFloat Uint63 Reals Lra.
From stdpp Require Import base list.

(** ** Outcomes of fallible code *)

Inductive fault : Type :=
  | bad_index      (* uBLAS index check failed *)
  | exit_failure   (* the source called exit(EXIT_FAILURE) *)
  | no_fuel.       (* a do-while loop was still running when the fuel ran out *)

Inductive result (A : Type) : Type :=
  | Ok (a : A)
  | Fault (f : fault).

Arguments Ok {A} a.
Arguments Fault {A} f.

Definition bind {A B : Type} (r : result A) (k : A -> result B) : result B :=
  match r with
  | Ok a => k a
  | Fault f => Fault f
  end.

Notation "'let*' x := e 'in' k" := (bind e (fun x => k))
  (at level 10, x name, e at level 100, k at level 200).
Notation "'let*' ' p := e 'in' k" := (bind e (fun x => let 'p := x in k))
  (at level 10, p pattern, e at level 100, k at level 200).

(** [for (i = start; i < start + count; ++i) body] over a state [S]. *)
Fixpoint for_from {S : Type} (start count : nat)
    (body : nat -> S -> result S) (s : S) : result S :=
  match count with
  | O => Ok s
  | Datatypes.S c => let* s' := body start s in for_from (Datatypes.S start) c body s'
  end.

Definition for_range {S : Type} (n : nat) (body : nat -> S -> result S) (s : S)
  : result S := for_from 0 n body s.

(** ** The arithmetic interface *)

Class Scalar (T : Type) : Type := {
  of_int : Z -> T;            (* an integer literal or integer-to-double conversion *)
  add : T -> T -> T;
  sub : T -> T -> T;
  mul : T -> T -> T;
  div : T -> T -> T;
  neg : T -> T;
  root : T -> T;              (* std::sqrt *)
  less : T -> T -> bool       (* operator<, false when an operand is NaN *)
}.

Declare Scope scalar_scope.
Delimit Scope scalar_scope with sc.
Infix "+" := add : scalar_scope.
Infix "-" := sub : scalar_scope.
Infix "*" := mul : scalar_scope.
Infix "/" := div : scalar_scope.
Notation "- x" := (neg x) : scalar_scope.

(** binary64, on the kernel's primitive floats *)
Definition float_of_int (z : Z) : float :=
  match z with
  | Zneg _ => PrimFloat.opp (PrimFloat.of_uint63 (Uint63.of_Z (Z.opp z)))
  | _ => PrimFloat.of_uint63 (Uint63.of_Z z)
  end.

Instance float_scalar : Scalar float := {|
  of_int := float_of_int;
  add := PrimFloat.add;
  sub := PrimFloat.sub;
  mul := PrimFloat.mul;
  div := PrimFloat.div;
  neg := PrimFloat.opp;
  root := PrimFloat.sqrt;
  less := PrimFloat.ltb
|}.

(** exact real arithmetic *)
Definition Rless (x y : R) : bool := if Rlt_dec x y then true else false.

Instance real_scalar : Scalar R := {|
  of_int := IZR;
  add := Rplus;
  sub := Rminus;
  mul := Rmult;
  div := Rdiv;
  neg := Ropp;
  root := sqrt;
  less := Rless
|}.

(** ** uBLAS containers *)

(** [vector<double>] *)
Abbreviation Vector := list (only parsing).

Section Containers.
Context {T : Type} `{Scalar T}.

Local Open Scope scalar_scope.

(** [matrix<double>]: [size1] rows, [size2] columns, row-major storage. *)
Record Matrix : Type := mkMatrix {
  size1 : nat;
  size2 : nat;
  data : list T
}.

Definition zero : T := of_int 0.

Definition BoostZeroVector (n : nat) : Vector T := replicate n zero.

Definition BoostZeroMatrix (r c : nat) : Matrix :=
  mkMatrix r c (replicate (r * c) zero).

(** checked element access [v(i)], [v(i) = x], [M(i,j)], [M(i,j) = x] *)
Definition vec_get (v : Vector T) (i : nat) : result T :=
  match v !! i with
  | Some x => Ok x
  | None => Fault bad_index
  end.

Definition vec_set (v : Vector T) (i : nat) (x : T) : result (Vector T) :=
  if decide (i < length v)%nat then Ok (<[i := x]> v) else Fault bad_index.

Definition in_range (M : Matrix) (i j : nat) : bool :=
  bool_decide (i < size1 M)%nat && bool_decide (j < size2 M)%nat.

Definition mat_get (M : Matrix) (i j : nat) : result T :=
  if in_range M i j then
    match data M !! (i * size2 M + j)%nat with
    | Some x => Ok x
    | None => Fault bad_index
    end
  else Fault bad_index.

Definition mat_set (M : Matrix) (i j : nat) (x : T) : result Matrix :=
  if in_range M i j then
    Ok (mkMatrix (size1 M) (size2 M) (<[(i * size2 M + j)%nat := x]> (data M)))
  else Fault bad_index.

(** unchecked read used inside whole-container expressions *)
Definition mat_at (M : Matrix) (i j : nat) : T :=
  default zero (data M !! (i * size2 M + j)%nat).

Definition tabulate (r c : nat) (f : nat -> nat -> T) : Matrix :=
  mkMatrix r c (flat_map (fun i => map (f i) (seq 0 c)) (seq 0 r)).

(** element-wise expressions *)
Definition vadd (u v : Vector T) : Vector T := zip_with add u v.
Definition vsub (u v : Vector T) : Vector T := zip_with sub u v.
Definition vscale (a : T) (v : Vector T) : Vector T := map (mul a) v.
Definition vdivide (v : Vector T) (a : T) : Vector T := map (fun x => x / a) v.
Definition vneg (v : Vector T) : Vector T := map neg v.

Definition msub (M P : Matrix) : Matrix :=
  mkMatrix (size1 M) (size2 M) (zip_with sub (data M) (data P)).
Definition mscale (a : T) (M : Matrix) : Matrix :=
  mkMatrix (size1 M) (size2 M) (map (mul a) (data M)).

(** [inner_prod], [norm_2]: accumulated from index 0 upwards *)
Definition inner_prod (u v : Vector T) : T :=
  fold_left add (zip_with mul u v) zero.

Definition norm_2 (v : Vector T) : T :=
  root (fold_left add (map (fun x => x * x) v) zero).

(** [trans(M)] and the matrix-vector product [prod(M, v)] *)
Definition trans (M : Matrix) : Matrix :=
  tabulate (size2 M) (size1 M) (fun i j => mat_at M j i).

Definition mat_row (M : Matrix) (i : nat) : Vector T :=
  map (mat_at M i) (seq 0 (size2 M)).

Definition prod (M : Matrix) (v : Vector T) : Vector T :=
  map (fun i => inner_prod (mat_row M i) v) (seq 0 (size1 M)).

(** ** [ctvm_util.cpp]: raster conversions *)

(** [MatrixToVector]: column by column. *)
Definition MatrixToVector (AMatrix : Matrix) : result (Vector T) :=
  let N := (size1 AMatrix * size2 AMatrix)%nat in
  let* '(AVector, _) :=
    for_range (size2 AMatrix) (fun j st =>
      for_range (size1 AMatrix) (fun i '(AVector, VectorIndex) =>
        let* x := mat_get AMatrix i j in
        let* AVector' := vec_set AVector VectorIndex x in
        Ok (AVector', Datatypes.S VectorIndex)) st)
      (BoostZeroVector N, O) in
  Ok AVector.

(** [VectorToMatrix]: the inverse, column by column. *)
Definition VectorToMatrix (AVector : Vector T) (rows cols : nat) : result Matrix :=
  let* '(AMatrix, _) :=
    for_range cols (fun j st =>
      for_range rows (fun i '(AMatrix, VectorIndex) =>
        let* x := vec_get AVector VectorIndex in
        let* AMatrix' := mat_set AMatrix i j x in
        Ok (AMatrix', Datatypes.S VectorIndex)) st)
      (BoostZeroMatrix rows cols, O) in
  Ok AMatrix.

(** ** [ctvm.cpp]: the discrete gradient *)

(** [unsigned long] subtraction wraps modulo 2^64. *)
Definition ulong_sub (a b : Z) : Z := ((a - b) mod 2 ^ 64)%Z.

(** inner [for j] of the pixel search: the first [j] with [j / pixel]
    (integer division) nonzero *)
Fixpoint find_col (count : nat) (j pixel : Z) : option Z :=
  match count with
  | O => None
  | Datatypes.S c =>
      if negb (j / pixel =? 0)%Z then Some j
      else find_col c (j + 1)%Z pixel
  end.

(** outer [for i] of the pixel search; returns [(rows, cols)] *)
Fixpoint find_pixel (count : nat) (i l pixel rows cols : Z) : Z * Z :=
  match count with
  | O => (rows, cols)
  | Datatypes.S c =>
      if (pixel =? 0)%Z then (i, 0%Z)
      else
        let '(rows', cols') :=
          match find_col (Z.to_nat l) 0 pixel with
          | Some j => (i, j)
          | None => (rows, cols)
          end in
        find_pixel c (i + 1)%Z l (ulong_sub pixel l) rows' cols'
  end.

(** [X(r1,c1) - X(r2,c2)] with both reads checked *)
Definition difference (X : Matrix) (r1 c1 r2 c2 : Z) : result T :=
  let* a := mat_get X (Z.to_nat r1) (Z.to_nat c1) in
  let* b := mat_get X (Z.to_nat r2) (Z.to_nat c2) in
  Ok (a - b).

Definition Gradient2D (U : Vector T) (pixel : Z) : result (Vector T) :=
  let n := Z.of_nat (length U) in
  let l := Z.sqrt n in
  let* X := VectorToMatrix U (Z.to_nat l) (Z.to_nat l) in
  if (n <=? pixel)%Z then Fault exit_failure
  else
    let '(rows, cols) := find_pixel (Z.to_nat l) 0 l pixel 0 0 in
    let last := ulong_sub l 1 in
    if (cols =? last)%Z && (rows =? last)%Z then
      let* d0 := difference X rows cols rows cols in
      let* d1 := difference X rows cols rows cols in
      Ok [d0; d1]
    else if (cols =? last)%Z then
      let* d0 := difference X rows cols rows cols in
      let* d1 := difference X rows cols (rows + 1) cols in
      Ok [d0; d1]
    else if (rows =? last)%Z then
      let* d0 := difference X rows cols rows (cols + 1) in
      let* d1 := difference X rows cols rows cols in
      Ok [d0; d1]
    else
      let* d0 := difference X rows cols rows (cols + 1) in
      let* d1 := difference X rows cols (rows + 1) cols in
      Ok [d0; d1].

Definition Gradient2DMatrix (U : Vector T) : result Matrix :=
  let n := length U in
  for_range n (fun i D =>
    let* Du := Gradient2D U (Z.of_nat i) in
    for_range 2 (fun j D =>
      let* x := vec_get Du j in
      mat_set D i j x) D)
    (BoostZeroMatrix n 2).

(** the [for l] loop of [Unit_Gradient2DMatrix]; the three first branches
    [break], the last one falls through to the next [l] *)
Fixpoint unit_rows (count : nat) (l N L pixel : Z) (Di : Matrix)
  : result Matrix :=
  match count with
  | O => Ok Di
  | Datatypes.S c =>
      let p := Z.to_nat pixel in
      if (pixel =? ulong_sub N 1)%Z then Ok Di
      else if (ulong_sub (ulong_sub N 1) L <? pixel)%Z
              && (pixel <? ulong_sub N 1)%Z then
        let* Di := mat_set Di 0 p (of_int 1) in
        mat_set Di 0 (p + 1) (of_int (-1))
      else if (pixel =? ulong_sub (l * L) 1)%Z then
        let* Di := mat_set Di 1 p (of_int 1) in
        mat_set Di 1 (p + Z.to_nat L) (of_int (-1))
      else
        let* Di := mat_set Di 0 p (of_int 1) in
        let* Di := mat_set Di 0 (p + 1) (of_int (-1)) in
        let* Di := mat_set Di 1 p (of_int 1) in
        let* Di := mat_set Di 1 (p + Z.to_nat L) (of_int (-1)) in
        unit_rows c (l + 1)%Z N L pixel Di
  end.

Definition Unit_Gradient2DMatrix (U : Vector T) (pixel : Z) : result Matrix :=
  let N := Z.of_nat (length U) in
  let L := Z.sqrt N in
  let Di := BoostZeroMatrix 2 (length U) in
  if (N <=? pixel)%Z then Fault exit_failure
  else unit_rows (Z.to_nat (L - 1)) 1 N L pixel Di.

(** [for (j = 0; j < count; ++j) { Wi(j) = W(i,j); NUi(j) = NU(i,j); }] *)
Definition load_W_NU (count i : nat) (W NU : Matrix) (Wi NUi : Vector T)
  : result (Vector T * Vector T) :=
  for_range count (fun j '(Wi, NUi) =>
    let* w := mat_get W i j in
    let* Wi := vec_set Wi j w in
    let* nu := mat_get NU i j in
    let* NUi := vec_set NUi j nu in
    Ok (Wi, NUi)) (Wi, NUi).

(** [for (j = 0; j < count; ++j) { NUi(j) = NU(i,j); Wi(j) = W(i,j); }] *)
Definition load_NU_W (count i : nat) (W NU : Matrix) (Wi NUi : Vector T)
  : result (Vector T * Vector T) :=
  for_range count (fun j '(Wi, NUi) =>
    let* nu := mat_get NU i j in
    let* NUi := vec_set NUi j nu in
    let* w := mat_get W i j in
    let* Wi := vec_set Wi j w in
    Ok (Wi, NUi)) (Wi, NUi).

Definition two : T := of_int 2.

Definition Lagrangian (A : Matrix) (U B : Vector T) (W NU : Matrix)
    (LAMBDA : Vector T) (beta mu : T) : result T :=
  let n := length U in
  let* '(L, _, _) :=
    for_range n (fun i '(L, Wi, NUi) =>
      let* DiU := Gradient2D U (Z.of_nat i) in
      let* '(Wi, NUi) := load_W_NU 2 i W NU Wi NUi in
      let DIFFi := vsub DiU Wi in
      let norm_wi := norm_2 Wi in
      let square_norm_diffi := norm_2 DIFFi * norm_2 DIFFi in
      Ok (L + norm_wi - inner_prod NUi DIFFi + (beta / two) * square_norm_diffi,
          Wi, NUi))
      (zero, BoostZeroVector 2, BoostZeroVector 2) in
  let PROD := prod A U in
  let DIFF := vsub PROD B in
  let square_norm_diff := norm_2 DIFF * norm_2 DIFF in
  Ok (L - inner_prod LAMBDA DIFF + (mu / two) * square_norm_diff).

Definition Shrike (DiUk NUi : Vector T) (beta : T) : Vector T :=
  let DIFF := vsub DiUk (vdivide NUi beta) in
  let norm_diff := norm_2 DIFF in
  let x := norm_diff - of_int 1 / beta in
  let x := if less x zero then zero else x in
  vscale x (vdivide DIFF norm_diff).

Definition Onestep_Direction (A : Matrix) (U B : Vector T) (W NU : Matrix)
    (LAMBDA : Vector T) (beta mu : T) : result (Vector T) :=
  let n := length U in
  let* '(D, _, _) :=
    for_range n (fun i '(D, Wi, NUi) =>
      let* Di := Unit_Gradient2DMatrix U (Z.of_nat i) in
      let tDi := trans Di in
      let* DiU := Gradient2D U (Z.of_nat i) in
      let* '(Wi, NUi) := load_W_NU 2 i W NU Wi NUi in
      let DiU_Wi := vsub (vneg DiU) Wi in
      Ok (vsub (vadd D (vscale beta (prod tDi DiU_Wi))) (prod tDi NUi),
          Wi, NUi))
      (BoostZeroVector n, BoostZeroVector 2, BoostZeroVector 2) in
  let DIFF := vsub (prod A U) B in
  let tA := trans A in
  Ok (vsub (vadd D (vscale mu (prod tA DIFF))) (prod tA LAMBDA)).

(** the inner copy loop runs [j] up to [n], not up to 2 *)
Definition U_Subfunction (A : Matrix) (U B : Vector T) (W NU : Matrix)
    (LAMBDA : Vector T) (beta mu : T) : result T :=
  let n := length U in
  let* '(Q, _, _) :=
    for_range n (fun i '(Q, Wi, NUi) =>
      let* DiU := Gradient2D U (Z.of_nat i) in
      let* '(Wi, NUi) := load_NU_W n i W NU Wi NUi in
      let DIFFk := vsub DiU Wi in
      let square_norm_diffk := norm_2 DIFFk * norm_2 DIFFk in
      Ok (Q - inner_prod NUi DIFFk + (beta / two) * square_norm_diffk,
          Wi, NUi))
      (zero, BoostZeroVector 2, BoostZeroVector 2) in
  let PROD := prod A U in
  let DIFF := vsub PROD B in
  let square_norm_diff := norm_2 DIFF * norm_2 DIFF in
  Ok (Q - inner_prod LAMBDA DIFF + (mu / two) * square_norm_diff).

(** ** The inner solver, [Alternating_Minimisation] *)

Definition half : T := of_int 1 / of_int 2.          (* 0.5 *)
Definition hundredth : T := of_int 1 / of_int 100.   (* 0.01 *)

(** the variables of [Alternating_Minimisation] that a run can write:
    its by-value copies of [W], [NU], [LAMBDA] and its own locals *)
Record AM_locals : Type := mkLocals {
  am_W : Matrix;
  am_NU : Matrix;
  am_LAMBDA : Vector T;
  am_Uk : Vector T;
  am_Uk_1 : Vector T;
  am_Pk : T;
  am_C : T
}.

(** "w sub-problem": note [W(j, i)] on the left-hand side *)
Definition w_subproblem (n : nat) (Uk : Vector T) (NU : Matrix) (beta : T)
    (W : Matrix) : result Matrix :=
  for_range n (fun i W =>
    let* DiUk := Gradient2D Uk (Z.of_nat i) in
    let NUi := BoostZeroVector 2 in
    let* '(W, _) :=
      for_range 2 (fun j '(W, NUi) =>
        let* nu := mat_get NU i j in
        let* NUi := vec_set NUi j nu in
        let Wi := Shrike DiUk NUi beta in
        let* w := vec_get Wi j in
        let* W := mat_set W j i w in
        Ok (W, NUi)) (W, NUi) in
    Ok W) W.

(** the backtracking [do ... while (Qk > armijo_tol)]; returns [alpha] *)
Fixpoint line_search (fuel : nat) (A : Matrix) (Uk B : Vector T)
    (W NU : Matrix) (LAMBDA : Vector T) (beta mu : T) (C : T) (Dk : Vector T)
    (alpha : T) : result T :=
  match fuel with
  | O => Fault no_fuel
  | Datatypes.S fuel' =>
      let rho := half in
      let delta := half in
      let alpha := rho * alpha in
      let Uk_alphaD := vsub Uk (vscale alpha Dk) in
      let* Qk := U_Subfunction A Uk_alphaD B W NU LAMBDA beta mu in
      let armijo_tol := C - delta * alpha * inner_prod Dk Dk in
      if less armijo_tol Qk
      then line_search fuel' A Uk B W NU LAMBDA beta mu C Dk alpha
      else Ok alpha
  end.

(** "Implement coefficients": the new [(Pk, C)] *)
Definition update_coefficients (Pk C Qk1 : T) : T * T :=
  let eta := half in
  let Pk1 := eta * Pk + of_int 1 in
  (Pk1, (eta * Pk * C + Qk1) / Pk1).

(** one pass through the body of the outer [do ... while]; returns the
    new locals and [innerstop] *)
Definition AM_iteration (fuel : nat) (A : Matrix) (B : Vector T) (beta mu : T)
    (n : nat) (s : AM_locals) : result (AM_locals * T) :=
  let* W := w_subproblem n (am_Uk s) (am_NU s) beta (am_W s) in
  let Uk := am_Uk s in
  let Uk_1 := am_Uk_1 s in
  let NU := am_NU s in
  let LAMBDA := am_LAMBDA s in
  let Sk := vsub Uk Uk_1 in
  let* Dk_1 := Onestep_Direction A Uk_1 B W NU LAMBDA beta mu in
  let* Dk := Onestep_Direction A Uk B W NU LAMBDA beta mu in
  let Yk := vsub Dk Dk_1 in
  let alpha := inner_prod Sk Yk / inner_prod Yk Yk in
  let* alpha := line_search fuel A Uk B W NU LAMBDA beta mu (am_C s) Dk alpha in
  let Uk1 := vsub Uk (vscale alpha Dk) in
  let innerstop := norm_2 (vsub Uk1 Uk) in
  let* Qk1 := U_Subfunction A Uk1 B W NU LAMBDA beta mu in
  let '(Pk1, C) := update_coefficients (am_Pk s) (am_C s) Qk1 in
  Ok (mkLocals W NU LAMBDA Uk1 Uk Pk1 C, innerstop).

Fixpoint AM_loop (fuel count : nat) (A : Matrix) (B : Vector T) (beta mu : T)
    (n : nat) (s : AM_locals) : result AM_locals :=
  match count with
  | O => Fault no_fuel
  | Datatypes.S count' =>
      let* '(s', innerstop) := AM_iteration fuel A B beta mu n s in
      let tol := hundredth in
      if less tol innerstop
      then AM_loop fuel count' A B beta mu n s'
      else Ok s'
  end.

(** [inner_passes fuel A B beta mu n s Qs s']: passes of the loop body, made
    one after the other from [s], end in [s'], and [Qs] lists the values
    [Qk1] of the quadratic model that each pass computed at its new
    iterate *)
Inductive inner_passes (fuel : nat) (A : Matrix) (B : Vector T) (beta mu : T)
    (n : nat) : AM_locals -> list T -> AM_locals -> Prop :=
  | inner_passes_none (s : AM_locals) :
      inner_passes fuel A B beta mu n s [] s
  | inner_passes_more (s s1 s' : AM_locals) (innerstop Qk1 : T)
      (Qs : list T) :
      AM_iteration fuel A B beta mu n s = Ok (s1, innerstop) ->
      U_Subfunction A (am_Uk s1) B (am_W s1) (am_NU s) (am_LAMBDA s) beta mu
        = Ok Qk1 ->
      inner_passes fuel A B beta mu n s1 Qs s' ->
      inner_passes fuel A B beta mu n s (Qk1 :: Qs) s'.

(** the values of the locals when the loop is entered *)
Definition AM_entry (A : Matrix) (U B : Vector T) (W NU : Matrix)
    (LAMBDA : Vector T) (beta mu : T) : result AM_locals :=
  let n := length U in
  let Pk := of_int 1 in
  let* C := Lagrangian A U B W NU LAMBDA beta mu in
  let Uk_1 := BoostZeroVector n in
  let Uk := U in
  Ok (mkLocals W NU LAMBDA Uk Uk_1 Pk C).

(** the final copy into [AL_MIN] *)
Definition AM_pack (n : nat) (W : Matrix) (Uk : Vector T) : result Matrix :=
  for_range n (fun pix AL_MIN =>
    let* w0 := mat_get W pix 0 in
    let* AL_MIN := mat_set AL_MIN pix 0 w0 in
    let* w1 := mat_get W pix 1 in
    let* AL_MIN := mat_set AL_MIN pix 1 w1 in
    let* u := vec_get Uk pix in
    mat_set AL_MIN pix 2 u) (BoostZeroMatrix n 3).

(** a whole call, keeping the final locals next to the returned matrix *)
Definition AM_run (fuel : nat) (A : Matrix) (U B : Vector T) (W NU : Matrix)
    (LAMBDA : Vector T) (beta mu : T) : result (AM_locals * Matrix) :=
  let n := length U in
  let* s0 := AM_entry A U B W NU LAMBDA beta mu in
  let* s := AM_loop fuel fuel A B beta mu n s0 in
  let* AL_MIN := AM_pack n (am_W s) (am_Uk s) in
  Ok (s, AL_MIN).

Definition Alternating_Minimisation (fuel : nat) (A : Matrix) (U B : Vector T)
    (W NU : Matrix) (LAMBDA : Vector T) (beta mu : T) : result Matrix :=
  let* '(_, AL_MIN) := AM_run fuel A U B W NU LAMBDA beta mu in
  Ok AL_MIN.

(** ** The outer driver, [tval3_reconstruction] *)

(** [CreateRandomMatrix] seeds a Mersenne twister from the wall clock and
    draws normal variates from it.  [RandNormValue seed k] stands for the
    [k]-th draw of Boost's generator seeded with [seed]. *)
Section Driver.
Variable RandNormValue : Z -> nat -> T.

(** the seed: milliseconds of the time of day, as [unsigned int];
    [CurrentTick] is the time of day in microseconds *)
Definition seed_of (CurrentTick : Z) : Z :=
  ((CurrentTick / 1000) mod 2 ^ 32)%Z.

Definition CreateRandomMatrix (CurrentTick : Z) (rows cols : nat)
  : result Matrix :=
  let seed := seed_of CurrentTick in
  let* '(RandomMatrix, _) :=
    for_range rows (fun i st =>
      for_range cols (fun j '(RandomMatrix, drawn) =>
        let* RandomMatrix :=
          mat_set RandomMatrix i j (RandNormValue seed drawn) in
        Ok (RandomMatrix, Datatypes.S drawn)) st)
      (BoostZeroMatrix rows cols, O) in
  Ok RandomMatrix.

(** the variables the outer loop writes *)
Record driver : Type := mkDriver {
  dr_W : Matrix;
  dr_Wk : Matrix;
  dr_NU : Matrix;
  dr_MIN : Matrix;
  dr_U : Vector T;
  dr_Uk : Vector T;
  dr_LAMBDA : Vector T;
  dr_beta : T;
  dr_mu : T
}.

(** the inner solver as the driver calls it *)
Variable minimise :
  Matrix -> Vector T -> Vector T -> Matrix -> Matrix -> Vector T -> T -> T ->
  result Matrix.

(** [W(i,0) = MIN(i,0); W(i,1) = MIN(i,1); U(i) = MIN(i,2);] for all [i] *)
Definition unpack (n : nat) (MIN W : Matrix) (U : Vector T)
  : result (Matrix * Vector T) :=
  for_range n (fun i '(W, U) =>
    let* m0 := mat_get MIN i 0 in
    let* W := mat_set W i 0 m0 in
    let* m1 := mat_get MIN i 1 in
    let* W := mat_set W i 1 m1 in
    let* m2 := mat_get MIN i 2 in
    let* U := vec_set U i m2 in
    Ok (W, U)) (W, U).

(** lines 392-400: the call and the copy of its result *)
Definition call_minimiser (A : Matrix) (B : Vector T) (n : nat) (d : driver)
  : result driver :=
  let Wk := dr_W d in
  let Uk := dr_U d in
  let* MIN := minimise A Uk B Wk (dr_NU d) (dr_LAMBDA d) (dr_beta d) (dr_mu d) in
  let* '(W, U) := unpack n MIN (dr_W d) (dr_U d) in
  Ok (mkDriver W Wk (dr_NU d) MIN U Uk (dr_LAMBDA d) (dr_beta d) (dr_mu d)).

(** lines 401-403: the multiplier updates *)
Definition update_multipliers (A : Matrix) (B : Vector T) (d : driver)
  : result driver :=
  let* DiU := Gradient2DMatrix (dr_U d) in
  let NU := msub (dr_NU d) (mscale (dr_beta d) (msub DiU (dr_W d))) in
  let LAMBDA :=
    vsub (dr_LAMBDA d) (vscale (dr_mu d) (vsub (prod A (dr_U d)) B)) in
  Ok (mkDriver (dr_W d) (dr_Wk d) NU (dr_MIN d) (dr_U d) (dr_Uk d) LAMBDA
        (dr_beta d) (dr_mu d)).

Definition coef : T := of_int 105 / of_int 100.   (* 1.05 *)

(** lines 405-406: the penalty growth *)
Definition grow_penalties (d : driver) : driver :=
  let beta := coef * dr_beta d in
  let mu := coef * beta in
  mkDriver (dr_W d) (dr_Wk d) (dr_NU d) (dr_MIN d) (dr_U d) (dr_Uk d)
    (dr_LAMBDA d) beta mu.

(** one pass through the body of the outer [do ... while]; returns the
    new state and [outerstop] *)
Definition outer_iteration (A : Matrix) (B : Vector T) (n : nat) (d : driver)
  : result (driver * T) :=
  let* d := call_minimiser A B n d in
  let* d := update_multipliers A B d in
  let d := grow_penalties d in
  let outerstop := norm_2 (vsub (dr_U d) (dr_Uk d)) in
  Ok (d, outerstop).

(** the outer [do ... while (outerstop > tol)]; the count of passes made
    is returned next to the final state *)
Fixpoint outer_loop (fuel : nat) (A : Matrix) (B : Vector T) (n : nat)
    (d : driver) : result (driver * nat) :=
  match fuel with
  | O => Fault no_fuel
  | Datatypes.S fuel' =>
      let* '(d', outerstop) := outer_iteration A B n d in
      let tol := hundredth in
      if less tol outerstop then
        let* '(d'', passes) := outer_loop fuel' A B n d' in
        Ok (d'', Datatypes.S passes)
      else Ok (d', 1%nat)
  end.

(** [passes A B n d stops d']: passes of the loop body, made one after the
    other from [d], end in [d'] and give the values [stops] of [outerstop];
    the loop test is not part of it *)
Inductive passes (A : Matrix) (B : Vector T) (n : nat)
  : driver -> list T -> driver -> Prop :=
  | passes_one (d d' : driver) (outerstop : T) :
      outer_iteration A B n d = Ok (d', outerstop) ->
      passes A B n d [outerstop] d'
  | passes_more (d d1 d' : driver) (outerstop : T) (stops : list T) :
      outer_iteration A B n d = Ok (d1, outerstop) ->
      passes A B n d1 stops d' ->
      passes A B n d (outerstop :: stops) d'.

(** the state before the loop (lines 369-385) *)
Definition driver_entry (m n : nat) : driver :=
  let mu := of_int 3 in
  let beta := root (of_int 2) in
  mkDriver (BoostZeroMatrix n 2) (BoostZeroMatrix n 2) (BoostZeroMatrix n 2)
    (BoostZeroMatrix n 3) (BoostZeroVector n) (BoostZeroVector n)
    (BoostZeroVector m) beta mu.

(** The body of [tval3_reconstruction] reads [Sinogram], the argument of
    the earlier signature kept in the comment above the function; the
    matrix [A] is the local one, filled by [CreateRandomMatrix]. *)
Definition tval3_run (fuel : nat) (CurrentTick : Z) (Sinogram : Matrix)
  : result (Matrix * nat) :=
  let l := size1 Sinogram in
  let o := size2 Sinogram in
  let m := (l * o)%nat in
  let n := (l * l)%nat in
  let d := driver_entry m n in
  let* A := CreateRandomMatrix CurrentTick m n in
  let* B := MatrixToVector Sinogram in
  let* '(d, passes) := outer_loop fuel A B n d in
  let* X := VectorToMatrix (dr_U d) l l in
  Ok (X, passes).

End Driver.

Definition tval3_reconstruction (RandNormValue : Z -> nat -> T) (fuel : nat)
    (CurrentTick : Z) (Sinogram : Matrix) : result Matrix :=
  let* '(X, _) :=
    tval3_run RandNormValue (Alternating_Minimisation fuel) fuel
      CurrentTick Sinogram in
  Ok X.

End Containers.

Arguments Matrix T : clear implicits.
Arguments AM_locals T : clear implicits.
Arguments driver T : clear implicits.

(** ** The formulas of the specification *)

Section Formulas.
Context {T : Type} `{Scalar T}.
Local Open Scope scalar_scope.

(** The column-major image: [u(r,c)] is entry [r + c*L] of the raster. *)
Definition image_at (L : nat) (U : Vector T) (r c : nat) : T :=
  default zero (U !! (r + c * L)%nat).

(** The forward difference at pixel [i = r + c*L], zero in the last column
    (horizontal part) and in the last row (vertical part). *)
Definition forward_difference (L : nat) (U : Vector T) (i : nat) : Vector T :=
  let r := (i mod L)%nat in
  let c := (i / L)%nat in
  [ if bool_decide (c < L - 1)%nat
    then image_at L U r c - image_at L U r (c + 1) else zero ;
    if bool_decide (r < L - 1)%nat
    then image_at L U r c - image_at L U (r + 1) c else zero ].

(** The transpose action as the solver applies it: the sum over the pixels
    of [trans(Di)] applied to row [i] of the pair field, with [Di] from
    [Unit_Gradient2DMatrix] (the loop of [Onestep_Direction]). *)
Definition transpose_action (U : Vector T) (G : Matrix T) : result (Vector T) :=
  let n := length U in
  for_range n (fun i D =>
    let* Di := Unit_Gradient2DMatrix U (Z.of_nat i) in
    Ok (vadd D (prod (trans Di) (mat_row G i))))
    (BoostZeroVector n).

(** The Frobenius inner product of two matrices of the same shape. *)
Definition frobenius (M P : Matrix T) : T := inner_prod (data M) (data P).

(** [g(u) = beta Dt(Du - w) - Dt nu + mu At(Au - b) - At lambda], with the
    operators [D] and [Dt] of the solver. *)
Definition quadratic_gradient (A : Matrix T) (U B : Vector T) (W NU : Matrix T)
    (LAMBDA : Vector T) (beta mu : T) : result (Vector T) :=
  let* DU := Gradient2DMatrix U in
  let* Dt_diff := transpose_action U (msub DU W) in
  let* Dt_nu := transpose_action U NU in
  let tA := trans A in
  Ok (vsub (vadd (vsub (vscale beta Dt_diff) Dt_nu)
                 (vscale mu (prod tA (vsub (prod A U) B))))
           (prod tA LAMBDA)).

(** [Q(u) = - sum <nu_i, D_i u - w_i> + (beta/2) sum |D_i u - w_i|^2
           - <lambda, Au - b> + (mu/2) |Au - b|^2], each pixel reading the
    two entries of its rows of [nu] and [w]. *)
Definition quadratic_model (A : Matrix T) (U B : Vector T) (W NU : Matrix T)
    (LAMBDA : Vector T) (beta mu : T) : result T :=
  let* DU := Gradient2DMatrix U in
  let Q :=
    fold_left (fun Q i =>
      let DIFF := vsub (mat_row DU i) (mat_row W i) in
      Q - inner_prod (mat_row NU i) DIFF
        + (beta / two) * (norm_2 DIFF * norm_2 DIFF))
      (seq 0 (length U)) zero in
  let DIFF := vsub (prod A U) B in
  Ok (Q - inner_prod LAMBDA DIFF + (mu / two) * (norm_2 DIFF * norm_2 DIFF)).

(** The reference values [(P_k, C_k)] after the objective values [Qs] have
    been fed, one per inner step, to [update_coefficients]. *)
Definition reference_values (C0 : T) (Qs : list T) : T * T :=
  fold_left (fun PC Q => update_coefficients (fst PC) (snd PC) Q) Qs
    (of_int 1, C0).

End Formulas.

(** ** Shapes *)

(** a matrix whose storage has the size its shape announces *)
Definition well_formed {T : Type} (M : Matrix T) : Prop :=
  length (data M) = (size1 M * size2 M)%nat.

(** [VectorToMatrix] fills column by column: [X(i,j)] is entry
    [j*rows + i] of the vector *)
Definition filled {T : Type} `{Scalar T} (U : Vector T) (rows cols j i : nat)
    (st : Matrix T * nat) : Prop :=
  st.2 = (j * rows + i)%nat /\
  size1 st.1 = rows /\ size2 st.1 = cols /\ well_formed st.1 /\
  forall i' j', (i' < rows)%nat -> (j' < cols)%nat ->
    (j' < j \/ (j' = j /\ i' < i))%nat ->
    mat_get st.1 i' j' = vec_get U (j' * rows + i')%nat.

(** ** Sample inputs, in binary64 *)

Definition fl (z : Z) : float := float_of_int z.

Definition flv (zs : list Z) : Vector float := map fl zs.

Definition flm (r c : nat) (zs : list Z) : Matrix float := mkMatrix r c (map fl zs).

(** no measurements: [A] has no rows, [b] and [lambda] are empty *)
Definition no_rows (n : nat) : Matrix float := mkMatrix 0 n [].

(** the 2x2 image with nothing set, and its zero pair field *)
Definition zeros4 : Vector float := flv [0; 0; 0; 0]%Z.
Definition zeros42 : Matrix float := flm 4 2 [0; 0; 0; 0; 0; 0; 0; 0]%Z.
Definition zeros12 : Matrix float := flm 1 2 [0; 0]%Z.

(** the empty sinogram, which the link test of the repository passes *)
Definition empty_sinogram : Matrix float := mkMatrix 0 0 [].

(** a stand-in for Boost's generator: the [k]-th draw is [seed + k] *)
Definition counting_draws (seed : Z) (k : nat) : float := fl (seed + Z.of_nat k).

(** ** [ctvm_util.cpp]: neighbours in the raster *)

(** the value of an [unsigned long] and of an [unsigned int] expression, and
    the conversion of an unsigned value to [int] *)
Definition ulong (z : Z) : Z := (z mod 2 ^ 64)%Z.
Definition uint (z : Z) : Z := (z mod 2 ^ 32)%Z.
Definition to_int (z : Z) : Z :=
  let m := (z mod 2 ^ 32)%Z in
  if (m <? 2 ^ 31)%Z then m else (m - 2 ^ 32)%Z.

(** [Index] is an [unsigned int], [SideLength] an [unsigned long]; the
    comparison and both branches are [unsigned long], the result is
    converted to [int] *)
Definition RightNeighbor (Index SideLength : Z) : Z :=
  let bound :=
    ulong_sub (ulong_sub (ulong (SideLength * SideLength)) SideLength) 1 in
  to_int (if (bound <? Index)%Z then ulong (-1)
          else ulong (Index + SideLength)).

(** [Index + 1] is an [unsigned int]; the remainder by 0 is undefined *)
Definition DownNeighbor (Index SideLength : Z) : option Z :=
  if (SideLength =? 0)%Z then None
  else
    let next := uint (Index + 1) in
    Some (to_int (if negb (next mod SideLength =? 0)%Z then next
                  else uint (-1))).

(** ** The states of [MatrixToVector] *)

Section RasterStates.
Context {T : Type} `{Scalar T}.

(** the state of [MatrixToVector] when column [j] has been copied up to
    row [i] *)
Definition copied (M : Matrix T) (j i : nat) (st : Vector T * nat) : Prop :=
  st.2 = (j * size1 M + i)%nat /\
  length st.1 = (size1 M * size2 M)%nat /\
  forall i' j', (i' < size1 M)%nat -> (j' < size2 M)%nat ->
    (j' < j \/ (j' = j /\ i' < i))%nat ->
    vec_get st.1 (j' * size1 M + i')%nat = mat_get M i' j'.

End RasterStates.

(** ** The matrices [Unit_Gradient2DMatrix] can return *)

Section Stencils.
Context {T : Type} `{Scalar T}.

(** entry [q] of a row that holds [+1] at [p] and [-1] at [p'] when [on] is
    set, and zeros otherwise *)
Definition stencil_entry (on : bool) (p p' q : nat) : T :=
  if on then
    if decide (q = p) then of_int 1
    else if decide (q = p') then of_int (-1)
    else zero
  else zero.

(** a [2 x N] matrix whose row 0 is the pair [(p, p+1)] and whose row 1 is
    the pair [(p, p+L)], each present or not *)
Definition stencil (N L p : nat) (right down : bool) (Di : Matrix T) : Prop :=
  size1 Di = 2%nat /\ size2 Di = N /\ well_formed Di /\
  (forall q, (q < N)%nat ->
     mat_get Di 0 q = Ok (stencil_entry right p (p + 1) q)) /\
  (forall q, (q < N)%nat ->
     mat_get Di 1 q = Ok (stencil_entry down p (p + L) q)).

End Stencils.

(** ** [ctvm_util.cpp]: random containers *)

Section RandomContainers.
Context {T : Type} `{Scalar T}.
Variable RandNormValue : Z -> nat -> T.

(** [CreateRandomVector]: the generator is built as in
    [CreateRandomMatrix] *)
Definition CreateRandomVector (CurrentTick : Z) (length : nat)
  : result (Vector T) :=
  let seed := seed_of CurrentTick in
  for_range length (fun i RandomVector =>
    vec_set RandomVector i (RandNormValue seed i))
    (BoostZeroVector length).

(** the storage of a random container after [drawn] draws *)
Definition drawn_storage (seed : Z) (size drawn : nat) : list T :=
  map (RandNormValue seed) (seq 0 drawn) ++ replicate (size - drawn) zero.

End RandomContainers.

(** ** [ctvm_util.cpp]: rows and columns *)

Section RowsAndColumns.
Context {T : Type} `{Scalar T}.

(** [GetRow]: a vector of [size2] entries assigned from the row proxy
    [matrix_row(AMatrix, row)], which reads [AMatrix(row, j)], each read
    range-checked like every element access *)
Definition GetRow (AMatrix : Matrix T) (row : nat) : result (Vector T) :=
  for_range (size2 AMatrix) (fun j v =>
    let* x := mat_get AMatrix row j in
    vec_set v j x) (BoostZeroVector (size2 AMatrix)).

(** [GetCol]: the row [col] of the transposed matrix *)
Definition GetCol (AMatrix : Matrix T) (col : nat) : result (Vector T) :=
  let AMatrixTransp := trans AMatrix in
  GetRow AMatrixTransp col.

Definition SetRow (AMatrix : Matrix T) (RowVect : Vector T) (row : nat)
  : result (Matrix T) :=
  let cols := size2 AMatrix in
  for_range cols (fun i AMatrix =>
    let* x := vec_get RowVect i in
    mat_set AMatrix row i x) AMatrix.

Definition SetCol (AMatrix : Matrix T) (ColVect : Vector T) (col : nat)
  : result (Matrix T) :=
  let rows := size1 AMatrix in
  for_range rows (fun i AMatrix =>
    let* x := vec_get ColVect i in
    mat_set AMatrix i col x) AMatrix.

End RowsAndColumns.

(** ** [ctvm_util.cpp]: element-wise helpers and extreme entries *)

(** what the helpers need besides [Scalar] *)
Class Comparisons (T : Type) : Type := {
  differs : T -> T -> bool;   (* operator!=, true when an operand is NaN *)
  absolute : T -> T;          (* std::abs *)
  fmax : T -> T -> T          (* fmax: a NaN operand counts as missing *)
}.

(** [fmax] on binary64: [x] unless [y] is larger or [x] is a NaN *)
Definition float_fmax (x y : float) : float :=
  if PrimFloat.is_nan x then y
  else if PrimFloat.is_nan y then x
  else if PrimFloat.ltb x y then y else x.

Instance float_comparisons : Comparisons float := {|
  differs := fun x y => negb (PrimFloat.eqb x y);
  absolute := PrimFloat.abs;
  fmax := float_fmax
|}.

Definition Rdiffers (x y : R) : bool := if Req_dec_T x y then false else true.

Instance real_comparisons : Comparisons R := {|
  differs := Rdiffers;
  absolute := Rabs;
  fmax := Rmax
|}.

Section Helpers.
Context {T : Type} `{Scalar T} `{Comparisons T}.

Local Open Scope scalar_scope.

Definition SignVector (AVector : Vector T) : result (Vector T) :=
  for_range (length AVector) (fun i AVector =>
    let* x := vec_get AVector i in
    if less x zero then vec_set AVector i (of_int (-1))
    else vec_set AVector i (of_int 1)) AVector.

Definition HadamardProduct (A B : Vector T) : result (Vector T) :=
  let N := length A in
  for_range N (fun i C =>
    let* a := vec_get A i in
    let* b := vec_get B i in
    vec_set C i (a * b)) (BoostZeroVector N).

Definition AbsoluteValueVector (AVector : Vector T) : result (Vector T) :=
  for_range (length AVector) (fun i AVector =>
    let* x := vec_get AVector i in
    vec_set AVector i (absolute x)) AVector.

(** [MaxVector(BoostDoubleVector, BoostDoubleVector)] *)
Definition MaxVector (A B : Vector T) : result (Vector T) :=
  let N := length A in
  for_range N (fun i C =>
    let* a := vec_get A i in
    let* b := vec_get B i in
    vec_set C i (fmax a b)) (BoostZeroVector N).

(** [MaxVector(BoostDoubleVector, double)] *)
Definition MaxVector_scalar (A : Vector T) (B : T) : result (Vector T) :=
  let N := length A in
  for_range N (fun i C =>
    let* a := vec_get A i in
    vec_set C i (fmax a B)) (BoostZeroVector N).

Definition MakeUnitVector (AVector : Vector T) : Vector T :=
  vdivide AVector (norm_2 AVector).

Definition SquareNorm (AVector : Vector T) : T :=
  let thisNorm := norm_2 AVector in
  thisNorm * thisNorm.

(** [std::max(a, b)] is [(a < b) ? b : a], [std::min(a, b)] is
    [(b < a) ? b : a] *)
Definition std_max (a b : T) : T := if less a b then b else a.
Definition std_min (a b : T) : T := if less b a then b else a.

(** [MaximumEntry(BoostDoubleMatrix)] *)
Definition MaximumEntry (AMatrix : Matrix T) : result T :=
  for_range (size1 AMatrix) (fun i MaxValue =>
    for_range (size2 AMatrix) (fun j MaxValue =>
      let* x := mat_get AMatrix i j in
      Ok (std_max MaxValue x)) MaxValue) zero.

(** [MaximumEntry(BoostDoubleVector)] *)
Definition MaximumEntry_vector (AVector : Vector T) : result T :=
  for_range (length AVector) (fun i MaxValue =>
    let* x := vec_get AVector i in
    Ok (std_max MaxValue x)) zero.

(** [std::numeric_limits<double>::infinity()] *)
Variable infinity : T.

(** [MinimumEntry(BoostDoubleMatrix)] *)
Definition MinimumEntry (AMatrix : Matrix T) : result T :=
  for_range (size1 AMatrix) (fun i MinValue =>
    for_range (size2 AMatrix) (fun j MinValue =>
      let* x := mat_get AMatrix i j in
      Ok (std_min MinValue x)) MinValue) infinity.

(** [MinimumEntry(BoostDoubleVector)] *)
Definition MinimumEntry_vector (AVector : Vector T) : result T :=
  for_range (length AVector) (fun i MinValue =>
    let* x := vec_get AVector i in
    Ok (std_min MinValue x)) infinity.

(** [BoostScalarDoubleMatrix(r, c, x)] and [BoostDoubleMatrix(r, c, x)]:
    every entry is [x] *)
Definition BoostScalarDoubleMatrix (r c : nat) (x : T) : Matrix T :=
  mkMatrix r c (replicate (r * c) x).

(** [M /= a] *)
Definition mdivide (M : Matrix T) (a : T) : Matrix T :=
  mkMatrix (size1 M) (size2 M) (map (fun x => x / a) (data M)).

Definition NormalizeMatrix (AMatrix : Matrix T) : result (Matrix T) :=
  let* AMatrixMin := MinimumEntry AMatrix in
  let* AMatrixMax := MaximumEntry AMatrix in
  let AMatrixRange := AMatrixMax - AMatrixMin in
  let AMatrixNormalized := AMatrix in
  if differs AMatrixRange (of_int 0) then
    let AMatrixNormalized :=
      msub AMatrixNormalized
        (BoostScalarDoubleMatrix (size1 AMatrix) (size2 AMatrix) AMatrixMin) in
    Ok (mdivide AMatrixNormalized AMatrixRange)
  else
    Ok (BoostScalarDoubleMatrix (size1 AMatrix) (size2 AMatrix) (of_int 1)).

End Helpers.

(** ** Further sample inputs *)

Definition matrix22 : Matrix float := flm 2 2 [1; 2; 3; 4]%Z.
Definition matrix23 : Matrix float := flm 2 3 [1; 2; 3; 4; 5; 6]%Z.

(** the 2x2 and a 3x3 image as vectors *)
Definition image22 : Vector float := flv [1; 2; 4; 8]%Z.
Definition image33 : Vector float := flv [1; 2; 3; 4; 5; 6; 7; 8; 9]%Z.

(** a real matrix without a positive entry *)
Definition negative12 : Matrix R := mkMatrix 1 2 [(-1)%R; (-2)%R].

(** a state of the driver with two pixels, on which the inner solver runs
    to its end: [A] is the 2x2 identity, [b = (1,2)], [u = (1,0)],
    [w = 0], [nu = ((1,2),(3,4))], [lambda = (5,6)], [beta = 2] and
    [mu = 3].  No square image has two pixels, and on every square image
    with a pixel the solver stops in a range check, so the driver itself
    never gets here. *)
Definition identity22 : Matrix float := flm 2 2 [1; 0; 0; 1]%Z.

Definition driver22 : driver float :=
  mkDriver (flm 2 2 [0; 0; 0; 0]%Z) (flm 2 2 [0; 0; 0; 0]%Z) matrix22
    (BoostZeroMatrix 2 3) (flv [1; 0]%Z) (flv [0; 0]%Z) (flv [5; 6]%Z)
    (fl 2) (fl 3).

(** what the solver and the pass leave of it *)
Definition w22 : Matrix float :=
  mkMatrix 2 2
    [(-0x0p+0)%float; (-0x1p+0)%float; (-0x1.1b06d1d200914p-1)%float;
     (-0x1.999999999999ap+0)%float].

Definition u22 : Vector float :=
  [0x1.54eaaaaaaaaabp+1%float; 0x1.ffp+1%float].

Definition nu22 : Matrix float :=
  mkMatrix 2 2
    [0x1p+0%float; 0x0p+0%float; 0x1.e4f92e2dff6ecp+0%float;
     0x1.9999999999998p-1%float].

Definition lambda22 : Vector float := [0x1.4p-7%float; 0x1.8p-6%float].

(** * Properties *)

(** ** Inversion of fallible code *)

Lemma bind_Ok {A B : Type} (r : result A) (k : A -> result B) (b : B) :
  bind r k = Ok b -> exists a, r = Ok a /\ k a = Ok b.
Proof.
  destruct r as [a|f]; simpl; intros Hk; [exists a; auto | discriminate].
Qed.

Ltac inv_bind H :=
  match type of H with
  | bind ?r ?k = Ok _ =>
      let a := fresh "a" in
      let Ha := fresh "Ha" in
      let Hk := fresh "Hk" in
      destruct (bind_Ok r k _ H) as (a & Ha & Hk); clear H; simpl in Hk
  end.

Ltac inv_binds :=
  repeat match goal with
         | H : bind _ _ = Ok _ |- _ => inv_bind H
         | H : (let '(_, _) := ?p in _) = Ok _ |- _ => destruct p; simpl in H
         | H : Ok _ = Ok _ |- _ => injection H as H; subst
         end.

(** a loop keeps what each pass of its body keeps *)
Lemma for_from_invariant {S : Type} (P : nat -> S -> Prop)
    (body : nat -> S -> result S) (count start : nat) (s s' : S) :
  P start s ->
  (forall i t t', (start <= i < start + count)%nat ->
     P i t -> body i t = Ok t' -> P (Datatypes.S i) t') ->
  for_from start count body s = Ok s' ->
  P (start + count)%nat s'.
Proof.
  revert start s.
  induction count as [|count IH]; intros start s Hs Hstep Hrun; simpl in Hrun.
  - injection Hrun as <-. by rewrite Nat.add_0_r.
  - inv_bind Hrun.
    replace (start + Datatypes.S count)%nat with (Datatypes.S start + count)%nat by lia.
    apply (IH (Datatypes.S start) a); [ | | exact Hk].
    + apply (Hstep start s a); [lia | exact Hs | exact Ha].
    + intros i t t' Hi. apply Hstep. lia.
Qed.

(** what every pass of a loop that ran to its end must have satisfied *)
Lemma for_from_each {S : Type} (P : S -> Prop) (Q : nat -> Prop)
    (body : nat -> S -> result S) (count start : nat) (s s' : S) :
  P s ->
  (forall i t t', P t -> body i t = Ok t' -> P t' /\ Q i) ->
  for_from start count body s = Ok s' ->
  forall i, (start <= i < start + count)%nat -> Q i.
Proof.
  intros Hs Hstep. revert start s Hs.
  induction count as [|count IH]; intros start s Hs Hrun i Hi; [lia|].
  simpl in Hrun. inv_bind Hrun.
  destruct (Hstep _ _ _ Hs Ha) as [Ha' HQ].
  destruct (decide (i = start)) as [->|Hne]; [exact HQ|].
  apply (IH _ _ Ha' Hk). lia.
Qed.

(** the decimal constants of the source, as quotients of integers, are the
    binary64 numbers that the literals [0.5], [0.01] and [1.05] denote *)
Example decimal_constants :
  @half float _ = 0x1p-1%float /\
  @hundredth float _ = 0x1.47ae147ae147bp-7%float /\
  @coef float _ = 0x1.0cccccccccccdp+0%float.
Proof. vm_compute. auto. Qed.

(** ** Containers and the raster *)

Section MatrixFacts.
Context {T : Type} `{Scalar T}.

Lemma in_range_true (M : Matrix T) (i j : nat) :
  in_range M i j = true <-> (i < size1 M /\ j < size2 M)%nat.
Proof.
  unfold in_range. rewrite andb_true_iff, !bool_decide_eq_true. tauto.
Qed.

Lemma storage_index_lt (r c i j : nat) :
  (i < r)%nat -> (j < c)%nat -> (i * c + j < r * c)%nat.
Proof.
  intros Hi Hj.
  assert (Datatypes.S i * c <= r * c)%nat by (apply Nat.mul_le_mono_r; lia).
  lia.
Qed.

Lemma storage_index_inj (c i j i' j' : nat) :
  (j < c)%nat -> (j' < c)%nat -> (i * c + j = i' * c + j')%nat ->
  i = i' /\ j = j'.
Proof.
  intros Hj Hj' Heq.
  destruct (Nat.lt_trichotomy i i') as [Hlt|[->|Hlt]].
  - assert (Datatypes.S i * c <= i' * c)%nat by (apply Nat.mul_le_mono_r; lia).
    lia.
  - split; [reflexivity | lia].
  - assert (Datatypes.S i' * c <= i * c)%nat by (apply Nat.mul_le_mono_r; lia).
    lia.
Qed.

Lemma BoostZeroMatrix_well_formed (r c : nat) :
  well_formed (BoostZeroMatrix r c).
Proof. unfold well_formed. simpl. apply length_replicate. Qed.

Lemma mat_set_Ok (M M' : Matrix T) (i j : nat) (x : T) :
  mat_set M i j x = Ok M' ->
  (i < size1 M)%nat /\ (j < size2 M)%nat /\
  M' = mkMatrix (size1 M) (size2 M) (<[(i * size2 M + j)%nat := x]> (data M)).
Proof.
  unfold mat_set. destruct (in_range M i j) eqn:Hr; [|discriminate].
  apply in_range_true in Hr. intros [= <-]. tauto.
Qed.

Lemma mat_set_sizes (M M' : Matrix T) (i j : nat) (x : T) :
  mat_set M i j x = Ok M' -> size1 M' = size1 M /\ size2 M' = size2 M.
Proof.
  intros Hset. apply mat_set_Ok in Hset as (_ & _ & ->). split; reflexivity.
Qed.

Lemma mat_set_total (M : Matrix T) (i j : nat) (x : T) :
  (i < size1 M)%nat -> (j < size2 M)%nat ->
  exists M', mat_set M i j x = Ok M'.
Proof.
  intros Hi Hj. unfold mat_set.
  rewrite (proj2 (in_range_true M i j)) by tauto. eauto.
Qed.

Lemma mat_set_well_formed (M M' : Matrix T) (i j : nat) (x : T) :
  mat_set M i j x = Ok M' -> well_formed M -> well_formed M'.
Proof.
  intros Hset Hwf. apply mat_set_Ok in Hset as (_ & _ & ->).
  unfold well_formed in *. simpl. by rewrite length_insert.
Qed.

Lemma mat_get_set_same (M M' : Matrix T) (i j : nat) (x : T) :
  well_formed M -> mat_set M i j x = Ok M' -> mat_get M' i j = Ok x.
Proof.
  intros Hwf Hset. apply mat_set_Ok in Hset as (Hi & Hj & ->).
  unfold mat_get. rewrite (proj2 (in_range_true _ i j)) by (simpl; tauto).
  simpl. rewrite list_lookup_insert_eq; [reflexivity|].
  rewrite Hwf. by apply storage_index_lt.
Qed.

Lemma mat_get_set_other (M M' : Matrix T) (i j i' j' : nat) (x : T) :
  mat_set M i j x = Ok M' -> (i', j') <> (i, j) ->
  mat_get M' i' j' = mat_get M i' j'.
Proof.
  intros Hset Hne. apply mat_set_Ok in Hset as (Hi & Hj & ->).
  unfold mat_get, in_range. simpl.
  destruct (bool_decide (i' < size1 M)%nat) eqn:Hi'; [|reflexivity].
  destruct (bool_decide (j' < size2 M)%nat) eqn:Hj'; [|reflexivity].
  simpl. apply bool_decide_eq_true in Hj'.
  rewrite list_lookup_insert_ne; [reflexivity|].
  intros Heq. apply storage_index_inj in Heq as [-> ->]; [|assumption..].
  by apply Hne.
Qed.

Lemma vec_set_Ok (v v' : Vector T) (i : nat) (x : T) :
  vec_set v i x = Ok v' -> (i < length v)%nat /\ v' = <[i := x]> v.
Proof.
  unfold vec_set. destruct (decide (i < length v)%nat); [|discriminate].
  intros [= <-]. tauto.
Qed.

Lemma vec_get_Ok (v : Vector T) (i : nat) (x : T) :
  vec_get v i = Ok x <-> v !! i = Some x.
Proof.
  unfold vec_get. destruct (v !! i); split; intros Hx; try discriminate;
    congruence.
Qed.

Lemma mat_get_Ok (M : Matrix T) (i j : nat) (x : T) :
  mat_get M i j = Ok x <->
  (i < size1 M)%nat /\ (j < size2 M)%nat /\
  data M !! (i * size2 M + j)%nat = Some x.
Proof.
  unfold mat_get. destruct (in_range M i j) eqn:Hr.
  - apply in_range_true in Hr.
    destruct (data M !! (i * size2 M + j)%nat); split; intros Hx;
      try discriminate; intuition congruence.
  - split; [discriminate|]. intros (Hi & Hj & _).
    rewrite (proj2 (in_range_true M i j)) in Hr by tauto. discriminate.
Qed.

(** a loop whose body always succeeds on states that satisfy the invariant
    runs to its end *)
Lemma for_from_total {S : Type} (P : nat -> S -> Prop)
    (body : nat -> S -> result S) (count start : nat) (s : S) :
  P start s ->
  (forall i t, (start <= i < start + count)%nat -> P i t ->
     exists t', body i t = Ok t' /\ P (Datatypes.S i) t') ->
  exists s', for_from start count body s = Ok s' /\ P (start + count)%nat s'.
Proof.
  revert start s.
  induction count as [|count IH]; intros start s Hs Hstep; simpl.
  - exists s. rewrite Nat.add_0_r. auto.
  - destruct (Hstep start s) as (t & Hbody & Ht); [lia | exact Hs |].
    rewrite Hbody. simpl.
    replace (start + Datatypes.S count)%nat
      with (Datatypes.S start + count)%nat by lia.
    apply IH; [exact Ht|]. intros i u Hi. apply Hstep. lia.
Qed.

Lemma VectorToMatrix_Ok (U : Vector T) (rows cols : nat) :
  (rows * cols <= length U)%nat ->
  exists X,
    VectorToMatrix U rows cols = Ok X /\
    size1 X = rows /\ size2 X = cols /\ well_formed X /\
    forall i j, (i < rows)%nat -> (j < cols)%nat ->
      mat_get X i j = vec_get U (j * rows + i)%nat.
Proof.
  intros Hlen. unfold VectorToMatrix, for_range.
  destruct (for_from_total (fun j st => filled U rows cols j 0 st)
    (fun j st =>
       for_from 0 rows (fun i '(AMatrix, VectorIndex) =>
         let* x := vec_get U VectorIndex in
         let* AMatrix' := mat_set AMatrix i j x in
         Ok (AMatrix', Datatypes.S VectorIndex)) st)
    cols 0 (BoostZeroMatrix rows cols, 0)) as ([X k] & Hrun & Hfilled).
  - repeat split; try apply BoostZeroMatrix_well_formed.
    intros i' j' _ _ [Hj|[_ Hi]]; lia.
  - intros j st Hj Hst. simpl in Hj.
    destruct (for_from_total (fun i st => filled U rows cols j i st)
      (fun i '(AMatrix, VectorIndex) =>
         let* x := vec_get U VectorIndex in
         let* AMatrix' := mat_set AMatrix i j x in
         Ok (AMatrix', Datatypes.S VectorIndex))
      rows 0 st) as (st' & Hrun & Hfilled); [exact Hst | |].
    + clear st Hst. intros i [M k] Hi (Hk & Hs1 & Hs2 & Hwf & Hget).
      simpl in Hi, Hk, Hs1, Hs2, Hwf, Hget.
      assert (Hin : (k < length U)%nat).
      { subst k. pose proof (storage_index_lt cols rows j i). lia. }
      apply lookup_lt_is_Some in Hin as [x Hx].
      simpl. unfold vec_get at 1. rewrite Hx. simpl.
      destruct (mat_set_total M i j x) as [M' Hset]; [lia..|].
      rewrite Hset. simpl. eexists. split; [reflexivity|].
      pose proof (mat_set_Ok _ _ _ _ _ Hset) as (_ & _ & HM').
      repeat split; simpl.
      * lia.
      * by subst M'.
      * by subst M'.
      * eapply mat_set_well_formed; eassumption.
      * intros i' j' Hi' Hj' Hcase.
        destruct (decide ((i', j') = (i, j))) as [[= -> ->]|Hne].
        -- rewrite (mat_get_set_same _ _ _ _ _ Hwf Hset).
           unfold vec_get. rewrite <- Hk, Hx. reflexivity.
        -- rewrite (mat_get_set_other _ _ _ _ _ _ _ Hset Hne).
           apply Hget; [assumption..|].
           destruct Hcase as [?|[-> ?]]; [tauto|].
           right. split; [reflexivity|].
           assert (i' <> i) by congruence. lia.
    + exists st'. split; [exact Hrun|].
      destruct Hfilled as (Hk & Hs1 & Hs2 & Hwf & Hget). simpl in Hk.
      repeat split; try assumption.
      * rewrite Hk. lia.
      * intros i' j' Hi' Hj' Hcase. apply Hget; [assumption..|]. lia.
  - rewrite Hrun. simpl. exists X. split; [reflexivity|].
    destruct Hfilled as (_ & Hs1 & Hs2 & Hwf & Hget). simpl in *.
    repeat split; try assumption.
    intros i j Hi Hj. apply Hget; [assumption..|]. lia.
Qed.

(** *** Where [Gradient2D] looks for its pixel *)

Lemma find_col_spec (count : nat) (j pixel : Z) :
  (0 <= j <= pixel)%Z -> (0 < pixel)%Z ->
  find_col count j pixel =
    if (pixel <? j + Z.of_nat count)%Z then Some pixel else None.
Proof.
  revert j. induction count as [|count IH]; intros j Hj Hpixel; cbn [find_col].
  - destruct (Z.ltb_spec pixel (j + Z.of_nat 0)); [lia | reflexivity].
  - destruct (Z.eqb_spec (j / pixel) 0) as [Hq|Hq]; cbn [negb].
    + apply Z.div_small_iff in Hq; [|lia].
      rewrite IH by lia.
      replace (j + Z.of_nat (Datatypes.S count))%Z
        with (j + 1 + Z.of_nat count)%Z by lia.
      reflexivity.
    + assert (j = pixel) as ->.
      { destruct (Z.eq_dec j pixel); [assumption|].
        exfalso. apply Hq. apply Z.div_small. lia. }
      destruct (Z.ltb_spec pixel (pixel + Z.of_nat (Datatypes.S count)));
        [reflexivity | lia].
Qed.

(** once the pixel counter is at least [count * l], the remaining [count]
    passes of the search change nothing *)
Lemma find_pixel_idle (count : nat) (i l pixel rows cols : Z) :
  (0 < l)%Z -> (Z.of_nat count * l <= pixel < 2 ^ 64)%Z ->
  find_pixel count i l pixel rows cols = (rows, cols).
Proof.
  intros Hl. revert i pixel.
  induction count as [|count IH]; intros i pixel Hpixel; cbn [find_pixel];
    [reflexivity|].
  assert (l <= pixel)%Z by nia.
  destruct (Z.eqb_spec pixel 0); [lia|].
  rewrite find_col_spec by lia.
  destruct (Z.ltb_spec pixel (0 + Z.of_nat (Z.to_nat l))); [lia|].
  assert (Hsub : ulong_sub pixel l = (pixel - l)%Z).
  { unfold ulong_sub. apply Z.mod_small. lia. }
  rewrite Hsub. apply IH. nia.
Qed.

(** the search returns the row-major position of the pixel *)
Lemma find_pixel_spec (count : nat) (i l q c rows cols : Z) :
  (0 < l)%Z -> (0 <= c < l)%Z -> (0 <= q < Z.of_nat count)%Z ->
  (Z.of_nat count * l <= 2 ^ 64)%Z ->
  find_pixel count i l (q * l + c) rows cols = ((i + q)%Z, c).
Proof.
  intros Hl Hc. revert i q rows cols.
  induction count as [|count IH]; intros i q rows cols Hq Hbound; [lia|].
  cbn [find_pixel].
  destruct (Z.eqb_spec (q * l + c) 0) as [Hzero|Hnz].
  - assert (q = 0 /\ c = 0)%Z as [-> ->] by nia.
    by rewrite Z.add_0_r.
  - rewrite find_col_spec by nia.
    destruct (Z.ltb_spec (q * l + c) (0 + Z.of_nat (Z.to_nat l))) as [Hlt|Hge].
    + assert (q = 0)%Z as -> by nia.
      rewrite Z.mul_0_l, Z.add_0_l, Z.add_0_r.
      apply find_pixel_idle; [exact Hl|].
      unfold ulong_sub.
      replace ((c - l) mod 2 ^ 64)%Z with (c - l + 2 ^ 64)%Z.
      * nia.
      * apply Z.mod_unique with (-1)%Z; lia.
    + assert (Hsub : ulong_sub (q * l + c) l = ((q - 1) * l + c)%Z).
      { unfold ulong_sub. rewrite Z.mod_small; nia. }
      rewrite Hsub, IH by nia. f_equal. lia.
Qed.

Local Open Scope scalar_scope.

(** on a square image, the matrix of [VectorToMatrix] is the column-major
    image *)
Lemma VectorToMatrix_image (L : nat) (U : Vector T) :
  length U = (L * L)%nat ->
  exists X,
    VectorToMatrix U L L = Ok X /\
    forall r c, (r < L)%nat -> (c < L)%nat ->
      mat_get X r c = Ok (image_at L U r c).
Proof.
  intros Hlen.
  destruct (VectorToMatrix_Ok U L L) as (X & HX & _ & _ & _ & Hget); [lia|].
  exists X. split; [exact HX|].
  intros r c Hr Hc. rewrite Hget by assumption.
  unfold vec_get, image_at. rewrite (Nat.add_comm r).
  destruct (lookup_lt_is_Some U (c * L + r)) as [_ [x ->]]; [|reflexivity].
  rewrite Hlen. by apply storage_index_lt.
Qed.

(** What [Gradient2D] returns on a square image: the pixel with raster
    index [r*L + c] gets the differences of the image entry [(r, c)], whose
    raster index is [r + c*L]. *)
Lemma Gradient2D_Ok (L : nat) (U : Vector T) (r c : nat) :
  length U = (L * L)%nat -> (Z.of_nat L * Z.of_nat L <= 2 ^ 64)%Z ->
  (r < L)%nat -> (c < L)%nat ->
  Gradient2D U (Z.of_nat (r * L + c)) =
    Ok [ image_at L U r c
           - image_at L U r (if decide (c = L - 1)%nat then c else (c + 1)%nat);
         image_at L U r c
           - image_at L U (if decide (r = L - 1)%nat then r else (r + 1)%nat) c ].
Proof.
  intros Hlen Hbound Hr Hc. unfold Gradient2D.
  assert (Hsqrt : Z.sqrt (Z.of_nat (length U)) = Z.of_nat L).
  { rewrite Hlen, Nat2Z.inj_mul. apply Z.sqrt_square. lia. }
  rewrite Hsqrt, Nat2Z.id.
  destruct (VectorToMatrix_image L U Hlen) as (X & -> & Hget). simpl bind.
  assert (Hpixel : (r * L + c < L * L)%nat) by (by apply storage_index_lt).
  destruct (Z.leb_spec (Z.of_nat (length U)) (Z.of_nat (r * L + c))); [lia|].
  replace (Z.of_nat (r * L + c)) with (Z.of_nat r * Z.of_nat L + Z.of_nat c)%Z
    by lia.
  rewrite find_pixel_spec by lia. rewrite Z.add_0_l.
  assert (Hlast : ulong_sub (Z.of_nat L) 1 = (Z.of_nat L - 1)%Z).
  { unfold ulong_sub. apply Z.mod_small. lia. }
  rewrite Hlast.
  assert (Hdiff : forall r1 c1 r2 c2, (r1 < L)%nat -> (c1 < L)%nat ->
            (r2 < L)%nat -> (c2 < L)%nat ->
            difference X (Z.of_nat r1) (Z.of_nat c1) (Z.of_nat r2) (Z.of_nat c2)
            = Ok (image_at L U r1 c1 - image_at L U r2 c2)).
  { intros r1 c1 r2 c2 ? ? ? ?. unfold difference.
    rewrite !Nat2Z.id, !Hget by assumption. reflexivity. }
  replace (Z.of_nat r + 1)%Z with (Z.of_nat (r + 1)) by lia.
  replace (Z.of_nat c + 1)%Z with (Z.of_nat (c + 1)) by lia.
  destruct (Z.eqb_spec (Z.of_nat c) (Z.of_nat L - 1)) as [Hcl|Hcl],
           (Z.eqb_spec (Z.of_nat r) (Z.of_nat L - 1)) as [Hrl|Hrl];
    cbn [andb];
    destruct (decide (c = L - 1)%nat), (decide (r = L - 1)%nat); try lia;
    rewrite !Hdiff by lia; reflexivity.
Qed.

End MatrixFacts.

(** In exact arithmetic, where [x - x = 0]: [Gradient2D] at raster index
    [r*L + c] returns the forward difference that belongs to raster index
    [r + c*L], the transposed pixel. *)
Lemma Gradient2D_transposed (L : nat) (U : Vector R) (r c : nat) :
  length U = (L * L)%nat -> (Z.of_nat L * Z.of_nat L <= 2 ^ 64)%Z ->
  (r < L)%nat -> (c < L)%nat ->
  Gradient2D U (Z.of_nat (r * L + c)) = Ok (forward_difference L U (r + c * L)).
Proof.
  intros Hlen Hbound Hr Hc.
  rewrite (Gradient2D_Ok L U r c) by assumption.
  unfold forward_difference.
  replace ((r + c * L) mod L)%nat with r
    by (rewrite Nat.Div0.mod_add; symmetry; by apply Nat.mod_small).
  replace ((r + c * L) / L)%nat with c
    by (rewrite Nat.div_add by lia; rewrite Nat.div_small by lia; reflexivity).
  do 2 f_equal.
  - destruct (decide (c = L - 1)%nat), (bool_decide_reflect (c < L - 1)%nat);
      try lia; try reflexivity.
    unfold zero; simpl. lra.
  - f_equal.
    destruct (decide (r = L - 1)%nat), (bool_decide_reflect (r < L - 1)%nat);
      try lia; try reflexivity.
    unfold zero; simpl. lra.
Qed.


(** ** Packing and unpacking the result of the inner solver *)

Section Packing.
Context {T : Type} `{Scalar T}.

(** [AM_pack] puts the two columns of [W] and the vector [Uk] side by side *)
Lemma AM_pack_Ok (n : nat) (W : Matrix T) (Uk : Vector T) (AL_MIN : Matrix T) :
  AM_pack n W Uk = Ok AL_MIN ->
  size1 AL_MIN = n /\ size2 AL_MIN = 3%nat /\
  forall pix, (pix < n)%nat ->
    mat_get AL_MIN pix 0 = mat_get W pix 0 /\
    mat_get AL_MIN pix 1 = mat_get W pix 1 /\
    mat_get AL_MIN pix 2 = vec_get Uk pix.
Proof.
  unfold AM_pack, for_range. intros Hrun.
  apply (for_from_invariant
           (fun i M =>
              well_formed M /\ size1 M = n /\ size2 M = 3%nat /\
              forall pix, (pix < i)%nat ->
                mat_get M pix 0 = mat_get W pix 0 /\
                mat_get M pix 1 = mat_get W pix 1 /\
                mat_get M pix 2 = vec_get Uk pix)) in Hrun.
  - simpl in Hrun. tauto.
  - split; [apply BoostZeroMatrix_well_formed|].
    repeat split; lia.
  - intros i M M' _ (Hwf & Hs1 & Hs2 & Hget) Hbody. inv_binds.
    match goal with
    | H0 : mat_set M i 0 _ = Ok ?M0, H1 : mat_set ?M0 i 1 _ = Ok ?M1,
      H2 : mat_set ?M1 i 2 _ = Ok M' |- _ =>
        pose proof (mat_set_well_formed _ _ _ _ _ H0 Hwf) as Hwf0;
        pose proof (mat_set_well_formed _ _ _ _ _ H1 Hwf0) as Hwf1;
        pose proof (mat_set_well_formed _ _ _ _ _ H2 Hwf1) as Hwf2;
        pose proof (mat_set_sizes _ _ _ _ _ H0) as [? ?];
        pose proof (mat_set_sizes _ _ _ _ _ H1) as [? ?];
        pose proof (mat_set_sizes _ _ _ _ _ H2) as [? ?];
        split; [exact Hwf2|]; split; [congruence|]; split; [congruence|];
        intros pix Hpix;
        destruct (decide (pix = i)) as [->|Hne];
        [ rewrite (mat_get_set_other _ _ _ _ i 0 _ H2) by congruence;
          rewrite (mat_get_set_other _ _ _ _ i 0 _ H1) by congruence;
          rewrite (mat_get_set_same _ _ _ _ _ Hwf H0);
          rewrite (mat_get_set_other _ _ _ _ i 1 _ H2) by congruence;
          rewrite (mat_get_set_same _ _ _ _ _ Hwf0 H1);
          rewrite (mat_get_set_same _ _ _ _ _ Hwf1 H2)
        | rewrite !(mat_get_set_other _ _ _ _ pix _ _ H2) by congruence;
          rewrite !(mat_get_set_other _ _ _ _ pix _ _ H1) by congruence;
          rewrite !(mat_get_set_other _ _ _ _ pix _ _ H0) by congruence;
          apply Hget; lia ]
    end.
    repeat split; congruence.
Qed.

(** [unpack] reads them back: columns 0 and 1 of [MIN] into [W], column 2
    into [U] *)
Lemma unpack_Ok (n : nat) (MIN W : Matrix T) (U : Vector T)
    (W' : Matrix T) (U' : Vector T) :
  well_formed W -> unpack n MIN W U = Ok (W', U') ->
  size1 W' = size1 W /\ size2 W' = size2 W /\ length U' = length U /\
  forall i, (i < n)%nat ->
    mat_get W' i 0 = mat_get MIN i 0 /\
    mat_get W' i 1 = mat_get MIN i 1 /\
    vec_get U' i = mat_get MIN i 2.
Proof.
  unfold unpack, for_range. intros HwfW Hrun.
  apply (for_from_invariant
           (fun k st =>
              well_formed st.1 /\ size1 st.1 = size1 W /\
              size2 st.1 = size2 W /\ length st.2 = length U /\
              forall i, (i < k)%nat ->
                mat_get st.1 i 0 = mat_get MIN i 0 /\
                mat_get st.1 i 1 = mat_get MIN i 1 /\
                vec_get st.2 i = mat_get MIN i 2)) in Hrun.
  - simpl in Hrun. tauto.
  - simpl. repeat split; try assumption; lia.
  - intros i [M V] [M' V'] _ (Hwf & Hs1 & Hs2 & Hlen & Hget) Hbody.
    simpl in *. inv_binds.
    match goal with
    | H0 : mat_set M i 0 _ = Ok ?M0, H1 : mat_set ?M0 i 1 _ = Ok M',
      H2 : vec_set V i _ = Ok V' |- _ =>
        pose proof (mat_set_well_formed _ _ _ _ _ H0 Hwf) as Hwf0;
        pose proof (mat_set_well_formed _ _ _ _ _ H1 Hwf0) as Hwf1;
        pose proof (mat_set_sizes _ _ _ _ _ H0) as [? ?];
        pose proof (mat_set_sizes _ _ _ _ _ H1) as [? ?];
        apply vec_set_Ok in H2 as [Hi ->];
        split; [exact Hwf1|]; split; [congruence|]; split; [congruence|];
        split; [by rewrite length_insert|];
        intros k Hk;
        destruct (decide (k = i)) as [->|Hne];
        [ rewrite (mat_get_set_other _ _ _ _ i 0 _ H1) by congruence;
          rewrite (mat_get_set_same _ _ _ _ _ Hwf H0);
          rewrite (mat_get_set_same _ _ _ _ _ Hwf0 H1);
          unfold vec_get at 1; rewrite list_lookup_insert_eq by exact Hi
        | rewrite !(mat_get_set_other _ _ _ _ k _ _ H1) by congruence;
          rewrite !(mat_get_set_other _ _ _ _ k _ _ H0) by congruence;
          unfold vec_get at 1; rewrite list_lookup_insert_ne by congruence;
          apply Hget; lia ]
    end.
    repeat split; congruence.
Qed.

End Packing.

(** ** The discrete gradient (C4, C3) *)

(** C4: the gradient at pixel [i = r + c*L] should be the forward difference
    of the column-major image at [(r, c)].  [Gradient2D] locates the pixel
    row by row in the matrix that [VectorToMatrix] filled column by column:
    on the 2x2 image [1 4 / 2 8], pixel 1 (row 1, column 0) gets
    [(0, 4 - 8)], the differences of pixel 2, instead of [(2 - 8, 0)]. *)
Theorem Gradient2D_reads_transposed_pixel :
  Gradient2D (flv [1; 2; 4; 8]%Z) 1 = Ok (flv [0; -4]%Z) /\
  forward_difference 2 (flv [1; 2; 4; 8]%Z) 1 = flv [-6; 0]%Z /\
  forward_difference 2 (flv [1; 2; 4; 8]%Z) 2 = flv [0; -4]%Z.
Proof. vm_compute. auto. Qed.

(** C3: [D] ([Gradient2DMatrix]) and the transpose action of the solver
    should be adjoint.  For [u = (0,1,0,0)] and the pair field that is
    [(0,1)] at pixel 1 and zero elsewhere, [<Du, g>_F = 0] and
    [<u, Dt g> = 1]: they differ by more than [1e-10 |u| |g|_F]. *)
Theorem gradient_transpose_not_adjoint :
  let U := flv [0; 1; 0; 0]%Z in
  let G := flm 4 2 [0; 0; 0; 1; 0; 0; 0; 0]%Z in
  let tolerance := PrimFloat.div (fl 1) (fl 10000000000) in
  exists DU DtG,
    Gradient2DMatrix U = Ok DU /\ transpose_action U G = Ok DtG /\
    frobenius DU G = fl 0 /\ inner_prod U DtG = fl 1 /\
    less (PrimFloat.mul (PrimFloat.mul tolerance (norm_2 U)) (norm_2 (data G)))
         (PrimFloat.sub (inner_prod U DtG) (frobenius DU G)) = true.
Proof.
  intros U G tolerance. eexists _, _.
  split; [vm_compute; reflexivity|].
  split; [vm_compute; reflexivity|].
  split; [vm_compute; reflexivity|].
  split; vm_compute; reflexivity.
Qed.

(** ** The kernels of the sub-problems (C1, C2, C5) *)

(** C1: the direction should be the gradient [g(u)] of the quadratic model.
    [Onestep_Direction] forms [-DiU - Wi] where [g] has [DiU - Wi]: for
    [u = (1,0,0,0)], [w = 0], [nu = 0], no measurements and [beta = 1] it
    returns [(-2,1,1,0)], the opposite of [g(u) = (2,-1,-1,0)]. *)
Theorem Onestep_Direction_opposes_gradient :
  let U := flv [1; 0; 0; 0]%Z in
  Onestep_Direction (no_rows 4) U [] zeros42 zeros42 [] (fl 1) (fl 1)
    = Ok (flv [-2; 1; 1; 0]%Z) /\
  quadratic_gradient (no_rows 4) U [] zeros42 zeros42 [] (fl 1) (fl 1)
    = Ok (flv [2; -1; -1; 0]%Z).
Proof. vm_compute. auto. Qed.

(** The same input, seen from the objective: with [w = 0], [nu = 0] and no
    measurements the Lagrangian is [beta/2 |Du|^2], about 1 at [u]; a
    quarter step against [g(u)] lowers it to 0.125, the same step against
    the direction of [Onestep_Direction] raises it to 3.125. *)
Example Onestep_Direction_ascends :
  let U := flv [1; 0; 0; 0]%Z in
  let quarter := PrimFloat.div (fl 1) (fl 4) in
  Lagrangian (no_rows 4) U [] zeros42 zeros42 [] (fl 1) (fl 1)
    = Ok 0x1.0000000000001p+0%float /\
  Lagrangian (no_rows 4) (vsub U (vscale quarter (flv [2; -1; -1; 0]%Z))) []
    zeros42 zeros42 [] (fl 1) (fl 1) = Ok 0x1p-3%float /\
  Lagrangian (no_rows 4) (vsub U (vscale quarter (flv [-2; 1; 1; 0]%Z))) []
    zeros42 zeros42 [] (fl 1) (fl 1) = Ok 0x1.9p+1%float.
Proof. vm_compute. auto. Qed.

(** C2: the shrinkage should return 0 when [DiU - NUi/beta] has norm 0 and
    should set row [i] of [w].  [Shrike] divides by the norm without a test
    and returns NaN there; the loop around it stores into [W(j,i)] and runs
    out of the two columns at pixel 2 (out of the single row for a 1x1
    image). *)
Theorem Shrike_divides_by_zero_norm :
  Shrike (flv [0; 0]%Z) (flv [0; 0]%Z) (fl 2) = [nan; nan] /\
  w_subproblem 4 zeros4 zeros42 (fl 2) zeros42 = Fault bad_index /\
  w_subproblem 1 (flv [0]%Z) zeros12 (fl 2) zeros12 = Fault bad_index.
Proof. vm_compute. auto. Qed.

(** In exact arithmetic and away from norm 0, [Shrike] is the shrinkage
    formula: [max(|g| - 1/beta, 0) * g / |g|] with [g = DiUk - NUi/beta]. *)
Lemma Shrike_positive_norm (a b c d beta : R) :
  let g1 := (a - c / beta)%R in
  let g2 := (b - d / beta)%R in
  let norm := sqrt (0 + g1 * g1 + g2 * g2)%R in
  (0 < norm)%R ->
  Shrike [a; b] [c; d] beta =
    [ (Rmax (norm - 1 / beta) 0 * (g1 / norm))%R;
      (Rmax (norm - 1 / beta) 0 * (g2 / norm))%R ].
Proof.
  intros g1 g2 norm Hnorm.
  unfold Shrike, vscale, vdivide, vsub, norm_2, zero. simpl.
  fold g1 g2 norm.
  unfold Rless. destruct (Rlt_dec (norm - 1 / beta) 0) as [Hlt|Hge].
  - rewrite Rmax_right by lra. reflexivity.
  - rewrite Rmax_left by lra. reflexivity.
Qed.

(** C5: the evaluator should read the two entries of row [i] of [nu] and [w].
    [U_Subfunction] copies [j = 0 .. n-1]: on a 2x2 image the read of
    column 2 fails, where [Lagrangian] (copying [j = 0, 1]) succeeds; on a
    1x1 image only column 0 is read, so [w = (0,1)] gives 0 instead of
    [beta/2 = 1]. *)
Theorem U_Subfunction_copies_n_columns :
  U_Subfunction (no_rows 4) zeros4 [] zeros42 zeros42 [] (fl 2) (fl 3)
    = Fault bad_index /\
  Lagrangian (no_rows 4) zeros4 [] zeros42 zeros42 [] (fl 2) (fl 3) = Ok (fl 0) /\
  U_Subfunction (no_rows 1) (flv [0]%Z) [] (flm 1 2 [0; 1]%Z) zeros12 []
    (fl 2) (fl 3) = Ok (fl 0) /\
  quadratic_model (no_rows 1) (flv [0]%Z) [] (flm 1 2 [0; 1]%Z) zeros12 []
    (fl 2) (fl 3) = Ok (fl 1).
Proof. vm_compute. auto. Qed.

(** ** The non-monotone reference value (C7) *)

(** what one pass of the inner loop does to [(Pk, C)] *)
Lemma AM_iteration_coefficients {T : Type} `{Scalar T} (fuel : nat)
    (A : Matrix T) (B : Vector T) (beta mu : T) (n : nat)
    (s s' : AM_locals T) (innerstop : T) :
  AM_iteration fuel A B beta mu n s = Ok (s', innerstop) ->
  exists Qk1,
    U_Subfunction A (am_Uk s') B (am_W s') (am_NU s) (am_LAMBDA s) beta mu
      = Ok Qk1 /\
    (am_Pk s', am_C s') = update_coefficients (am_Pk s) (am_C s) Qk1.
Proof.
  unfold AM_iteration. intros Hrun.
  inv_binds. simpl.
  eexists; split; [eassumption | reflexivity].
Qed.

(** a run of the inner loop is a sequence of passes *)
Lemma AM_loop_passes {T : Type} `{Scalar T} (fuel count : nat)
    (A : Matrix T) (B : Vector T) (beta mu : T) (n : nat)
    (s s' : AM_locals T) :
  AM_loop fuel count A B beta mu n s = Ok s' ->
  exists Qs, inner_passes fuel A B beta mu n s Qs s' /\ Qs <> [].
Proof.
  revert s.
  induction count as [|count IH]; intros s Hrun; simpl in Hrun;
    [discriminate|].
  inv_bind Hrun. destruct a as [s1 innerstop].
  destruct (AM_iteration_coefficients _ _ _ _ _ _ _ _ _ Ha) as (Qk1 & HQ & _).
  destruct (less hundredth innerstop).
  - destruct (IH _ Hk) as (Qs & Hpasses & _).
    exists (Qk1 :: Qs). split; [|discriminate].
    eapply inner_passes_more; eassumption.
  - injection Hk as <-.
    exists [Qk1]. split; [|discriminate].
    eapply inner_passes_more; [eassumption.. | constructor].
Qed.

(** along the passes, [(Pk, C)] is updated with the listed values *)
Lemma inner_passes_coefficients {T : Type} `{Scalar T} (fuel : nat)
    (A : Matrix T) (B : Vector T) (beta mu : T) (n : nat)
    (s s' : AM_locals T) (Qs : list T) :
  inner_passes fuel A B beta mu n s Qs s' ->
  (am_Pk s', am_C s') =
    fold_left (fun PC Q => update_coefficients (fst PC) (snd PC) Q) Qs
      (am_Pk s, am_C s).
Proof.
  induction 1 as [s | s s1 s' innerstop Qk1 Qs Hiter HQ _ IH];
    [reflexivity|].
  destruct (AM_iteration_coefficients _ _ _ _ _ _ _ _ _ Hiter)
    as (Qk1' & HQ' & Hupd).
  rewrite HQ in HQ'. injection HQ' as <-.
  cbn [fold_left fst snd]. rewrite <- Hupd. exact IH.
Qed.

(** so a call that returns leaves [reference_values] of the Lagrangian at
    entry and of the values of the quadratic model of its passes *)
Lemma AM_run_reference_values {T : Type} `{Scalar T} (fuel : nat)
    (A : Matrix T) (U B : Vector T) (W NU : Matrix T) (LAMBDA : Vector T)
    (beta mu : T) (s : AM_locals T) (AL_MIN : Matrix T) :
  AM_run fuel A U B W NU LAMBDA beta mu = Ok (s, AL_MIN) ->
  exists C0 Qs,
    Lagrangian A U B W NU LAMBDA beta mu = Ok C0 /\
    (am_Pk s, am_C s) = reference_values C0 Qs.
Proof.
  unfold AM_run. intros Hrun. inv_binds.
  match goal with
  | Hentry : AM_entry _ _ _ _ _ _ _ _ = Ok ?s0,
    Hloop : AM_loop _ _ _ _ _ _ _ ?s0 = Ok _ |- _ =>
      unfold AM_entry in Hentry; inv_binds;
      destruct (AM_loop_passes _ _ _ _ _ _ _ _ _ Hloop) as (Qs & Hpasses & _);
      apply inner_passes_coefficients in Hpasses
  end.
  eexists _, Qs. split; [eassumption|]. exact Hpasses.
Qed.

Section ReferenceValue.
Local Open Scope R_scope.

(** one update is a convex combination of the old reference value and the
    new objective value, with weights [Pk/2] and 1 *)
Lemma update_coefficients_between (P C Q lo hi : R) :
  0 <= P -> lo <= C <= hi -> lo <= Q <= hi ->
  1 <= fst (update_coefficients P C Q) /\
  lo <= snd (update_coefficients P C Q) <= hi.
Proof.
  intros HP HC HQ.
  unfold update_coefficients, half; simpl.
  assert (Hd : 0 < 1 / 2 * P + 1) by lra.
  split; [lra|].
  split.
  - apply Rmult_le_reg_r with (1 / 2 * P + 1); [exact Hd|].
    unfold Rdiv at 2. rewrite Rmult_assoc, Rinv_l, Rmult_1_r by lra. nra.
  - apply Rmult_le_reg_r with (1 / 2 * P + 1); [exact Hd|].
    unfold Rdiv at 1. rewrite Rmult_assoc, Rinv_l, Rmult_1_r by lra. nra.
Qed.

Lemma fold_update_between (Qs : list R) (P C lo hi : R) :
  0 <= P -> lo <= C <= hi -> Forall (fun Q => lo <= Q <= hi) Qs ->
  lo <= snd (fold_left
               (fun PC Q => update_coefficients (fst PC) (snd PC) Q) Qs (P, C))
     <= hi.
Proof.
  revert P C.
  induction Qs as [|Q Qs IH]; intros P C HP HC HQs; simpl; [exact HC|].
  inversion HQs as [|? ? HQ HQs']; subst.
  destruct (update_coefficients_between P C Q lo hi HP HC HQ) as [HP' HC'].
  destruct (update_coefficients P C Q) as [P' C'] eqn:E; simpl in *.
  apply IH; [lra | exact HC' | exact HQs'].
Qed.

Lemma Rmin_list_lower (C0 : R) (Qs : list R) :
  fold_right Rmin C0 Qs <= C0 /\
  Forall (fun Q => fold_right Rmin C0 Qs <= Q) Qs.
Proof.
  induction Qs as [|Q Qs [IH1 IH2]]; simpl.
  - split; [lra | constructor].
  - split.
    + eapply Rle_trans; [apply Rmin_r | exact IH1].
    + constructor; [apply Rmin_l|].
      eapply Forall_impl; [exact IH2|]. simpl. intros q Hq.
      eapply Rle_trans; [apply Rmin_r | exact Hq].
Qed.

Lemma Rmax_list_upper (C0 : R) (Qs : list R) :
  C0 <= fold_right Rmax C0 Qs /\
  Forall (fun Q => Q <= fold_right Rmax C0 Qs) Qs.
Proof.
  induction Qs as [|Q Qs [IH1 IH2]]; simpl.
  - split; [lra | constructor].
  - split.
    + eapply Rle_trans; [exact IH1 | apply Rmax_r].
    + constructor; [apply Rmax_l|].
      eapply Forall_impl; [exact IH2|]. simpl. intros q Hq.
      eapply Rle_trans; [exact Hq | apply Rmax_r].
Qed.

(** C7, as the code has it: in exact arithmetic, after the objective
    values [Q(u_1), ..., Q(u_k)] have been fed to the update, starting from
    [P_0 = 1] and [C_0], the reference value [C_k] lies between the least
    and the greatest of [C_0, Q(u_1), ..., Q(u_k)].  ([reference_values] is
    what a call of the inner solver leaves in [(Pk, C)], with the
    Lagrangian at entry for [C_0]: [AM_run_reference_values].) *)
Theorem reference_value_between (C0 : R) (Qs : list R) :
  fold_right Rmin C0 Qs <= snd (reference_values C0 Qs)
    <= fold_right Rmax C0 Qs.
Proof.
  unfold reference_values.
  destruct (Rmin_list_lower C0 Qs) as [Hlo HloQ].
  destruct (Rmax_list_upper C0 Qs) as [Hhi HhiQ].
  apply fold_update_between.
  - simpl. lra.
  - split; assumption.
  - rewrite Forall_forall in *. intros Q HQ. split; auto.
Qed.

End ReferenceValue.

(** C7, as stated, fails at [k = 0]: [C_0] is the augmented Lagrangian, which
    adds the norms of [w] to [Q(u_0)].  For the 1x1 image with [w = (1,0)],
    [beta = 2]: [P_0 = 1], [C_0 = 2] and [Q(u_0) = 1]. *)
Lemma reference_value_starts_above_Q :
  let U := flv [0]%Z in
  let W := flm 1 2 [1; 0]%Z in
  exists s Q0,
    AM_entry (no_rows 1) U [] W zeros12 [] (fl 2) (fl 3) = Ok s /\
    U_Subfunction (no_rows 1) (am_Uk s) [] W zeros12 [] (fl 2) (fl 3) = Ok Q0 /\
    am_Pk s = fl 1 /\ am_C s = fl 2 /\ Q0 = fl 1 /\
    less Q0 (am_C s) = true.
Proof.
  intros U W. eexists _, _.
  split; [vm_compute; reflexivity|].
  split; [vm_compute; reflexivity|].
  vm_compute. auto.
Qed.

(** ** The quadratic evaluator from three pixels on *)

Section EvaluatorFails.
Context {T : Type} `{Scalar T}.

(** the copy loop of [U_Subfunction] stores into [NUi(j)] for every
    [j < count]; [NUi] has two entries *)
Lemma load_NU_W_Ok (count i : nat) (W NU : Matrix T) (Wi NUi : Vector T)
    (r : Vector T * Vector T) :
  load_NU_W count i W NU Wi NUi = Ok r ->
  forall j, (j < count)%nat -> (j < length NUi)%nat.
Proof.
  unfold load_NU_W, for_range. intros Hrun j Hj.
  apply (for_from_each
           (fun st : Vector T * Vector T => length st.2 = length NUi)
           (fun j => (j < length NUi)%nat)
           _ _ _ (Wi, NUi) _ eq_refl) with (i := j) in Hrun;
    [exact Hrun | | lia].
  clear. intros j [Wi' NUi'] [Wi'' NUi''] Hlen Hbody. simpl in *. inv_binds.
  match goal with
  | Hset : vec_set NUi' j _ = Ok _ |- _ => apply vec_set_Ok in Hset as [? ->]
  end.
  rewrite length_insert. split; [assumption | lia].
Qed.

(** [U_Subfunction] returns a value only on images of at most two pixels:
    from three pixels on, the copy loop runs out of [NUi]. *)
Lemma U_Subfunction_Ok (A : Matrix T) (U B : Vector T) (W NU : Matrix T)
    (LAMBDA : Vector T) (beta mu : T) (Q : T) :
  U_Subfunction A U B W NU LAMBDA beta mu = Ok Q -> (length U <= 2)%nat.
Proof.
  unfold U_Subfunction, for_range. intros Hrun. inv_bind Hrun. clear Hk.
  destruct (length U) as [|n] eqn:Hn; [lia|].
  cbn [for_from] in Ha. inv_bind Ha. clear Hk. inv_binds.
  match goal with
  | Hload : load_NU_W _ _ _ _ _ _ = Ok _ |- _ =>
      pose proof (load_NU_W_Ok _ _ _ _ _ _ _ Hload n) as Hlast
  end.
  unfold BoostZeroVector in Hlast. rewrite length_replicate in Hlast. lia.
Qed.

End EvaluatorFails.

(** ** The inner solver on non-empty images *)

Section InnerSolverFails.
Context {T : Type} `{Scalar T}.

(** the w-update stores into [W(0,i)] and [W(1,i)] for every pixel [i]:
    it can only run to its end if [W] has a second row and a column for
    every pixel *)
Lemma w_subproblem_Ok (n : nat) (Uk : Vector T) (NU : Matrix T) (beta : T)
    (W W' : Matrix T) :
  w_subproblem n Uk NU beta W = Ok W' ->
  forall i, (i < n)%nat -> (1 < size1 W)%nat /\ (i < size2 W)%nat.
Proof.
  unfold w_subproblem, for_range. intros Hrun i Hi.
  apply (for_from_each
           (fun M => size1 M = size1 W /\ size2 M = size2 W)
           (fun i => (1 < size1 W)%nat /\ (i < size2 W)%nat)
           _ _ _ _ _ (conj eq_refl eq_refl)) with (i := i) in Hrun;
    [exact Hrun | | lia].
  clear. intros i M M' [Hs1 Hs2] Hbody. simpl in Hbody. inv_binds.
  match goal with
  | H0 : mat_set M 0 i _ = Ok ?M0, H1 : mat_set ?M0 1 i _ = Ok M' |- _ =>
      pose proof (mat_set_sizes _ _ _ _ _ H0) as [? ?];
      pose proof (mat_set_sizes _ _ _ _ _ H1) as [? ?];
      apply mat_set_Ok in H1 as (? & ? & _)
  end.
  repeat split; congruence || lia.
Qed.

(** On an image of [n] pixels with the [n x 2] splitting variable, the
    inner solver returns a result only for [n = 0] (and for [n = 2], which
    is not the size of a square image). *)
Lemma Alternating_Minimisation_Ok (fuel : nat) (A : Matrix T) (U B : Vector T)
    (W NU : Matrix T) (LAMBDA : Vector T) (beta mu : T) (AL_MIN : Matrix T) :
  size1 W = length U -> size2 W = 2%nat ->
  Alternating_Minimisation fuel A U B W NU LAMBDA beta mu = Ok AL_MIN ->
  length U = 0%nat \/ length U = 2%nat.
Proof.
  intros Hs1 Hs2 Hrun.
  unfold Alternating_Minimisation, AM_run in Hrun. inv_binds.
  match goal with
  | Hentry : AM_entry _ _ _ _ _ _ _ _ = Ok ?s0,
    Hloop : AM_loop _ _ _ _ _ _ _ ?s0 = Ok _ |- _ =>
      unfold AM_entry in Hentry; inv_binds;
      destruct fuel as [|fuel]; [discriminate|];
      cbn [AM_loop] in Hloop; inv_bind Hloop
  end.
  match goal with
  | Hiter : AM_iteration _ _ _ _ _ _ _ = Ok _ |- _ =>
      unfold AM_iteration in Hiter; inv_bind Hiter
  end.
  match goal with
  | Hw : w_subproblem _ _ _ _ _ = Ok _ |- _ =>
      pose proof (w_subproblem_Ok _ _ _ _ _ _ Hw) as Hshape
  end.
  simpl in Hshape.
  destruct (length U) as [|[|[|n]]] eqn:Hn; [tauto | | tauto |].
  - destruct (Hshape 0%nat); lia.
  - destruct (Hshape (Datatypes.S (Datatypes.S n))); lia.
Qed.

End InnerSolverFails.

(** ** One pass of the outer loop *)

(** inside the inner solver: the w-update comes first, and the direction and
    the step of the u-update use the new [w] *)
Lemma AM_iteration_order {T : Type} `{Scalar T} (fuel : nat) (A : Matrix T)
    (B : Vector T) (beta mu : T) (n : nat) (s s' : AM_locals T)
    (innerstop : T) :
  AM_iteration fuel A B beta mu n s = Ok (s', innerstop) ->
  exists Dk alpha,
    w_subproblem n (am_Uk s) (am_NU s) beta (am_W s) = Ok (am_W s') /\
    Onestep_Direction A (am_Uk s) B (am_W s') (am_NU s) (am_LAMBDA s) beta mu
      = Ok Dk /\
    am_Uk s' = vsub (am_Uk s) (vscale alpha Dk) /\
    am_Uk_1 s' = am_Uk s /\
    innerstop = norm_2 (vsub (am_Uk s') (am_Uk s)).
Proof.
  unfold AM_iteration. intros Hrun. inv_binds. simpl.
  eexists _, _. repeat split; eassumption || reflexivity.
Qed.

Section OuterPass.
Context {T : Type} `{Scalar T}.
Local Open Scope scalar_scope.

Variable minimise :
  Matrix T -> Vector T -> Vector T -> Matrix T -> Matrix T -> Vector T ->
  T -> T -> result (Matrix T).

(** the call hands the driver's current values to the inner solver and
    takes [W] and [U] from its result; nothing else is written *)
Lemma call_minimiser_Ok (A : Matrix T) (B : Vector T) (n : nat)
    (d d' : driver T) :
  call_minimiser minimise A B n d = Ok d' ->
  exists MIN,
    minimise A (dr_U d) B (dr_W d) (dr_NU d) (dr_LAMBDA d)
      (dr_beta d) (dr_mu d) = Ok MIN /\
    unpack n MIN (dr_W d) (dr_U d) = Ok (dr_W d', dr_U d') /\
    dr_MIN d' = MIN /\ dr_Uk d' = dr_U d /\ dr_Wk d' = dr_W d /\
    dr_NU d' = dr_NU d /\ dr_LAMBDA d' = dr_LAMBDA d /\
    dr_beta d' = dr_beta d /\ dr_mu d' = dr_mu d.
Proof.
  unfold call_minimiser. intros Hrun. inv_binds. simpl.
  eexists. split; [eassumption|]. rewrite Ha0. repeat split.
Qed.

Lemma update_multipliers_Ok (A : Matrix T) (B : Vector T) (d d' : driver T) :
  update_multipliers A B d = Ok d' ->
  exists DiU,
    Gradient2DMatrix (dr_U d) = Ok DiU /\
    dr_NU d' = msub (dr_NU d) (mscale (dr_beta d) (msub DiU (dr_W d))) /\
    dr_LAMBDA d' =
      vsub (dr_LAMBDA d) (vscale (dr_mu d) (vsub (prod A (dr_U d)) B)) /\
    dr_W d' = dr_W d /\ dr_U d' = dr_U d /\ dr_Uk d' = dr_Uk d /\
    dr_beta d' = dr_beta d /\ dr_mu d' = dr_mu d.
Proof.
  unfold update_multipliers. intros Hrun. inv_binds. simpl.
  eexists. split; [eassumption|]. repeat split.
Qed.

(** the driver's part of a pass, for any inner solver: the solver is called
    with the multipliers and penalties of the previous pass; columns 0-1
    and 2 of the matrix it returns are copied into [W] and [U]; then come
    the two multiplier updates, with the penalties of the call, and then
    the growth of the penalties *)
Lemma outer_iteration_order (A : Matrix T) (B : Vector T) (n : nat)
    (d d' : driver T) (outerstop : T) :
  outer_iteration minimise A B n d = Ok (d', outerstop) ->
  exists MIN DiU,
    minimise A (dr_U d) B (dr_W d) (dr_NU d) (dr_LAMBDA d)
      (dr_beta d) (dr_mu d) = Ok MIN /\
    unpack n MIN (dr_W d) (dr_U d) = Ok (dr_W d', dr_U d') /\
    (well_formed (dr_W d) -> forall i, (i < n)%nat ->
       mat_get (dr_W d') i 0 = mat_get MIN i 0 /\
       mat_get (dr_W d') i 1 = mat_get MIN i 1 /\
       vec_get (dr_U d') i = mat_get MIN i 2) /\
    Gradient2DMatrix (dr_U d') = Ok DiU /\
    dr_NU d' = msub (dr_NU d) (mscale (dr_beta d) (msub DiU (dr_W d'))) /\
    dr_LAMBDA d' =
      vsub (dr_LAMBDA d) (vscale (dr_mu d) (vsub (prod A (dr_U d')) B)) /\
    dr_beta d' = coef * dr_beta d /\
    dr_mu d' = coef * (coef * dr_beta d) /\
    outerstop = norm_2 (vsub (dr_U d') (dr_U d)).
Proof.
  unfold outer_iteration. intros Hrun. inv_binds.
  destruct (call_minimiser_Ok _ _ _ _ _ Ha)
    as (MIN & Hmin & Hunpack & _ & HUk & _ & HNU & HLAMBDA & Hbeta & Hmu).
  destruct (update_multipliers_Ok _ _ _ _ Ha0)
    as (DiU & HDiU & HNU' & HLAMBDA' & HW & HU & HUk' & Hbeta' & Hmu').
  exists MIN, DiU. simpl.
  rewrite HW, HU, HNU', HLAMBDA', Hbeta', HUk', HUk, HNU, HLAMBDA, Hbeta, Hmu.
  split; [assumption|]. split; [assumption|]. split.
  - intros Hwf i Hi.
    destruct (unpack_Ok _ _ _ _ _ _ Hwf Hunpack) as (_ & _ & _ & Hget).
    by apply Hget.
  - repeat split; assumption.
Qed.

End OuterPass.

(** ** The inner solver does not write the multipliers (C10) *)

Section InnerFrame.
Context {T : Type} `{Scalar T}.

Lemma AM_iteration_frame (fuel : nat) (A : Matrix T) (B : Vector T)
    (beta mu : T) (n : nat) (s s' : AM_locals T) (innerstop : T) :
  AM_iteration fuel A B beta mu n s = Ok (s', innerstop) ->
  am_NU s' = am_NU s /\ am_LAMBDA s' = am_LAMBDA s.
Proof.
  unfold AM_iteration. intros Hrun. inv_binds. simpl. split; reflexivity.
Qed.

Lemma AM_loop_frame (fuel count : nat) (A : Matrix T) (B : Vector T)
    (beta mu : T) (n : nat) (s s' : AM_locals T) :
  AM_loop fuel count A B beta mu n s = Ok s' ->
  am_NU s' = am_NU s /\ am_LAMBDA s' = am_LAMBDA s.
Proof.
  revert s.
  induction count as [|count IH]; intros s Hrun; simpl in Hrun;
    [discriminate|].
  inv_bind Hrun. destruct a as [s1 innerstop].
  destruct (AM_iteration_frame _ _ _ _ _ _ _ _ _ Ha) as [HNU HLAMBDA].
  destruct (less hundredth innerstop).
  - destruct (IH _ Hk) as [HNU' HLAMBDA']. split; congruence.
  - injection Hk as <-. split; assumption.
Qed.

(** C10: across the call made by the driver, the driver's [nu] and
    [lambda] stay as they were; inside the call the solver's own copies
    of them are never written either, and what comes back is the [n x 3]
    matrix that holds the final [w] (columns 0 and 1) and [u] (column 2).
    The penalty growth does not write [nu] and [lambda], which leaves the
    multiplier update as their only writer. *)
Theorem minimiser_leaves_multipliers (fuel : nat) (A : Matrix T)
    (B : Vector T) (n : nat) (d d' : driver T) :
  call_minimiser (Alternating_Minimisation fuel) A B n d = Ok d' ->
  dr_NU d' = dr_NU d /\ dr_LAMBDA d' = dr_LAMBDA d /\
  (exists s,
     AM_run fuel A (dr_U d) B (dr_W d) (dr_NU d) (dr_LAMBDA d)
       (dr_beta d) (dr_mu d) = Ok (s, dr_MIN d') /\
     am_NU s = dr_NU d /\ am_LAMBDA s = dr_LAMBDA d /\
     size1 (dr_MIN d') = length (dr_U d) /\ size2 (dr_MIN d') = 3%nat /\
     forall pix, (pix < length (dr_U d))%nat ->
       mat_get (dr_MIN d') pix 0 = mat_get (am_W s) pix 0 /\
       mat_get (dr_MIN d') pix 1 = mat_get (am_W s) pix 1 /\
       mat_get (dr_MIN d') pix 2 = vec_get (am_Uk s) pix) /\
  dr_NU (grow_penalties d') = dr_NU d' /\
  dr_LAMBDA (grow_penalties d') = dr_LAMBDA d'.
Proof.
  intros Hcall.
  destruct (call_minimiser_Ok _ _ _ _ _ _ Hcall)
    as (MIN & Hmin & _ & HMIN & _ & _ & HNU & HLAMBDA & _).
  split; [exact HNU|]. split; [exact HLAMBDA|].
  split; [|split; reflexivity].
  unfold Alternating_Minimisation in Hmin. inv_bind Hmin.
  destruct a as [s AL_MIN]. injection Hk as Hk. subst AL_MIN.
  exists s. rewrite HMIN.
  split; [exact Ha|].
  unfold AM_run in Ha. inv_binds.
  match goal with
  | Hloop : AM_loop _ _ _ _ _ _ _ _ = Ok _,
    Hentry : AM_entry _ _ _ _ _ _ _ _ = Ok _,
    Hpack : AM_pack _ _ _ = Ok _ |- _ =>
      destruct (AM_loop_frame _ _ _ _ _ _ _ _ _ Hloop) as [HNU' HLAMBDA'];
      destruct (AM_pack_Ok _ _ _ _ Hpack) as (Hs1 & Hs2 & Hget);
      unfold AM_entry in Hentry; inv_binds; simpl in *
  end.
  repeat split; try assumption; by apply Hget.
Qed.

End InnerFrame.

(** ** The test of the outer loop *)

Section OuterLoop.
Context {T : Type} `{Scalar T}.

Variable minimise :
  Matrix T -> Vector T -> Vector T -> Matrix T -> Matrix T -> Vector T ->
  T -> T -> result (Matrix T).

(** the loop has no pass counter and returns no status: when it returns
    after [count] passes, [count] is at least 1, the test [outerstop > tol]
    held after each of the passes before the last and failed after the
    last *)
Lemma outer_loop_stops_by_tolerance (fuel : nat) (A : Matrix T)
    (B : Vector T) (n : nat) (d d' : driver T) (count : nat) :
  outer_loop minimise fuel A B n d = Ok (d', count) ->
  exists earlier final,
    passes minimise A B n d (earlier ++ [final]) d' /\
    count = Datatypes.S (length earlier) /\ (count <= fuel)%nat /\
    Forall (fun outerstop => less hundredth outerstop = true) earlier /\
    less hundredth final = false.
Proof.
  revert d count.
  induction fuel as [|fuel IH]; intros d count Hrun; simpl in Hrun;
    [discriminate|].
  inv_bind Hrun. destruct a as [d1 outerstop].
  destruct (less hundredth outerstop) eqn:Htest.
  - inv_bind Hk. destruct a as [d2 count'].
    injection Hk0 as <- <-.
    destruct (IH _ _ Ha0) as (earlier & final & Hpasses & -> & Hfuel & Hall & Hlast).
    exists (outerstop :: earlier), final.
    split; [exact (passes_more _ _ _ _ _ _ _ _ _ Ha Hpasses)|].
    split; [reflexivity|]. split; [lia|].
    split; [by constructor | exact Hlast].
  - injection Hk as <- <-.
    exists [], outerstop.
    split; [exact (passes_one _ _ _ _ _ _ _ Ha)|].
    split; [reflexivity|]. split; [lia|].
    split; [constructor | exact Htest].
Qed.

(** and the other way round: passes whose tests come out that way are a run
    of the loop, however many they are *)
Lemma outer_loop_runs_while_above (A : Matrix T) (B : Vector T) (n : nat)
    (d d' : driver T) (stops : list T) :
  passes minimise A B n d stops d' ->
  forall earlier final fuel,
    stops = earlier ++ [final] ->
    Forall (fun outerstop => less hundredth outerstop = true) earlier ->
    less hundredth final = false ->
    (length stops <= fuel)%nat ->
    outer_loop minimise fuel A B n d = Ok (d', length stops).
Proof.
  induction 1 as [d d' outerstop Hpass | d d1 d' outerstop stops Hpass Hrest IH];
    intros earlier final fuel Hstops Hall Hlast Hfuel;
    (destruct fuel as [|fuel]; [simpl in Hfuel; lia|]);
    cbn [outer_loop]; rewrite Hpass; cbn [bind].
  - destruct earlier as [|e [|e' earlier]]; try discriminate.
    injection Hstops as ->. rewrite Hlast. reflexivity.
  - destruct earlier as [|e earlier].
    + destruct stops; [inversion Hrest | discriminate].
    + injection Hstops as <- Hstops.
      inversion Hall as [|? ? He Hall']; subst.
      rewrite He.
      rewrite (IH earlier final fuel eq_refl Hall' Hlast)
        by (cbn [length] in Hfuel; lia).
      reflexivity.
Qed.

End OuterLoop.

(** ** Whole runs *)

(** the empty sinogram gives the empty image after one pass; a
    1x1 and a 2x2 sinogram end in the range check of the w-update *)
Example tval3_reconstruction_runs :
  tval3_run counting_draws (Alternating_Minimisation 3) 3 0 empty_sinogram
    = Ok (empty_sinogram, 1%nat) /\
  tval3_reconstruction counting_draws 3 0 (flm 1 1 [1]%Z) = Fault bad_index /\
  tval3_reconstruction counting_draws 3 0 (flm 2 2 [1; 2; 3; 4]%Z)
    = Fault bad_index.
Proof. vm_compute. auto. Qed.

(** the seed is taken from the clock: a later millisecond gives another
    matrix *)
Example CreateRandomMatrix_follows_clock :
  CreateRandomMatrix counting_draws 1000 1 1 = Ok (flm 1 1 [1]%Z) /\
  CreateRandomMatrix counting_draws 2000 1 1 = Ok (flm 1 1 [2]%Z).
Proof. vm_compute. auto. Qed.

(** * Further properties of the code *)

(** ** Loops that fail *)

(** the only fault of a loop whose passes can only fail the range check *)
Lemma for_from_fault {S : Type} (body : nat -> S -> result S)
    (count start : nat) (s : S) (f : fault) :
  (forall i t f', body i t = Fault f' -> f' = bad_index) ->
  for_from start count body s = Fault f -> f = bad_index.
Proof.
  intros Hbody. revert start s.
  induction count as [|count IH]; intros start s Hrun; [discriminate|].
  simpl in Hrun. destruct (body start s) as [t|f'] eqn:Hpass; simpl in Hrun.
  - exact (IH _ _ Hrun).
  - injection Hrun as <-. exact (Hbody _ _ _ Hpass).
Qed.

Lemma bind_Fault {A B : Type} (r : result A) (k : A -> result B) (f : fault) :
  bind r k = Fault f ->
  r = Fault f \/ exists a, r = Ok a /\ k a = Fault f.
Proof.
  destruct r as [a|f']; simpl; intros Hk; [right; eauto | left; congruence].
Qed.

Section Raster.
Context {T : Type} `{Scalar T}.

Lemma vec_get_fault (v : Vector T) (i : nat) (f : fault) :
  vec_get v i = Fault f -> f = bad_index.
Proof. unfold vec_get. destruct (v !! i); congruence. Qed.

Lemma vec_set_fault (v : Vector T) (i : nat) (x : T) (f : fault) :
  vec_set v i x = Fault f -> f = bad_index.
Proof. unfold vec_set. destruct (decide (i < length v)%nat); congruence. Qed.

Lemma mat_get_fault (M : Matrix T) (i j : nat) (f : fault) :
  mat_get M i j = Fault f -> f = bad_index.
Proof.
  unfold mat_get. destruct (in_range M i j); [|congruence].
  destruct (data M !! _); congruence.
Qed.

Lemma mat_set_fault (M : Matrix T) (i j : nat) (x : T) (f : fault) :
  mat_set M i j x = Fault f -> f = bad_index.
Proof. unfold mat_set. destruct (in_range M i j); congruence. Qed.

(** two matrices of the same shape with the same entries are the same *)
Lemma matrix_ext (M P : Matrix T) :
  well_formed M -> well_formed P ->
  size1 M = size1 P -> size2 M = size2 P ->
  (forall i j, (i < size1 M)%nat -> (j < size2 M)%nat ->
     mat_get M i j = mat_get P i j) ->
  M = P.
Proof.
  destruct M as [r c dM], P as [r' c' dP]. unfold well_formed. simpl.
  intros HM HP <- <- Hget. f_equal.
  apply list_eq. intros k.
  destruct (decide (k < r * c)%nat) as [Hk|Hk].
  - assert (Hc : (0 < c)%nat) by (destruct c; lia).
    assert (Hi : (k / c < r)%nat) by (apply Nat.Div0.div_lt_upper_bound; lia).
    assert (Hj : (k mod c < c)%nat) by (apply Nat.mod_upper_bound; lia).
    specialize (Hget _ _ Hi Hj). unfold mat_get, in_range in Hget.
    simpl in Hget.
    rewrite !bool_decide_eq_true_2 in Hget by assumption. simpl in Hget.
    replace (k / c * c + k mod c)%nat with k in Hget
      by (rewrite (Nat.div_mod_eq k c) at 1; lia).
    destruct (lookup_lt_is_Some_2 dM k) as [x Hx]; [lia|].
    destruct (lookup_lt_is_Some_2 dP k) as [y Hy]; [lia|].
    rewrite Hx, Hy in *. congruence.
  - rewrite !(proj2 (lookup_ge_None _ _)) by lia. reflexivity.
Qed.

(** the rasterised matrix, entry by entry *)
Lemma MatrixToVector_Ok (M : Matrix T) :
  well_formed M ->
  exists v,
    MatrixToVector M = Ok v /\
    length v = (size1 M * size2 M)%nat /\
    forall i j, (i < size1 M)%nat -> (j < size2 M)%nat ->
      vec_get v (j * size1 M + i)%nat = mat_get M i j.
Proof.
  intros Hwf. unfold MatrixToVector, for_range.
  destruct (for_from_total (fun j st => copied M j 0 st)
    (fun j st =>
       for_from 0 (size1 M) (fun i '(AVector, VectorIndex) =>
         let* x := mat_get M i j in
         let* AVector' := vec_set AVector VectorIndex x in
         Ok (AVector', Datatypes.S VectorIndex)) st)
    (size2 M) 0 (BoostZeroVector (size1 M * size2 M), 0%nat))
    as ([v k] & Hrun & Hcopied).
  - repeat split; simpl.
    + unfold BoostZeroVector. by rewrite length_replicate.
    + intros i' j' _ _ [Hj|[_ Hi]]; lia.
  - intros j st Hj Hst. simpl in Hj.
    destruct (for_from_total (fun i st => copied M j i st)
      (fun i '(AVector, VectorIndex) =>
         let* x := mat_get M i j in
         let* AVector' := vec_set AVector VectorIndex x in
         Ok (AVector', Datatypes.S VectorIndex))
      (size1 M) 0 st) as (st' & Hrun & Hcopied); [exact Hst | |].
    + clear st Hst. intros i [v k] Hi (Hk & Hlen & Hget).
      simpl in Hi, Hk, Hlen, Hget. simpl.
      assert (Hin : (i * size2 M + j < length (data M))%nat).
      { rewrite Hwf. apply storage_index_lt; lia. }
      apply lookup_lt_is_Some in Hin as [x Hx].
      assert (HMij : mat_get M i j = Ok x).
      { apply mat_get_Ok. repeat split; [lia | lia | exact Hx]. }
      rewrite HMij. simpl.
      assert (Hkin : (k < length v)%nat).
      { subst k. rewrite Hlen, (Nat.mul_comm (size1 M)).
        apply storage_index_lt; lia. }
      unfold vec_set. destruct (decide (k < length v)%nat); [|lia]. simpl.
      eexists. split; [reflexivity|].
      repeat split; simpl.
      * lia.
      * by rewrite length_insert.
      * intros i' j' Hi' Hj' Hcase.
        destruct (decide ((i', j') = (i, j))) as [[= -> ->]|Hne].
        -- unfold vec_get. rewrite <- Hk, list_lookup_insert_eq by exact Hkin.
           symmetry. exact HMij.
        -- unfold vec_get. rewrite list_lookup_insert_ne.
           ++ apply Hget; [assumption..|].
              destruct Hcase as [?|[-> ?]]; [tauto|].
              right. split; [reflexivity|].
              assert (i' <> i) by congruence. lia.
           ++ subst k. intros Heq.
              apply storage_index_inj in Heq as [-> ->]; [congruence|lia..].
    + exists st'. split; [exact Hrun|].
      destruct Hcopied as (Hk & Hlen & Hget). simpl in Hk.
      repeat split; try assumption.
      * rewrite Hk. lia.
      * intros i' j' Hi' Hj' Hcase. apply Hget; [assumption..|]. lia.
  - rewrite Hrun. simpl. exists v. split; [reflexivity|].
    destruct Hcopied as (_ & Hlen & Hget). simpl in *.
    split; [exact Hlen|].
    intros i j Hi Hj. apply Hget; [assumption..|]. lia.
Qed.

(** X1: [MatrixToVector] rasterises column by column: entry [j*rows + i] of
    the vector is [M(i,j)]. *)
Theorem MatrixToVector_column_major (M : Matrix T) :
  well_formed M ->
  exists v,
    MatrixToVector M = Ok v /\
    length v = (size1 M * size2 M)%nat /\
    forall i j, (i < size1 M)%nat -> (j < size2 M)%nat ->
      vec_get v (j * size1 M + i)%nat = mat_get M i j.
Proof. apply MatrixToVector_Ok. Qed.

End Raster.
Section RasterRoundTrip.
Context {T : Type} `{Scalar T}.

(** rasterise, then reshape *)
Lemma reshape_rasterised (M : Matrix T) :
  well_formed M ->
  exists v,
    MatrixToVector M = Ok v /\
    VectorToMatrix v (size1 M) (size2 M) = Ok M.
Proof.
  intros Hwf.
  destruct (MatrixToVector_Ok M Hwf) as (v & Hv & Hlen & Hget).
  exists v. split; [exact Hv|].
  destruct (VectorToMatrix_Ok v (size1 M) (size2 M))
    as (X & HX & Hs1 & Hs2 & HwfX & HgetX); [lia|].
  rewrite HX. f_equal.
  apply matrix_ext; try assumption.
  intros i j Hi Hj. rewrite Hs1 in Hi. rewrite Hs2 in Hj.
  rewrite HgetX, Hget by assumption. reflexivity.
Qed.

(** X2: Rasterising a matrix and reshaping the vector with the shape of the
    matrix gives the matrix back. *)
Theorem VectorToMatrix_MatrixToVector (M : Matrix T) :
  well_formed M ->
  exists v,
    MatrixToVector M = Ok v /\
    VectorToMatrix v (size1 M) (size2 M) = Ok M.
Proof. apply reshape_rasterised. Qed.

(** X3: Reshaping a vector and rasterising the matrix gives back the entries
    that the reshape read: the first [rows * cols] ones. *)
Theorem MatrixToVector_VectorToMatrix (v : Vector T) (rows cols : nat) :
  (rows * cols <= length v)%nat ->
  exists X,
    VectorToMatrix v rows cols = Ok X /\
    MatrixToVector X = Ok (take (rows * cols) v).
Proof.
  intros Hlen.
  destruct (VectorToMatrix_Ok v rows cols Hlen)
    as (X & HX & Hs1 & Hs2 & HwfX & HgetX).
  exists X. split; [exact HX|].
  destruct (MatrixToVector_Ok X HwfX) as (w & Hw & Hlenw & Hgetw).
  rewrite Hw. f_equal. rewrite Hs1, Hs2 in *.
  apply list_eq. intros k.
  destruct (decide (k < rows * cols)%nat) as [Hk|Hk].
  - rewrite lookup_take_lt by exact Hk.
    assert (Hr : (0 < rows)%nat) by (destruct rows; lia).
    assert (Hj : (k / rows < cols)%nat).
    { apply Nat.Div0.div_lt_upper_bound. lia. }
    assert (Hi : (k mod rows < rows)%nat) by (apply Nat.mod_upper_bound; lia).
    specialize (Hgetw _ _ Hi Hj). rewrite HgetX in Hgetw by assumption.
    replace (k / rows * rows + k mod rows)%nat with k in Hgetw
      by (rewrite (Nat.div_mod_eq k rows) at 1; lia).
    unfold vec_get in Hgetw.
    destruct (lookup_lt_is_Some_2 w k) as [x Hx]; [lia|].
    destruct (lookup_lt_is_Some_2 v k) as [y Hy]; [lia|].
    rewrite Hx, Hy in *. congruence.
  - rewrite (proj2 (lookup_ge_None w k)) by lia.
    rewrite lookup_take_ge by lia. reflexivity.
Qed.

(** X4: [VectorToMatrix] ends normally exactly when the vector has an entry
    for every place of the matrix; its only failure is the range check. *)
Theorem VectorToMatrix_needs_entries (v : Vector T) (rows cols : nat) :
  ((exists X, VectorToMatrix v rows cols = Ok X) <->
   (rows * cols <= length v)%nat) /\
  (forall f, VectorToMatrix v rows cols = Fault f -> f = bad_index).
Proof.
  split; [split|].
  - intros [X Hrun]. unfold VectorToMatrix, for_range in Hrun.
    inv_bind Hrun. destruct a as [M k]. clear Hk.
    apply (for_from_invariant
             (fun j st => st.2 = (j * rows)%nat /\ (st.2 <= length v)%nat))
      in Ha; [simpl in Ha; lia | simpl; lia |].
    intros j st st' _ [Hk Hle] Hcol.
    apply (for_from_invariant
             (fun i st => st.2 = (j * rows + i)%nat /\ (st.2 <= length v)%nat))
      in Hcol; [simpl in Hcol; lia | simpl; lia |].
    clear. intros i [M k] [M' k'] _ [Hk Hle] Hbody. simpl in *. inv_binds.
    match goal with
    | Hget : vec_get v _ = Ok _ |- _ =>
        apply vec_get_Ok, lookup_lt_Some in Hget
    end.
    lia.
  - intros Hlen. destruct (VectorToMatrix_Ok v rows cols Hlen) as (X & HX & _).
    eauto.
  - intros f Hrun. unfold VectorToMatrix, for_range in Hrun.
    apply bind_Fault in Hrun as [Hrun | ([M k] & _ & Hrun)]; [|discriminate].
    apply for_from_fault in Hrun; [exact Hrun|].
    intros j st f' Hcol. apply for_from_fault in Hcol; [exact Hcol|].
    clear. intros i [M k] f Hbody. simpl in Hbody.
    apply bind_Fault in Hbody as [Hf | (x & _ & Hbody)];
      [exact (vec_get_fault _ _ _ Hf)|].
    apply bind_Fault in Hbody as [Hf | (M' & _ & Hbody)];
      [exact (mat_set_fault _ _ _ _ _ Hf) | discriminate].
Qed.

End RasterRoundTrip.

(** ** Neighbours in the raster *)

Lemma to_int_small (z : Z) : (0 <= z < 2 ^ 31)%Z -> to_int z = z.
Proof.
  intros Hz. unfold to_int. rewrite Z.mod_small by lia.
  destruct (Z.ltb_spec z (2 ^ 31)); lia.
Qed.

Lemma to_int_minus_one_ulong : to_int (ulong (-1)) = (-1)%Z.
Proof. reflexivity. Qed.

(** X5: On a square image of side [L >= 2], rasterised column by column, the
    right neighbour of the pixel in row [r] and column [c] is the pixel in row
    [r] and column [c + 1], and -1 in the last column. *)
Theorem RightNeighbor_column_major (L r c : nat) :
  (2 <= L)%nat -> (Z.of_nat L * Z.of_nat L <= 2 ^ 31)%Z ->
  (r < L)%nat -> (c < L)%nat ->
  RightNeighbor (Z.of_nat (r + c * L)) (Z.of_nat L) =
    if decide (c = L - 1)%nat then (-1)%Z
    else Z.of_nat (r + (c + 1) * L).
Proof.
  intros HL Hbound Hr Hc. unfold RightNeighbor.
  assert (Hside : (2 * Z.of_nat L <= Z.of_nat L * Z.of_nat L)%Z) by nia.
  assert (Hb : ulong_sub (ulong_sub (ulong (Z.of_nat L * Z.of_nat L))
                            (Z.of_nat L)) 1
               = (Z.of_nat L * Z.of_nat L - Z.of_nat L - 1)%Z).
  { unfold ulong_sub, ulong.
    rewrite (Z.mod_small (Z.of_nat L * Z.of_nat L)) by lia.
    rewrite (Z.mod_small (Z.of_nat L * Z.of_nat L - Z.of_nat L)) by lia.
    apply Z.mod_small. lia. }
  rewrite Hb.
  assert (Hpix : (Z.of_nat (r + c * L)
                  = Z.of_nat r + Z.of_nat c * Z.of_nat L)%Z) by lia.
  assert (Hcol : (Z.of_nat c * Z.of_nat L <= (Z.of_nat L - 1) * Z.of_nat L)%Z)
    by (apply Z.mul_le_mono_nonneg_r; lia).
  destruct (decide (c = L - 1)%nat) as [->|Hne].
  - destruct (Z.ltb_spec (Z.of_nat L * Z.of_nat L - Z.of_nat L - 1)
                (Z.of_nat (r + (L - 1) * L))) as [_|Hge]; [reflexivity|].
    rewrite Hpix in Hge.
    replace (Z.of_nat (L - 1)) with (Z.of_nat L - 1)%Z in Hge by lia. lia.
  - assert (Hcol' : (Z.of_nat c * Z.of_nat L <= (Z.of_nat L - 2) * Z.of_nat L)%Z)
      by (apply Z.mul_le_mono_nonneg_r; lia).
    destruct (Z.ltb_spec (Z.of_nat L * Z.of_nat L - Z.of_nat L - 1)
                (Z.of_nat (r + c * L))) as [Hlt|_]; [lia|].
    unfold ulong. rewrite Z.mod_small by lia.
    rewrite to_int_small by lia. lia.
Qed.

(** X6: With a side of 0 or 1 the bound of the test wraps around to the
    largest [unsigned long] and no pixel is ever in the last column: the only
    pixel of a 1x1 image gets the neighbour 1. *)
Theorem RightNeighbor_side_below_2 (Index SideLength : Z) :
  (0 <= SideLength <= 1)%Z -> (0 <= Index)%Z ->
  (Index + SideLength < 2 ^ 31)%Z ->
  RightNeighbor Index SideLength = (Index + SideLength)%Z.
Proof.
  intros HS HI Hsum. unfold RightNeighbor.
  assert (Hb : ulong_sub (ulong_sub (ulong (SideLength * SideLength))
                            SideLength) 1 = (2 ^ 64 - 1)%Z).
  { assert (SideLength = 0 \/ SideLength = 1)%Z as [-> | ->] by lia;
      reflexivity. }
  rewrite Hb.
  destruct (Z.ltb_spec (2 ^ 64 - 1) Index); [lia|].
  unfold ulong. rewrite Z.mod_small by lia. apply to_int_small. lia.
Qed.

(** X7: On a square image of side [L >= 1], rasterised column by column, the
    down neighbour of the pixel in row [r] and column [c] is the pixel in row
    [r + 1] and column [c], and -1 in the last row. *)
Theorem DownNeighbor_column_major (L r c : nat) :
  (1 <= L)%nat -> (Z.of_nat L * Z.of_nat L <= 2 ^ 31)%Z ->
  (r < L)%nat -> (c < L)%nat ->
  DownNeighbor (Z.of_nat (r + c * L)) (Z.of_nat L) =
    Some (if decide (r = L - 1)%nat then (-1)%Z
          else Z.of_nat (r + 1 + c * L)).
Proof.
  intros HL Hbound Hr Hc. unfold DownNeighbor.
  destruct (Z.eqb_spec (Z.of_nat L) 0); [lia|]. f_equal.
  assert (Hcol : (Z.of_nat c * Z.of_nat L <= (Z.of_nat L - 1) * Z.of_nat L)%Z)
    by (apply Z.mul_le_mono_nonneg_r; lia).
  assert (Hnext : uint (Z.of_nat (r + c * L) + 1)
                  = (Z.of_nat r + 1 + Z.of_nat c * Z.of_nat L)%Z).
  { unfold uint. rewrite Z.mod_small; lia. }
  rewrite Hnext.
  assert (Hmod : ((Z.of_nat r + 1 + Z.of_nat c * Z.of_nat L) mod Z.of_nat L
                  = (Z.of_nat r + 1) mod Z.of_nat L)%Z).
  { apply Z.mod_add. lia. }
  rewrite Hmod.
  destruct (decide (r = L - 1)%nat) as [->|Hne].
  - replace (Z.of_nat (L - 1) + 1)%Z with (Z.of_nat L) by lia.
    rewrite Z.mod_same by lia. reflexivity.
  - rewrite Z.mod_small by lia.
    destruct (Z.eqb_spec (Z.of_nat r + 1) 0); [lia|]. cbn [negb].
    rewrite to_int_small by lia. lia.
Qed.
Section PackRoundTrip.
Context {T : Type} `{Scalar T}.

Lemma mat_get_total (M : Matrix T) (i j : nat) :
  well_formed M -> (i < size1 M)%nat -> (j < size2 M)%nat ->
  exists x, mat_get M i j = Ok x.
Proof.
  intros Hwf Hi Hj.
  destruct (lookup_lt_is_Some_2 (data M) (i * size2 M + j)) as [x Hx].
  { rewrite Hwf. by apply storage_index_lt. }
  exists x. apply mat_get_Ok. auto.
Qed.

Lemma vec_get_total (v : Vector T) (i : nat) :
  (i < length v)%nat -> exists x, vec_get v i = Ok x.
Proof.
  intros Hi. destruct (lookup_lt_is_Some_2 v i Hi) as [x Hx].
  exists x. by apply vec_get_Ok.
Qed.

Lemma vec_set_total (v : Vector T) (i : nat) (x : T) :
  (i < length v)%nat -> vec_set v i x = Ok (<[i := x]> v).
Proof.
  intros Hi. unfold vec_set. destruct (decide (i < length v)%nat); [reflexivity | lia].
Qed.

(** [AM_pack] ends normally when [W] has a row for every pixel and two
    columns and [Uk] an entry for every pixel *)
Lemma AM_pack_total (n : nat) (W : Matrix T) (Uk : Vector T) :
  well_formed W -> (n <= size1 W)%nat -> (2 <= size2 W)%nat ->
  (n <= length Uk)%nat ->
  exists AL_MIN, AM_pack n W Uk = Ok AL_MIN.
Proof.
  intros Hwf Hs1 Hs2 Hlen. unfold AM_pack, for_range.
  destruct (for_from_total
              (fun _ M => size1 M = n /\ size2 M = 3%nat)
              (fun pix AL_MIN =>
                 let* w0 := mat_get W pix 0 in
                 let* AL_MIN := mat_set AL_MIN pix 0 w0 in
                 let* w1 := mat_get W pix 1 in
                 let* AL_MIN := mat_set AL_MIN pix 1 w1 in
                 let* u := vec_get Uk pix in
                 mat_set AL_MIN pix 2 u)
              n 0 (BoostZeroMatrix n 3)) as (M & HM & _).
  - split; reflexivity.
  - intros pix M Hpix [HM1 HM2]. simpl in Hpix.
    destruct (mat_get_total W pix 0) as [w0 ->]; [assumption | lia..|].
    destruct (mat_get_total W pix 1) as [w1 ->]; [assumption | lia..|].
    destruct (vec_get_total Uk pix) as [u ->]; [lia|].
    cbn [bind].
    destruct (mat_set_total M pix 0 w0) as [M0 HM0]; [lia..|].
    rewrite HM0. cbn [bind].
    destruct (mat_set_sizes _ _ _ _ _ HM0) as [? ?].
    destruct (mat_set_total M0 pix 1 w1) as [M1 HM1']; [lia..|].
    rewrite HM1'. cbn [bind].
    destruct (mat_set_sizes _ _ _ _ _ HM1') as [? ?].
    destruct (mat_set_total M1 pix 2 u) as [M2 HM2']; [lia..|].
    rewrite HM2'.
    destruct (mat_set_sizes _ _ _ _ _ HM2') as [? ?].
    exists M2. split; [reflexivity|]. split; congruence.
  - eauto.
Qed.

(** X8: What the inner solver packs into its result, the driver unpacks: after
    [AM_pack] and [unpack], the driver's [W] and [U] hold, for every pixel,
    the solver's final [W] and [Uk]. *)
Theorem unpack_AM_pack (n : nat) (W : Matrix T) (Uk : Vector T)
    (W0 : Matrix T) (U0 : Vector T) :
  well_formed W -> (n <= size1 W)%nat -> (2 <= size2 W)%nat ->
  (n <= length Uk)%nat ->
  well_formed W0 -> (n <= size1 W0)%nat -> (2 <= size2 W0)%nat ->
  (n <= length U0)%nat ->
  exists AL_MIN W' U',
    AM_pack n W Uk = Ok AL_MIN /\
    unpack n AL_MIN W0 U0 = Ok (W', U') /\
    forall i, (i < n)%nat ->
      mat_get W' i 0 = mat_get W i 0 /\
      mat_get W' i 1 = mat_get W i 1 /\
      vec_get U' i = vec_get Uk i.
Proof.
  intros Hwf Hs1 Hs2 Hlen Hwf0 Hs10 Hs20 Hlen0.
  destruct (AM_pack_total n W Uk Hwf Hs1 Hs2 Hlen) as [MIN HMIN].
  destruct (AM_pack_Ok _ _ _ _ HMIN) as (HM1 & HM2 & Hpacked).
  assert (Hrun : exists st, unpack n MIN W0 U0 = Ok st).
  { unfold unpack, for_range.
    destruct (for_from_total
                (fun _ (st : Matrix T * Vector T) =>
                   size1 st.1 = size1 W0 /\ size2 st.1 = size2 W0 /\
                   length st.2 = length U0)
                (fun i '(W, U) =>
                   let* m0 := mat_get MIN i 0 in
                   let* W := mat_set W i 0 m0 in
                   let* m1 := mat_get MIN i 1 in
                   let* W := mat_set W i 1 m1 in
                   let* m2 := mat_get MIN i 2 in
                   let* U := vec_set U i m2 in
                   Ok (W, U))
                n 0 (W0, U0)) as (st & Hst & _); [simpl; auto | | eauto].
    intros i [M V] Hi (HMs1 & HMs2 & HV). simpl in Hi, HMs1, HMs2, HV.
    destruct (Hpacked i) as (H0 & H1 & H2); [lia|].
    destruct (mat_get_total W i 0) as [w0 Hw0]; [assumption | lia..|].
    destruct (mat_get_total W i 1) as [w1 Hw1]; [assumption | lia..|].
    destruct (vec_get_total Uk i) as [u Hu]; [lia|].
    rewrite H0, H1, H2, Hw0, Hw1, Hu. cbn [bind].
    destruct (mat_set_total M i 0 w0) as [M0 HM0]; [lia..|].
    rewrite HM0. cbn [bind].
    destruct (mat_set_sizes _ _ _ _ _ HM0) as [? ?].
    destruct (mat_set_total M0 i 1 w1) as [M1 HM1']; [lia..|].
    rewrite HM1'. cbn [bind].
    destruct (mat_set_sizes _ _ _ _ _ HM1') as [? ?].
    rewrite vec_set_total by lia. cbn [bind].
    eexists. split; [reflexivity|]. simpl.
    rewrite length_insert. repeat split; congruence. }
  destruct Hrun as [[W' U'] Hrun].
  exists MIN, W', U'. split; [exact HMIN|]. split; [exact Hrun|].
  destruct (unpack_Ok _ _ _ _ _ _ Hwf0 Hrun) as (_ & _ & _ & Hunpacked).
  intros i Hi.
  destruct (Hunpacked i Hi) as (H0 & H1 & H2).
  destruct (Hpacked i Hi) as (H0' & H1' & H2').
  repeat split; congruence.
Qed.

End PackRoundTrip.
(** ** The reconstruction as a whole *)

Lemma for_from_idle {S : Type} (body : nat -> S -> result S)
    (count start : nat) (s : S) :
  (forall i t, body i t = Ok t) -> for_from start count body s = Ok s.
Proof.
  intros Hbody. revert start.
  induction count as [|count IH]; intros start; [reflexivity|].
  simpl. rewrite Hbody. simpl. apply IH.
Qed.

Lemma MatrixToVector_no_rows {T : Type} `{Scalar T} (M : Matrix T) :
  size1 M = 0%nat -> MatrixToVector M = Ok [].
Proof.
  intros Hrows. unfold MatrixToVector, for_range. rewrite Hrows.
  rewrite for_from_idle; [reflexivity|].
  intros j st. reflexivity.
Qed.

(** X9: The reconstruction returns an image only for a sinogram without rows:
    on every other sinogram the run ends in a fault, at the latest in the
    first call of the inner solver. *)
Theorem tval3_reconstruction_Ok {T : Type} `{Scalar T}
    (RandNormValue : Z -> nat -> T) (fuel : nat) (CurrentTick : Z)
    (Sinogram X : Matrix T) :
  tval3_reconstruction RandNormValue fuel CurrentTick Sinogram = Ok X ->
  size1 Sinogram = 0%nat.
Proof.
  unfold tval3_reconstruction, tval3_run. intros Hrun. inv_binds.
  match goal with
  | Hloop : outer_loop _ _ _ _ _ _ = Ok _ |- _ =>
      destruct fuel as [|fuel]; [discriminate|];
      cbn [outer_loop] in Hloop; inv_bind Hloop
  end.
  match goal with
  | Hpass : outer_iteration _ _ _ _ _ = Ok _ |- _ =>
      unfold outer_iteration in Hpass; inv_bind Hpass
  end.
  match goal with
  | Hcall : call_minimiser _ _ _ _ _ = Ok _ |- _ =>
      destruct (call_minimiser_Ok _ _ _ _ _ _ Hcall) as (MIN & Hmin & _)
  end.
  apply Alternating_Minimisation_Ok in Hmin.
  - simpl in Hmin. unfold BoostZeroVector in Hmin.
    rewrite length_replicate in Hmin.
    destruct (size1 Sinogram) as [|[|l]]; [reflexivity | lia | nia].
  - simpl. unfold BoostZeroVector. by rewrite length_replicate.
  - reflexivity.
Qed.

(** X10: In binary64, and with fuel for one pass of each loop, a sinogram
    without rows is reconstructed as the empty image. *)
Theorem tval3_reconstruction_no_rows (RandNormValue : Z -> nat -> float)
    (fuel : nat) (CurrentTick : Z) (Sinogram : Matrix float) :
  size1 Sinogram = 0%nat -> (1 <= fuel)%nat ->
  tval3_reconstruction RandNormValue fuel CurrentTick Sinogram
    = Ok (mkMatrix 0 0 []).
Proof.
  intros Hrows Hfuel. destruct fuel as [|fuel]; [lia|].
  unfold tval3_reconstruction, tval3_run.
  rewrite (MatrixToVector_no_rows Sinogram Hrows), Hrows.
  vm_compute. reflexivity.
Qed.
(** ** The gradient on whole images *)

Section GradientField.
Context {T : Type} `{Scalar T}.
Local Open Scope scalar_scope.

(** X11: [Gradient2D] leaves through [exit] for every pixel index that is not
    below the size of the vector, whatever the vector *)
Theorem Gradient2D_exit (U : Vector T) (pixel : Z) :
  (Z.of_nat (length U) <= pixel)%Z ->
  Gradient2D U pixel = Fault exit_failure.
Proof.
  intros Hpixel. unfold Gradient2D.
  pose proof (Z.sqrt_spec (Z.of_nat (length U)) (Nat2Z.is_nonneg _))
    as [Hsqrt _].
  pose proof (Z.sqrt_nonneg (Z.of_nat (length U))) as Hnonneg.
  destruct (VectorToMatrix_Ok U (Z.to_nat (Z.sqrt (Z.of_nat (length U))))
              (Z.to_nat (Z.sqrt (Z.of_nat (length U))))) as (X & -> & _).
  { nia. }
  cbn [bind].
  destruct (Z.leb_spec (Z.of_nat (length U)) pixel); [reflexivity | lia].
Qed.

(** on a square image every pixel below the size gets its pair *)
Lemma Gradient2D_square (L : nat) (U : Vector T) (p : nat) :
  length U = (L * L)%nat -> (Z.of_nat L * Z.of_nat L <= 2 ^ 64)%Z ->
  (p < L * L)%nat ->
  Gradient2D U (Z.of_nat p) =
    Ok [ image_at L U (p / L) (p mod L)
           - image_at L U (p / L)
               (if decide (p mod L = L - 1)%nat then (p mod L)
                else (p mod L + 1)%nat);
         image_at L U (p / L) (p mod L)
           - image_at L U
               (if decide (p / L = L - 1)%nat then (p / L)
                else (p / L + 1)%nat) (p mod L) ].
Proof.
  intros Hlen Hbound Hp.
  assert (HL : (0 < L)%nat) by (destruct L; lia).
  rewrite (Nat.div_mod_eq p L) at 1. rewrite (Nat.mul_comm L).
  apply Gradient2D_Ok; try assumption.
  - apply Nat.Div0.div_lt_upper_bound. lia.
  - apply Nat.mod_upper_bound. lia.
Qed.

(** the gradient field, row by row *)
Lemma Gradient2DMatrix_Ok (L : nat) (U : Vector T) :
  length U = (L * L)%nat -> (Z.of_nat L * Z.of_nat L <= 2 ^ 64)%Z ->
  exists D,
    Gradient2DMatrix U = Ok D /\
    size1 D = (L * L)%nat /\ size2 D = 2%nat /\ well_formed D /\
    forall p, (p < L * L)%nat ->
      exists d0 d1,
        Gradient2D U (Z.of_nat p) = Ok [d0; d1] /\
        mat_get D p 0 = Ok d0 /\ mat_get D p 1 = Ok d1.
Proof.
  intros Hlen Hbound. unfold Gradient2DMatrix, for_range. rewrite Hlen.
  destruct (for_from_total
    (fun i D =>
       size1 D = (L * L)%nat /\ size2 D = 2%nat /\ well_formed D /\
       forall p, (p < i)%nat ->
         exists d0 d1,
           Gradient2D U (Z.of_nat p) = Ok [d0; d1] /\
           mat_get D p 0 = Ok d0 /\ mat_get D p 1 = Ok d1)
    (fun i D =>
       let* Du := Gradient2D U (Z.of_nat i) in
       for_from 0 2 (fun j D =>
         let* x := vec_get Du j in
         mat_set D i j x) D)
    (L * L) 0 (BoostZeroMatrix (L * L) 2)) as (D & HD & Hinv).
  - repeat split; [apply BoostZeroMatrix_well_formed | intros p Hp; lia].
  - intros i D Hi (Hs1 & Hs2 & Hwf & Hrows). simpl in Hi.
    rewrite (Gradient2D_square L U i Hlen Hbound) by lia.
    set (d0 := (_ - _)). set (d1 := (_ - _)). cbn [bind for_from].
    unfold vec_get at 1. cbn [lookup list_lookup bind].
    destruct (mat_set_total D i 0 d0) as [D0 HD0]; [lia..|].
    rewrite HD0. cbn [bind].
    unfold vec_get at 1. cbn [lookup list_lookup bind].
    destruct (mat_set_sizes _ _ _ _ _ HD0) as [? ?].
    pose proof (mat_set_well_formed _ _ _ _ _ HD0 Hwf) as Hwf0.
    destruct (mat_set_total D0 i 1 d1) as [D1 HD1]; [lia..|].
    rewrite HD1. cbn [bind].
    destruct (mat_set_sizes _ _ _ _ _ HD1) as [? ?].
    pose proof (mat_set_well_formed _ _ _ _ _ HD1 Hwf0) as Hwf1.
    exists D1. split; [reflexivity|].
    split; [congruence|]. split; [congruence|]. split; [exact Hwf1|].
    intros p Hp. destruct (decide (p = i)) as [->|Hne].
    + exists d0, d1.
      split; [apply (Gradient2D_square L U i Hlen Hbound); lia|].
      rewrite (mat_get_set_other _ _ _ _ i 0 _ HD1) by congruence.
      rewrite (mat_get_set_same _ _ _ _ _ Hwf HD0).
      rewrite (mat_get_set_same _ _ _ _ _ Hwf0 HD1). auto.
    + destruct (Hrows p) as (e0 & e1 & Hg & He0 & He1); [lia|].
      exists e0, e1. split; [exact Hg|].
      rewrite !(mat_get_set_other _ _ _ _ p _ _ HD1) by congruence.
      rewrite !(mat_get_set_other _ _ _ _ p _ _ HD0) by congruence. auto.
  - exists D. split; [exact HD|]. simpl in Hinv. tauto.
Qed.

(** X12: On a square image [Gradient2DMatrix] returns the [N x 2] matrix whose
    row [p] is the pair that [Gradient2D] returns for pixel [p]. *)
Theorem Gradient2DMatrix_rows (L : nat) (U : Vector T) :
  length U = (L * L)%nat -> (Z.of_nat L * Z.of_nat L <= 2 ^ 64)%Z ->
  exists D,
    Gradient2DMatrix U = Ok D /\
    size1 D = (L * L)%nat /\ size2 D = 2%nat /\ well_formed D /\
    forall p, (p < L * L)%nat ->
      exists d0 d1,
        Gradient2D U (Z.of_nat p) = Ok [d0; d1] /\
        mat_get D p 0 = Ok d0 /\ mat_get D p 1 = Ok d1.
Proof. apply Gradient2DMatrix_Ok. Qed.

End GradientField.

(** X13: In exact arithmetic the gradient field of a constant image is
    zero. *)
Theorem Gradient2DMatrix_constant (L : nat) (c : R) :
  (Z.of_nat L * Z.of_nat L <= 2 ^ 64)%Z ->
  Gradient2DMatrix (replicate (L * L) c) = Ok (BoostZeroMatrix (L * L) 2).
Proof.
  intros Hbound.
  assert (Hlen : length (replicate (L * L) c) = (L * L)%nat)
    by apply length_replicate.
  destruct (Gradient2DMatrix_Ok L _ Hlen Hbound)
    as (D & -> & Hs1 & Hs2 & Hwf & Hrows).
  f_equal. apply matrix_ext; try assumption.
  - apply BoostZeroMatrix_well_formed.
  - intros p j Hp Hj. rewrite Hs1 in Hp. rewrite Hs2 in Hj.
    assert (HL : (0 < L)%nat) by (destruct L; lia).
    assert (Himage : forall a b, (a < L)%nat -> (b < L)%nat ->
              image_at L (replicate (L * L) c) a b = c).
    { intros a b Ha Hb. unfold image_at.
      rewrite (proj2 (lookup_replicate _ _ c _)); [reflexivity|].
      split; [reflexivity|]. rewrite Nat.add_comm.
      by apply storage_index_lt. }
    assert (Hquot : (p / L < L)%nat) by (apply Nat.Div0.div_lt_upper_bound; lia).
    assert (Hrem : (p mod L < L)%nat) by (apply Nat.mod_upper_bound; lia).
    destruct (Hrows p Hp) as (d0 & d1 & Hg & Hd0 & Hd1).
    rewrite (Gradient2D_square L _ p Hlen Hbound Hp) in Hg.
    rewrite !Himage in Hg
      by (try assumption; destruct (decide _); lia).
    injection Hg as <- <-.
    assert (Hzero : mat_get (BoostZeroMatrix (L * L) 2) p j = Ok 0%R).
    { apply mat_get_Ok. simpl. repeat split; [lia..|].
      apply lookup_replicate. split; [reflexivity|].
      apply storage_index_lt; lia. }
    rewrite Hzero.
    destruct j as [|[|j]]; [rewrite Hd0 | rewrite Hd1 | lia];
      f_equal; simpl; lra.
Qed.

(** ** The unit stencils of [Unit_Gradient2DMatrix] *)

Section UnitStencil.
Context {T : Type} `{Scalar T}.

(** both rows of [Di] written out: row 0 holds the pair [(p, p+1)] when
    [right] is set, row 1 the pair [(p, p+L)] when [down] is set *)
Lemma stencil_zero (N L p : nat) :
  stencil N L p false false (BoostZeroMatrix 2 N).
Proof.
  unfold stencil. simpl. repeat split; [apply BoostZeroMatrix_well_formed|..];
    intros q Hq; apply mat_get_Ok; simpl;
    (repeat split; [lia | lia |]);
    apply lookup_replicate; (split; [reflexivity | lia]).
Qed.

Lemma stencil_set_right (N L p : nat) (right down : bool) (Di : Matrix T) :
  stencil N L p right down Di -> (p + 1 < N)%nat ->
  exists Di',
    (let* Di := mat_set Di 0 p (of_int 1) in
     mat_set Di 0 (p + 1) (of_int (-1))) = Ok Di' /\
    stencil N L p true down Di'.
Proof.
  intros (Hs1 & Hs2 & Hwf & Hrow0 & Hrow1) Hp.
  destruct (mat_set_total Di 0 p (of_int 1)) as [D0 HD0]; [lia..|].
  destruct (mat_set_sizes _ _ _ _ _ HD0) as [? ?].
  pose proof (mat_set_well_formed _ _ _ _ _ HD0 Hwf) as Hwf0.
  destruct (mat_set_total D0 0 (p + 1) (of_int (-1))) as [D1 HD1]; [lia..|].
  destruct (mat_set_sizes _ _ _ _ _ HD1) as [? ?].
  pose proof (mat_set_well_formed _ _ _ _ _ HD1 Hwf0) as Hwf1.
  exists D1. rewrite HD0. cbn [bind]. split; [exact HD1|].
  unfold stencil. repeat split; try congruence.
  - intros q Hq. cbn [stencil_entry].
    destruct (decide (q = p)) as [->|Hqp].
    + rewrite (mat_get_set_other _ _ _ _ 0 p _ HD1)
        by (intros [= ?]; lia).
      apply (mat_get_set_same _ _ _ _ _ Hwf HD0).
    + destruct (decide (q = (p + 1)%nat)) as [->|Hqp1].
      * apply (mat_get_set_same _ _ _ _ _ Hwf0 HD1).
      * rewrite (mat_get_set_other _ _ _ _ 0 q _ HD1)
          by (intros [= ?]; lia).
        rewrite (mat_get_set_other _ _ _ _ 0 q _ HD0)
          by (intros [= ?]; lia).
        rewrite (Hrow0 q Hq). unfold stencil_entry.
        destruct right; [|reflexivity].
        rewrite !decide_False by assumption. reflexivity.
  - intros q Hq.
    rewrite (mat_get_set_other _ _ _ _ 1 q _ HD1) by (intros [= ?]).
    rewrite (mat_get_set_other _ _ _ _ 1 q _ HD0) by (intros [= ?]).
    apply Hrow1, Hq.
Qed.

Lemma stencil_set_down (N L p : nat) (right down : bool) (Di : Matrix T) :
  stencil N L p right down Di -> (0 < L)%nat -> (p + L < N)%nat ->
  exists Di',
    (let* Di := mat_set Di 1 p (of_int 1) in
     mat_set Di 1 (p + L) (of_int (-1))) = Ok Di' /\
    stencil N L p right true Di'.
Proof.
  intros (Hs1 & Hs2 & Hwf & Hrow0 & Hrow1) HL Hp.
  destruct (mat_set_total Di 1 p (of_int 1)) as [D0 HD0]; [lia..|].
  destruct (mat_set_sizes _ _ _ _ _ HD0) as [? ?].
  pose proof (mat_set_well_formed _ _ _ _ _ HD0 Hwf) as Hwf0.
  destruct (mat_set_total D0 1 (p + L) (of_int (-1))) as [D1 HD1]; [lia..|].
  destruct (mat_set_sizes _ _ _ _ _ HD1) as [? ?].
  pose proof (mat_set_well_formed _ _ _ _ _ HD1 Hwf0) as Hwf1.
  exists D1. rewrite HD0. cbn [bind]. split; [exact HD1|].
  unfold stencil. repeat split; try congruence.
  - intros q Hq.
    rewrite (mat_get_set_other _ _ _ _ 0 q _ HD1) by (intros [= ?]).
    rewrite (mat_get_set_other _ _ _ _ 0 q _ HD0) by (intros [= ?]).
    apply Hrow0, Hq.
  - intros q Hq. cbn [stencil_entry].
    destruct (decide (q = p)) as [->|Hqp].
    + rewrite (mat_get_set_other _ _ _ _ 1 p _ HD1)
        by (intros [= ?]; lia).
      apply (mat_get_set_same _ _ _ _ _ Hwf HD0).
    + destruct (decide (q = (p + L)%nat)) as [->|Hqp1].
      * apply (mat_get_set_same _ _ _ _ _ Hwf0 HD1).
      * rewrite (mat_get_set_other _ _ _ _ 1 q _ HD1)
          by (intros [= ?]; lia).
        rewrite (mat_get_set_other _ _ _ _ 1 q _ HD0)
          by (intros [= ?]; lia).
        rewrite (Hrow1 q Hq). unfold stencil_entry.
        destruct down; [|reflexivity].
        rewrite !decide_False by assumption. reflexivity.
Qed.

(** once both pairs are in place, further passes of the loop leave them *)
Lemma unit_rows_both (N L p : nat) (count : nat) (l : Z) (Di : Matrix T) :
  (2 <= L)%nat -> (Z.of_nat N < 2 ^ 64)%Z -> N = (L * L)%nat ->
  (p + L < N)%nat ->
  stencil N L p true true Di ->
  exists Di',
    unit_rows count l (Z.of_nat N) (Z.of_nat L) (Z.of_nat p) Di = Ok Di' /\
    stencil N L p true true Di'.
Proof.
  intros HL HN Hsq Hp. revert l Di.
  assert (Hlast : ulong_sub (Z.of_nat N) 1 = (Z.of_nat N - 1)%Z).
  { unfold ulong_sub. apply Z.mod_small. lia. }
  assert (Hrow : ulong_sub (ulong_sub (Z.of_nat N) 1) (Z.of_nat L)
                 = (Z.of_nat N - 1 - Z.of_nat L)%Z).
  { rewrite Hlast. unfold ulong_sub. apply Z.mod_small. nia. }
  induction count as [|count IH]; intros l Di HDi; cbn [unit_rows].
  - eauto.
  - rewrite Hrow, Hlast.
    destruct (Z.eqb_spec (Z.of_nat p) (Z.of_nat N - 1)); [lia|].
    destruct (Z.ltb_spec (Z.of_nat N - 1 - Z.of_nat L) (Z.of_nat p)); [lia|].
    cbn [andb]. rewrite !Nat2Z.id.
    destruct (Z.of_nat p =? ulong_sub (l * Z.of_nat L) 1)%Z.
    + apply (stencil_set_down N L p true true Di HDi); lia.
    + destruct (stencil_set_right N L p _ _ Di HDi) as (D1 & HD1 & Hst1);
        [lia|].
      destruct (stencil_set_down N L p _ _ D1 Hst1) as (D2 & HD2 & Hst2);
        [lia | lia |].
      destruct (mat_set Di 0 p (of_int 1)) as [Da|] eqn:Ha;
        [cbn [bind] in HD1 |- * | discriminate].
      rewrite HD1. cbn [bind].
      destruct (mat_set D1 1 p (of_int 1)) as [Db|] eqn:Hb;
        [cbn [bind] in HD2 |- * | discriminate].
      rewrite HD2. cbn [bind]. apply IH, Hst2.
Qed.

Lemma Unit_Gradient2DMatrix_stencil (L p : nat) (U : Vector T) :
  length U = (L * L)%nat -> (Z.of_nat (L * L) < 2 ^ 64)%Z ->
  (p < L * L)%nat ->
  exists Di,
    Unit_Gradient2DMatrix U (Z.of_nat p) = Ok Di /\
    stencil (L * L) L p
      (bool_decide (p + 1 < L * L /\ p <> L - 1)%nat)
      (bool_decide (p + L < L * L)%nat) Di.
Proof.
  intros Hlen HN Hp. unfold Unit_Gradient2DMatrix. rewrite Hlen.
  assert (Hsqrt : Z.sqrt (Z.of_nat (L * L)) = Z.of_nat L).
  { rewrite Nat2Z.inj_mul. apply Z.sqrt_square. lia. }
  rewrite Hsqrt.
  destruct (Z.leb_spec (Z.of_nat (L * L)) (Z.of_nat p)); [lia|].
  replace (Z.to_nat (Z.of_nat L - 1)) with (L - 1)%nat by lia.
  pose proof (stencil_zero (L * L) L p) as Hzero.
  destruct (decide (L = 1%nat)) as [->|HL1].
  { exists (BoostZeroMatrix 2 (1 * 1)). split; [reflexivity|].
    rewrite !bool_decide_eq_false_2 by lia. exact Hzero. }
  assert (HL : (2 <= L)%nat) by (destruct L as [|[|L]]; simpl in Hp; lia).
  assert (Hsq : (2 * L <= L * L)%nat) by (apply Nat.mul_le_mono_r; lia).
  destruct (L - 1)%nat as [|count] eqn:Hcount; [lia|]. cbn [unit_rows].
  assert (Hlast : ulong_sub (Z.of_nat (L * L)) 1 = (Z.of_nat (L * L) - 1)%Z).
  { unfold ulong_sub. apply Z.mod_small. lia. }
  assert (Hrow : ulong_sub (ulong_sub (Z.of_nat (L * L)) 1) (Z.of_nat L)
                 = (Z.of_nat (L * L) - 1 - Z.of_nat L)%Z).
  { rewrite Hlast. unfold ulong_sub. apply Z.mod_small. lia. }
  assert (Hend : ulong_sub (1 * Z.of_nat L) 1 = (Z.of_nat L - 1)%Z).
  { unfold ulong_sub. rewrite Z.mul_1_l. apply Z.mod_small. lia. }
  rewrite Hrow, Hlast, Hend, !Nat2Z.id.
  destruct (Z.eqb_spec (Z.of_nat p) (Z.of_nat (L * L) - 1)).
  { exists (BoostZeroMatrix 2 (L * L)). split; [reflexivity|].
    rewrite !bool_decide_eq_false_2 by lia. exact Hzero. }
  destruct (Z.ltb_spec (Z.of_nat (L * L) - 1 - Z.of_nat L) (Z.of_nat p)).
  { destruct (Z.ltb_spec (Z.of_nat p) (Z.of_nat (L * L) - 1)); [|lia].
    cbn [andb].
    rewrite bool_decide_eq_true_2, bool_decide_eq_false_2 by lia.
    apply (stencil_set_right _ _ _ _ _ _ Hzero). lia. }
  cbn [andb].
  destruct (Z.eqb_spec (Z.of_nat p) (Z.of_nat L - 1)).
  { rewrite bool_decide_eq_false_2, bool_decide_eq_true_2 by lia.
    apply (stencil_set_down _ _ _ _ _ _ Hzero); lia. }
  rewrite !bool_decide_eq_true_2 by lia.
  destruct (stencil_set_right _ _ _ _ _ _ Hzero) as (D1 & HD1 & Hst1); [lia|].
  destruct (stencil_set_down _ _ _ _ _ _ Hst1) as (D2 & HD2 & Hst2);
    [lia | lia |].
  destruct (mat_set (BoostZeroMatrix 2 (L * L)) 0 p (of_int 1))
    as [Da|] eqn:Ha; [cbn [bind] in HD1 |- * | discriminate].
  rewrite HD1. cbn [bind].
  destruct (mat_set D1 1 p (of_int 1)) as [Db|] eqn:Hb;
    [cbn [bind] in HD2 |- * | discriminate].
  rewrite HD2. cbn [bind].
  apply unit_rows_both; try assumption; lia.
Qed.

(** X14: On a square image of side [L], [Unit_Gradient2DMatrix] returns for
    every pixel [p] a [2 x N] matrix of zeros, except that row 0 holds [+1] at
    [p] and [-1] at [p+1] unless [p] is the last pixel or pixel [L-1], and row
    1 holds [+1] at [p] and [-1] at [p+L] unless [p] lies in the last [L]
    pixels. So the pair [(p, p+1)] is left out at [p = L-1] only: at
    [p = 2L-1, 3L-1, ...] it is written by the first pass of the loop, before
    the test [pixel == l*L-1] of a later pass is reached. *)
Theorem Unit_Gradient2DMatrix_square (L p : nat) (U : Vector T) :
  length U = (L * L)%nat -> (Z.of_nat (L * L) < 2 ^ 64)%Z ->
  (p < L * L)%nat ->
  exists Di,
    Unit_Gradient2DMatrix U (Z.of_nat p) = Ok Di /\
    stencil (L * L) L p
      (bool_decide (p + 1 < L * L /\ p <> L - 1)%nat)
      (bool_decide (p + L < L * L)%nat) Di.
Proof. apply Unit_Gradient2DMatrix_stencil. Qed.

End UnitStencil.

(** ** The fill order of the random containers *)

Section RandomFill.
Context {T : Type} `{Scalar T}.
Variable RandNormValue : Z -> nat -> T.

Lemma drawn_storage_length (seed : Z) (size drawn : nat) :
  (drawn <= size)%nat ->
  length (drawn_storage RandNormValue seed size drawn) = size.
Proof.
  intros Hd. unfold drawn_storage.
  rewrite length_app, length_map, length_seq, length_replicate. lia.
Qed.

Lemma drawn_storage_insert (seed : Z) (size drawn : nat) :
  (drawn < size)%nat ->
  <[drawn := RandNormValue seed drawn]>
    (drawn_storage RandNormValue seed size drawn)
  = drawn_storage RandNormValue seed size (Datatypes.S drawn).
Proof.
  intros Hd. unfold drawn_storage.
  rewrite insert_app_r_alt by (rewrite length_map, length_seq; lia).
  rewrite length_map, length_seq, Nat.sub_diag.
  replace (size - drawn)%nat with (Datatypes.S (size - Datatypes.S drawn))
    by lia.
  rewrite seq_S, map_app, <- app_assoc. reflexivity.
Qed.

Lemma drawn_storage_full (seed : Z) (size : nat) :
  drawn_storage RandNormValue seed size size
  = map (RandNormValue seed) (seq 0 size).
Proof.
  unfold drawn_storage. rewrite Nat.sub_diag. apply app_nil_r.
Qed.

Lemma CreateRandomVector_Ok (CurrentTick : Z) (n : nat) :
  CreateRandomVector RandNormValue CurrentTick n
  = Ok (map (RandNormValue (seed_of CurrentTick)) (seq 0 n)).
Proof.
  unfold CreateRandomVector, for_range.
  destruct (for_from_total
    (fun i v => v = drawn_storage RandNormValue (seed_of CurrentTick) n i)
    (fun i RandomVector =>
       vec_set RandomVector i (RandNormValue (seed_of CurrentTick) i))
    n 0 (BoostZeroVector n)) as (v & -> & ->).
  - unfold drawn_storage. simpl. by rewrite Nat.sub_0_r.
  - intros i v Hi ->. unfold vec_set.
    rewrite drawn_storage_length by lia.
    rewrite decide_True by lia.
    rewrite drawn_storage_insert by lia. eauto.
  - simpl. by rewrite drawn_storage_full.
Qed.

Lemma CreateRandomMatrix_Ok (CurrentTick : Z) (rows cols : nat) :
  CreateRandomMatrix RandNormValue CurrentTick rows cols
  = Ok (mkMatrix rows cols
          (map (RandNormValue (seed_of CurrentTick)) (seq 0 (rows * cols)))).
Proof.
  unfold CreateRandomMatrix, for_range.
  set (seed := seed_of CurrentTick).
  set (shape := fun d =>
         mkMatrix rows cols (drawn_storage RandNormValue seed (rows * cols) d)).
  destruct (for_from_total
    (fun i (st : Matrix T * nat) =>
       st.2 = (i * cols)%nat /\ st.1 = shape st.2)
    (fun i st =>
       for_from 0 cols (fun j '(RandomMatrix, drawn) =>
         let* RandomMatrix :=
           mat_set RandomMatrix i j (RandNormValue seed drawn) in
         Ok (RandomMatrix, Datatypes.S drawn)) st)
    rows 0 (BoostZeroMatrix rows cols, O)) as ([M d] & -> & Hd & HM).
  - split; [reflexivity|]. unfold shape, drawn_storage. simpl.
    by rewrite Nat.sub_0_r.
  - intros i [M d] Hi [Hd HM]. simpl in Hd, HM. simpl in Hi.
    destruct (for_from_total
      (fun j (st : Matrix T * nat) =>
         st.2 = (i * cols + j)%nat /\ st.1 = shape st.2)
      (fun j '(RandomMatrix, drawn) =>
         let* RandomMatrix :=
           mat_set RandomMatrix i j (RandNormValue seed drawn) in
         Ok (RandomMatrix, Datatypes.S drawn))
      cols 0 (M, d)) as ([M' d'] & -> & Hd' & HM').
    + simpl. split; [lia | exact HM].
    + intros j [Mj dj] Hj [Hdj HMj]. simpl in Hdj, HMj, Hj.
      assert (Hlt : (dj < rows * cols)%nat)
        by (rewrite Hdj; apply storage_index_lt; lia).
      rewrite HMj. unfold mat_set, shape. cbn [size1 size2 data].
      rewrite (proj2 (in_range_true _ i j)) by (simpl; lia).
      cbn [bind]. rewrite <- Hdj, drawn_storage_insert by exact Hlt.
      eexists. split; [reflexivity|]. simpl. split; [lia | reflexivity].
    + simpl in Hd', HM'. eexists. split; [reflexivity|]. simpl.
      split; [lia | exact HM'].
  - simpl in Hd, HM. cbn [bind]. rewrite HM, Hd. unfold shape.
    rewrite drawn_storage_full. reflexivity.
Qed.

(** X15: [CreateRandomMatrix] always returns, and its matrix holds the draws
    in the order they were made, row by row: entry [(i,j)] is draw number
    [i*cols + j]. Its storage is the vector that [CreateRandomVector] makes at
    the same clock value for [rows*cols] entries. *)
Theorem CreateRandomMatrix_row_major (CurrentTick : Z) (rows cols : nat) :
  exists M,
    CreateRandomMatrix RandNormValue CurrentTick rows cols = Ok M /\
    size1 M = rows /\ size2 M = cols /\
    CreateRandomVector RandNormValue CurrentTick (rows * cols) = Ok (data M) /\
    forall i j, (i < rows)%nat -> (j < cols)%nat ->
      mat_get M i j
      = Ok (RandNormValue (seed_of CurrentTick) (i * cols + j)%nat).
Proof.
  eexists. split; [apply CreateRandomMatrix_Ok|]. cbn [size1 size2 data].
  split; [reflexivity|]. split; [reflexivity|].
  split; [apply CreateRandomVector_Ok|].
  intros i j Hi Hj. apply mat_get_Ok. cbn [size1 size2 data].
  split; [exact Hi|]. split; [exact Hj|].
  pose proof (storage_index_lt rows cols i j Hi Hj) as Hlt.
  rewrite list_lookup_fmap, lookup_seq_lt by exact Hlt. reflexivity.
Qed.

End RandomFill.

(** ** Rows and columns *)

Lemma for_from_ext {S : Type} (body body' : nat -> S -> result S)
    (count start : nat) (s : S) :
  (forall i t, (start <= i < start + count)%nat -> body i t = body' i t) ->
  for_from start count body s = for_from start count body' s.
Proof.
  revert start s. induction count as [|count IH]; intros start s Hsame;
    [reflexivity|].
  cbn [for_from]. rewrite Hsame by lia. destruct (body' start s); cbn [bind];
    [|reflexivity].
  apply IH. intros i t Hi. apply Hsame. lia.
Qed.

Section RowsAndColumnsFacts.
Context {T : Type} `{Scalar T}.

Lemma vec_get_inj (u v : Vector T) (i j : nat) :
  (i < length u)%nat -> vec_get u i = vec_get v j -> u !! i = v !! j.
Proof.
  intros Hi. unfold vec_get. apply lookup_lt_is_Some_2 in Hi as [x Hx].
  rewrite Hx. destruct (v !! j); [congruence | discriminate].
Qed.

(** a row that lies in the matrix is read entry by entry *)
Lemma GetRow_Ok (M : Matrix T) (row : nat) :
  well_formed M -> (row < size1 M)%nat ->
  exists v,
    GetRow M row = Ok v /\ length v = size2 M /\
    forall j, (j < size2 M)%nat -> vec_get v j = mat_get M row j.
Proof.
  intros Hwf Hrow. unfold GetRow, for_range.
  destruct (for_from_total
    (fun j (v : Vector T) =>
       length v = size2 M /\
       forall k, (k < j)%nat -> vec_get v k = mat_get M row k)
    (fun j v => let* x := mat_get M row j in vec_set v j x)
    (size2 M) 0 (BoostZeroVector (size2 M))) as (v & Hv & Hlen & Hread).
  - split; [apply length_replicate | intros k Hk; lia].
  - intros j v Hj [Hlen Hread]. simpl in Hj.
    destruct (mat_get_total M row j Hwf) as [x Hx]; [lia..|].
    rewrite Hx. cbn [bind]. unfold vec_set. rewrite decide_True by lia.
    eexists. split; [reflexivity|]. rewrite length_insert.
    split; [exact Hlen|]. intros k Hk.
    destruct (decide (k = j)) as [->|Hne].
    + rewrite Hx. apply vec_get_Ok, list_lookup_insert_eq. lia.
    + rewrite <- Hread by lia. unfold vec_get.
      by rewrite list_lookup_insert_ne.
  - exists v. split; [exact Hv|]. split; [exact Hlen|].
    intros j Hj. apply Hread. simpl. lia.
Qed.

Lemma GetRow_ext (M P : Matrix T) (row : nat) :
  size2 M = size2 P ->
  (forall j, (j < size2 M)%nat -> mat_get M row j = mat_get P row j) ->
  GetRow M row = GetRow P row.
Proof.
  intros Hs2 Hsame. unfold GetRow, for_range. rewrite <- Hs2.
  apply for_from_ext. intros j v Hj. rewrite Hsame by lia. reflexivity.
Qed.

Lemma SetRow_Ok (M : Matrix T) (v : Vector T) (row : nat) :
  well_formed M -> (row < size1 M)%nat -> (size2 M <= length v)%nat ->
  exists M',
    SetRow M v row = Ok M' /\
    size1 M' = size1 M /\ size2 M' = size2 M /\ well_formed M' /\
    (forall j, (j < size2 M)%nat -> mat_get M' row j = vec_get v j) /\
    (forall r j, r <> row -> mat_get M' r j = mat_get M r j).
Proof.
  intros Hwf Hrow Hlen. unfold SetRow, for_range.
  destruct (for_from_total
    (fun i (P : Matrix T) =>
       size1 P = size1 M /\ size2 P = size2 M /\ well_formed P /\
       (forall j, (j < i)%nat -> mat_get P row j = vec_get v j) /\
       (forall r j, r <> row -> mat_get P r j = mat_get M r j))
    (fun i P => let* x := vec_get v i in mat_set P row i x)
    (size2 M) 0 M) as (M' & HM' & Hs1 & Hs2 & Hwf' & Hnew & Hold).
  - repeat split; try assumption; intros; lia || reflexivity.
  - intros i P Hi (Hs1 & Hs2 & HwfP & Hnew & Hold). simpl in Hi.
    destruct (vec_get_total v i) as [x Hx]; [lia|]. rewrite Hx. cbn [bind].
    destruct (mat_set_total P row i x) as [P' HP']; [lia..|].
    destruct (mat_set_sizes _ _ _ _ _ HP') as [? ?].
    exists P'. split; [exact HP'|].
    split; [congruence|]. split; [congruence|].
    split; [exact (mat_set_well_formed _ _ _ _ _ HP' HwfP)|].
    split.
    + intros j Hj. destruct (decide (j = i)) as [->|Hne].
      * rewrite Hx. apply (mat_get_set_same _ _ _ _ _ HwfP HP').
      * rewrite (mat_get_set_other _ _ _ _ row j _ HP') by congruence.
        apply Hnew. lia.
    + intros r j Hr.
      rewrite (mat_get_set_other _ _ _ _ r j _ HP') by congruence.
      by apply Hold.
  - exists M'. split; [exact HM'|]. repeat split; assumption.
Qed.

Lemma SetCol_Ok (M : Matrix T) (v : Vector T) (col : nat) :
  well_formed M -> (col < size2 M)%nat -> (size1 M <= length v)%nat ->
  exists M',
    SetCol M v col = Ok M' /\
    size1 M' = size1 M /\ size2 M' = size2 M /\ well_formed M' /\
    (forall i, (i < size1 M)%nat -> mat_get M' i col = vec_get v i) /\
    (forall i c, c <> col -> mat_get M' i c = mat_get M i c).
Proof.
  intros Hwf Hcol Hlen. unfold SetCol, for_range.
  destruct (for_from_total
    (fun i (P : Matrix T) =>
       size1 P = size1 M /\ size2 P = size2 M /\ well_formed P /\
       (forall k, (k < i)%nat -> mat_get P k col = vec_get v k) /\
       (forall k c, c <> col -> mat_get P k c = mat_get M k c))
    (fun i P => let* x := vec_get v i in mat_set P i col x)
    (size1 M) 0 M) as (M' & HM' & Hs1 & Hs2 & Hwf' & Hnew & Hold).
  - repeat split; try assumption; intros; lia || reflexivity.
  - intros i P Hi (Hs1 & Hs2 & HwfP & Hnew & Hold). simpl in Hi.
    destruct (vec_get_total v i) as [x Hx]; [lia|]. rewrite Hx. cbn [bind].
    destruct (mat_set_total P i col x) as [P' HP']; [lia..|].
    destruct (mat_set_sizes _ _ _ _ _ HP') as [? ?].
    exists P'. split; [exact HP'|].
    split; [congruence|]. split; [congruence|].
    split; [exact (mat_set_well_formed _ _ _ _ _ HP' HwfP)|].
    split.
    + intros k Hk. destruct (decide (k = i)) as [->|Hne].
      * rewrite Hx. apply (mat_get_set_same _ _ _ _ _ HwfP HP').
      * rewrite (mat_get_set_other _ _ _ _ k col _ HP') by congruence.
        apply Hnew. lia.
    + intros k c Hc.
      rewrite (mat_get_set_other _ _ _ _ k c _ HP') by congruence.
      by apply Hold.
  - exists M'. split; [exact HM'|]. repeat split; assumption.
Qed.

(** the transposed matrix, entry by entry *)
Lemma tabulate_well_formed (r c : nat) (f : nat -> nat -> T) :
  well_formed (tabulate r c f).
Proof.
  unfold well_formed, tabulate. cbn [size1 size2 data].
  generalize 0%nat at 2 as start.
  induction r as [|r IH]; intros start; [reflexivity|].
  cbn [seq flat_map]. rewrite length_app, length_map, length_seq, IH.
  reflexivity.
Qed.

Lemma trans_well_formed (M : Matrix T) : well_formed (trans M).
Proof. apply tabulate_well_formed. Qed.

Lemma flat_rows_lookup (c : nat) (f : nat -> nat -> T) (r start i j : nat) :
  (i < r)%nat -> (j < c)%nat ->
  flat_map (fun i => map (f i) (seq 0 c)) (seq start r) !! (i * c + j)%nat
  = Some (f (start + i)%nat j).
Proof.
  intros Hi Hj. revert i start Hi.
  induction r as [|r IH]; intros i start Hi; [lia|].
  cbn [seq flat_map]. destruct i as [|i].
  - rewrite Nat.mul_0_l, Nat.add_0_l, Nat.add_0_r.
    rewrite lookup_app_l by (rewrite length_map, length_seq; exact Hj).
    rewrite list_lookup_fmap, lookup_seq_lt by exact Hj. reflexivity.
  - rewrite lookup_app_r by (rewrite length_map, length_seq; simpl; lia).
    rewrite length_map, length_seq.
    replace (Datatypes.S i * c + j - c)%nat with (i * c + j)%nat
      by (simpl; lia).
    replace (start + Datatypes.S i)%nat with (Datatypes.S start + i)%nat
      by lia.
    apply IH. lia.
Qed.

Lemma tabulate_lookup (r c : nat) (f : nat -> nat -> T) (i j : nat) :
  (i < r)%nat -> (j < c)%nat ->
  data (tabulate r c f) !! (i * c + j)%nat = Some (f i j).
Proof.
  intros Hi Hj. unfold tabulate. cbn [data].
  by rewrite flat_rows_lookup.
Qed.

Lemma mat_get_trans (M : Matrix T) (i j : nat) :
  well_formed M -> (i < size1 M)%nat -> (j < size2 M)%nat ->
  mat_get (trans M) j i = mat_get M i j.
Proof.
  intros Hwf Hi Hj.
  destruct (mat_get_total M i j Hwf Hi Hj) as [x Hx]. rewrite Hx.
  apply mat_get_Ok. unfold trans at 1 2. cbn [size1 size2 tabulate].
  split; [exact Hj|]. split; [exact Hi|].
  unfold trans. rewrite tabulate_lookup by assumption.
  apply mat_get_Ok in Hx as (_ & _ & Hx). unfold mat_at. by rewrite Hx.
Qed.

(** the column, entry by entry *)
Lemma GetCol_Ok (M : Matrix T) (col : nat) :
  well_formed M -> (col < size2 M)%nat ->
  exists v,
    GetCol M col = Ok v /\ length v = size1 M /\
    forall i, (i < size1 M)%nat -> vec_get v i = mat_get M i col.
Proof.
  intros Hwf Hcol. unfold GetCol.
  destruct (GetRow_Ok (trans M) col (trans_well_formed M) Hcol)
    as (v & Hv & Hlen & Hread).
  exists v. split; [exact Hv|]. split; [exact Hlen|].
  intros i Hi. rewrite (Hread i Hi). by apply mat_get_trans.
Qed.

(** X16: [GetCol] transposes the matrix and takes a row of the result: for a
    column that lies in the matrix, entry [i] of its vector is
    [AMatrix(i, col)]. *)
Theorem GetCol_reads_column (M : Matrix T) (col : nat) :
  well_formed M -> (col < size2 M)%nat ->
  exists v,
    GetCol M col = Ok v /\ length v = size1 M /\
    forall i, (i < size1 M)%nat -> vec_get v i = mat_get M i col.
Proof. apply GetCol_Ok. Qed.

Lemma GetCol_ext (M P : Matrix T) (col : nat) :
  well_formed M -> well_formed P ->
  size1 M = size1 P -> size2 M = size2 P -> (col < size2 M)%nat ->
  (forall i, (i < size1 M)%nat -> mat_get M i col = mat_get P i col) ->
  GetCol M col = GetCol P col.
Proof.
  intros HwfM HwfP Hs1 Hs2 Hcol Hsame. unfold GetCol.
  apply GetRow_ext; [exact Hs1|].
  intros i Hi. cbn [trans tabulate size2] in Hi.
  rewrite !mat_get_trans by (assumption || lia). by apply Hsame.
Qed.

(** a vector is determined by its checked reads *)
Lemma vector_ext (u v : Vector T) (n : nat) :
  length u = n -> length v = n ->
  (forall i, (i < n)%nat -> vec_get u i = vec_get v i) -> u = v.
Proof.
  intros Hu Hv Hsame. apply list_eq. intros i.
  destruct (decide (i < n)%nat) as [Hi|Hi].
  - apply vec_get_inj; [lia | by apply Hsame].
  - rewrite !lookup_ge_None_2 by lia. reflexivity.
Qed.

Lemma vec_get_take (v : Vector T) (n i : nat) :
  (i < n)%nat -> vec_get (take n v) i = vec_get v i.
Proof. intros Hi. unfold vec_get. by rewrite lookup_take_lt. Qed.




End RowsAndColumnsFacts.

(** ** Loops over a vector *)

Section VectorLoops.
Context {T : Type} `{Scalar T}.

(** [for (i = 0; i < v.size(); ++i) v(i) = g(v(i));] *)
Lemma for_range_map (g : T -> T) (v : Vector T) :
  for_range (length v) (fun i v =>
    let* x := vec_get v i in vec_set v i (g x)) v
  = Ok (map g v).
Proof.
  unfold for_range.
  destruct (for_from_total
    (fun i (u : Vector T) => u = map g (take i v) ++ drop i v)
    (fun i v => let* x := vec_get v i in vec_set v i (g x))
    (length v) 0 v) as (u & -> & ->).
  - reflexivity.
  - intros i u Hi ->. simpl in Hi.
    destruct (lookup_lt_is_Some_2 v i) as [x Hx]; [lia|].
    assert (Hlen : length (map g (take i v)) = i)
      by (rewrite length_map, length_take; lia).
    unfold vec_get.
    rewrite lookup_app_r, Hlen, Nat.sub_diag by lia.
    rewrite (drop_S _ _ _ Hx). cbn [lookup list_lookup bind].
    rewrite vec_set_total
      by (rewrite length_app, Hlen; simpl; lia).
    eexists. split; [reflexivity|].
    rewrite insert_app_r_alt, Hlen, Nat.sub_diag by lia.
    rewrite (take_S_r _ _ _ Hx), map_app, <- app_assoc. reflexivity.
  - simpl. rewrite firstn_all, drop_all. by rewrite app_nil_r.
Qed.

(** [C(N); for (i = 0; i < N; ++i) C(i) = op(A(i), B(i));] with
    [N = A.size()]: it needs an entry of [B] for every entry of [A] *)
Lemma for_range_zip (op : T -> T -> T) (A B : Vector T) :
  for_range (length A) (fun i C =>
    let* a := vec_get A i in
    let* b := vec_get B i in
    vec_set C i (op a b)) (BoostZeroVector (length A))
  = if decide (length A <= length B)%nat then Ok (zip_with op A B)
    else Fault bad_index.
Proof.
  unfold for_range. destruct (decide (length A <= length B)%nat) as [Hle|Hgt].
  - destruct (for_from_total
      (fun i (C : Vector T) =>
         C = zip_with op (take i A) (take i B)
               ++ replicate (length A - i) zero)
      (fun i C =>
         let* a := vec_get A i in
         let* b := vec_get B i in
         vec_set C i (op a b))
      (length A) 0 (BoostZeroVector (length A))) as (C & -> & ->).
    + simpl. by rewrite Nat.sub_0_r.
    + intros i C Hi ->. simpl in Hi.
      destruct (lookup_lt_is_Some_2 A i) as [a Ha]; [lia|].
      destruct (lookup_lt_is_Some_2 B i) as [b Hb]; [lia|].
      assert (Hlen : length (zip_with op (take i A) (take i B)) = i)
        by (rewrite length_zip_with, !length_take; lia).
      unfold vec_get. rewrite Ha, Hb. cbn [bind].
      rewrite vec_set_total
        by (rewrite length_app, Hlen, length_replicate; lia).
      eexists. split; [reflexivity|].
      rewrite insert_app_r_alt, Hlen, Nat.sub_diag by lia.
      replace (length A - i)%nat
        with (Datatypes.S (length A - Datatypes.S i)) by lia.
      rewrite (take_S_r _ _ _ Ha), (take_S_r _ _ _ Hb).
      rewrite zip_with_app by (rewrite !length_take; lia).
      rewrite <- app_assoc. reflexivity.
    + simpl. rewrite Nat.sub_diag, app_nil_r, firstn_all.
      f_equal. apply zip_with_take_r.
  - destruct (for_from 0 (length A) _ _) as [C|f] eqn:Hrun.
    + exfalso. apply Hgt.
      assert (Hstep : forall i (C C' : Vector T), True ->
                (let* a := vec_get A i in
                 let* b := vec_get B i in
                 vec_set C i (op a b)) = Ok C' ->
                True /\ (i < length B)%nat).
      { clear. intros i C C' _ Hbody. inv_binds. split; [exact I|].
        match goal with
        | Hb : vec_get B i = Ok _ |- _ =>
            apply vec_get_Ok, lookup_lt_Some in Hb; exact Hb
        end. }
      destruct (length A) as [|n] eqn:Hn; [lia|].
      pose proof (for_from_each _ _ _ _ _ _ _ I Hstep Hrun n) as Hlast.
      cbv beta in Hlast. lia.
    + f_equal. apply (for_from_fault _ _ _ _ _) with (2 := Hrun).
      intros i C g Hbody.
      apply bind_Fault in Hbody as [Hr|(a & _ & Hbody)];
        [by apply vec_get_fault in Hr|].
      apply bind_Fault in Hbody as [Hr|(b & _ & Hbody)];
        [by apply vec_get_fault in Hr | by apply vec_set_fault in Hbody].
Qed.

(** [for (i = 0; i < v.size(); ++i) acc = f(acc, v(i));] *)
Lemma for_range_fold (f : T -> T -> T) (v : Vector T) (a : T) :
  for_range (length v) (fun i acc =>
    let* x := vec_get v i in Ok (f acc x)) a
  = Ok (fold_left f v a).
Proof.
  unfold for_range.
  destruct (for_from_total
    (fun i acc => acc = fold_left f (take i v) a)
    (fun i acc => let* x := vec_get v i in Ok (f acc x))
    (length v) 0 a) as (acc & -> & ->).
  - reflexivity.
  - intros i acc Hi ->. simpl in Hi.
    destruct (lookup_lt_is_Some_2 v i) as [x Hx]; [lia|].
    unfold vec_get. rewrite Hx. cbn [bind].
    eexists. split; [reflexivity|].
    rewrite (take_S_r _ _ _ Hx), fold_left_app. reflexivity.
  - simpl. by rewrite firstn_all.
Qed.

(** the same over a matrix, row by row: the entries come in storage
    order *)
Lemma for_range_fold_matrix (f : T -> T -> T) (M : Matrix T) (a : T) :
  well_formed M ->
  for_range (size1 M) (fun i acc =>
    for_range (size2 M) (fun j acc =>
      let* x := mat_get M i j in Ok (f acc x)) acc) a
  = Ok (fold_left f (data M) a).
Proof.
  intros Hwf. unfold for_range.
  destruct (for_from_total
    (fun i acc => acc = fold_left f (take (i * size2 M) (data M)) a)
    (fun i acc =>
       for_from 0 (size2 M) (fun j acc =>
         let* x := mat_get M i j in Ok (f acc x)) acc)
    (size1 M) 0 a) as (acc & -> & ->).
  - reflexivity.
  - intros i acc Hi ->. simpl in Hi.
    destruct (for_from_total
      (fun j acc => acc = fold_left f (take (i * size2 M + j) (data M)) a)
      (fun j acc => let* x := mat_get M i j in Ok (f acc x))
      (size2 M) 0 (fold_left f (take (i * size2 M) (data M)) a))
      as (acc & -> & ->).
    + by rewrite Nat.add_0_r.
    + intros j acc Hj ->. simpl in Hj.
      destruct (mat_get_total M i j Hwf) as [x Hx]; [lia..|].
      rewrite Hx. cbn [bind]. eexists. split; [reflexivity|].
      apply mat_get_Ok in Hx as (_ & _ & Hx).
      replace (i * size2 M + Datatypes.S j)%nat
        with (Datatypes.S (i * size2 M + j)) by lia.
      rewrite (take_S_r _ _ _ Hx), fold_left_app. reflexivity.
    + eexists. split; [reflexivity|]. simpl. f_equal. f_equal. lia.
  - simpl. rewrite <- Hwf, firstn_all. reflexivity.
Qed.

End VectorLoops.

(** ** The element-wise helpers *)

Section HelperFacts.
Context {T : Type} `{Scalar T} `{Comparisons T}.

Lemma SignVector_Ok (v : Vector T) :
  SignVector v
  = Ok (map (fun x => if less x zero then of_int (-1) else of_int 1) v).
Proof.
  rewrite <- for_range_map. unfold SignVector, for_range.
  apply for_from_ext. intros i u _.
  destruct (vec_get u i) as [x|f]; cbn [bind]; [|reflexivity].
  destruct (less x zero); reflexivity.
Qed.

Lemma AbsoluteValueVector_Ok (v : Vector T) :
  AbsoluteValueVector v = Ok (map absolute v).
Proof. apply for_range_map. Qed.

Lemma HadamardProduct_Ok (A B : Vector T) :
  HadamardProduct A B
  = if decide (length A <= length B)%nat then Ok (zip_with mul A B)
    else Fault bad_index.
Proof. apply for_range_zip. Qed.



End HelperFacts.

(** ** The helpers in exact arithmetic *)

Lemma sign_times_absolute (x : R) :
  ((if less x zero then of_int (-1) else of_int 1) * absolute x)%sc = x.
Proof.
  cbn. unfold Rless. destruct (Rlt_dec x (IZR 0)) as [Hneg|Hpos].
  - rewrite Rabs_left by exact Hneg. lra.
  - rewrite Rabs_right by lra. lra.
Qed.


(** ** Norms in exact arithmetic *)

Lemma sum_squares_nonneg (v : list R) (a : R) :
  (a <= fold_left Rplus (map (fun x => x * x)%R v) a)%R.
Proof.
  revert a. induction v as [|x v IH]; intros a; cbn [map fold_left];
    [lra|].
  specialize (IH (a + x * x)%R). nra.
Qed.

Lemma sum_squares_scaled (v : list R) (n a : R) :
  n <> 0%R ->
  fold_left Rplus (map (fun x => x * x)%R (map (fun x => x / n)%R v))
    (a / (n * n))%R
  = (fold_left Rplus (map (fun x => x * x)%R v) a / (n * n))%R.
Proof.
  intros Hn. revert a. induction v as [|x v IH]; intros a;
    cbn [map fold_left]; [reflexivity|].
  rewrite <- IH. f_equal. field. exact Hn.
Qed.

Lemma norm_2_squared (v : Vector R) :
  (norm_2 v * norm_2 v)%R = fold_left Rplus (map (fun x => x * x)%R v) 0%R.
Proof.
  unfold norm_2. cbn. apply sqrt_sqrt. apply sum_squares_nonneg.
Qed.

(** X23: In exact arithmetic [MakeUnitVector] returns a vector of Euclidean
    norm 1 whenever the norm of its argument is not zero. *)
Theorem MakeUnitVector_unit (v : Vector R) :
  norm_2 v <> 0%R -> norm_2 (MakeUnitVector v) = 1%R.
Proof.
  intros Hn. pose proof (norm_2_squared v) as Hsq.
  unfold MakeUnitVector, vdivide. unfold norm_2 at 1. cbn.
  replace 0%R with (0 / (norm_2 v * norm_2 v))%R at 1 by (field; exact Hn).
  rewrite sum_squares_scaled by exact Hn.
  rewrite <- Hsq.
  replace (norm_2 v * norm_2 v / (norm_2 v * norm_2 v))%R with 1%R
    by (field; exact Hn).
  apply sqrt_1.
Qed.

(** X24: In exact arithmetic [SquareNorm] is the inner product of the vector
    with itself. *)
Theorem SquareNorm_inner_prod (v : Vector R) :
  SquareNorm v = inner_prod v v.
Proof.
  unfold SquareNorm. cbn zeta.
  change (norm_2 v * norm_2 v)%sc with (norm_2 v * norm_2 v)%R.
  rewrite norm_2_squared. unfold inner_prod. f_equal.
  clear. induction v as [|x v IH]; [reflexivity|].
  cbn [map zip_with]. by rewrite IH.
Qed.

(** ** Extreme entries in exact arithmetic *)

Lemma std_max_Rmax (a b : R) : std_max a b = Rmax a b.
Proof.
  unfold std_max, Rmax. cbn. unfold Rless.
  destruct (Rlt_dec a b), (Rle_dec a b); lra.
Qed.

Lemma std_min_Rmin (a b : R) : std_min a b = Rmin a b.
Proof.
  unfold std_min, Rmin. cbn. unfold Rless.
  destruct (Rlt_dec b a), (Rle_dec a b); lra.
Qed.

Lemma fold_std_max (v : list R) (a : R) :
  (a <= fold_left std_max v a)%R /\
  Forall (fun x => (x <= fold_left std_max v a)%R) v /\
  (fold_left std_max v a = a \/ elem_of (fold_left std_max v a) v).
Proof.
  revert a. induction v as [|x v IH]; intros a; cbn [fold_left].
  - split; [lra|]. split; [constructor | by left].
  - destruct (IH (std_max a x)) as (Hle & Hall & Hin).
    set (m := fold_left std_max v (std_max a x)) in *.
    rewrite std_max_Rmax in Hle, Hin.
    split; [pose proof (Rmax_l a x); lra|].
    split; [constructor; [pose proof (Rmax_r a x); lra | exact Hall]|].
    destruct Hin as [Hm|Hm]; [|right; by constructor].
    rewrite Hm. unfold Rmax. destruct (Rle_dec a x); [right | by left].
    constructor.
Qed.

Lemma fold_std_min (v : list R) (a : R) :
  (fold_left std_min v a <= a)%R /\
  Forall (fun x => (fold_left std_min v a <= x)%R) v /\
  (fold_left std_min v a = a \/ elem_of (fold_left std_min v a) v).
Proof.
  revert a. induction v as [|x v IH]; intros a; cbn [fold_left].
  - split; [lra|]. split; [constructor | by left].
  - destruct (IH (std_min a x)) as (Hle & Hall & Hin).
    set (m := fold_left std_min v (std_min a x)) in *.
    rewrite std_min_Rmin in Hle, Hin.
    split; [pose proof (Rmin_l a x); lra|].
    split; [constructor; [pose proof (Rmin_r a x); lra | exact Hall]|].
    destruct Hin as [Hm|Hm]; [|right; by constructor].
    rewrite Hm. unfold Rmin. destruct (Rle_dec a x); [by left | right].
    constructor.
Qed.

Lemma MaximumEntry_Ok {T : Type} `{Scalar T} (M : Matrix T) :
  well_formed M -> MaximumEntry M = Ok (fold_left std_max (data M) zero).
Proof. apply for_range_fold_matrix. Qed.

Lemma MinimumEntry_Ok {T : Type} `{Scalar T} (infinity : T) (M : Matrix T) :
  well_formed M ->
  MinimumEntry infinity M = Ok (fold_left std_min (data M) infinity).
Proof. apply for_range_fold_matrix. Qed.




(** the helpers on binary64 numbers; a NaN is not below 0 and not above the
    running maximum *)
Example helpers_binary64 :
  SignVector (flv [-2; 0; 3]%Z) = Ok (flv [-1; 1; 1]%Z) /\
  SignVector [PrimFloat.nan] = Ok [fl 1] /\
  AbsoluteValueVector (flv [-2; 0; 3]%Z) = Ok (flv [2; 0; 3]%Z) /\
  HadamardProduct (flv [1; 2]%Z) (flv [3; 4; 5]%Z) = Ok (flv [3; 8]%Z) /\
  HadamardProduct (flv [1; 2]%Z) (flv [3]%Z) = Fault bad_index /\
  MaxVector (flv [1; 5]%Z) (flv [3; 4]%Z) = Ok (flv [3; 5]%Z) /\
  MaxVector_scalar [PrimFloat.nan; fl 7] (fl 4) = Ok (flv [4; 7]%Z) /\
  MaximumEntry (flm 1 2 [-1; -2]%Z) = Ok (fl 0) /\
  MaximumEntry_vector [fl 2; PrimFloat.nan] = Ok (fl 2) /\
  MinimumEntry PrimFloat.infinity (flm 1 2 [-1; -2]%Z) = Ok (fl (-2)) /\
  NormalizeMatrix PrimFloat.infinity (flm 1 2 [-1; -2]%Z)
    = Ok (mkMatrix 1 2 [PrimFloat.div (fl 1) (fl 2); fl 0]) /\
  NormalizeMatrix PrimFloat.infinity (flm 1 2 [0; 0]%Z)
    = Ok (flm 1 2 [1; 1]%Z).
Proof. vm_compute. repeat split. Qed.

(** ** The objective and the direction on square images *)

Section WellShaped.
Context {T : Type} `{Scalar T}.
Local Open Scope scalar_scope.

(** the copy loop of [Lagrangian] and [Onestep_Direction] stays inside
    [Wi] and [NUi] *)
Lemma load_W_NU_total (i : nat) (W NU : Matrix T) (Wi NUi : Vector T) :
  well_formed W -> well_formed NU ->
  (i < size1 W)%nat -> (i < size1 NU)%nat ->
  (2 <= size2 W)%nat -> (2 <= size2 NU)%nat ->
  length Wi = 2%nat -> length NUi = 2%nat ->
  exists Wi' NUi',
    load_W_NU 2 i W NU Wi NUi = Ok (Wi', NUi') /\
    length Wi' = 2%nat /\ length NUi' = 2%nat.
Proof.
  intros HwfW HwfNU HiW HiNU HW HNU HWi HNUi. unfold load_W_NU, for_range.
  destruct (for_from_total
    (fun (_ : nat) (st : Vector T * Vector T) =>
       length st.1 = 2%nat /\ length st.2 = 2%nat)
    (fun j '(Wi, NUi) =>
       let* w := mat_get W i j in
       let* Wi := vec_set Wi j w in
       let* nu := mat_get NU i j in
       let* NUi := vec_set NUi j nu in
       Ok (Wi, NUi))
    2 0 (Wi, NUi)) as ([Wi' NUi'] & Hrun & HWi' & HNUi').
  - split; assumption.
  - intros j [Wj NUj] Hj [HWj HNUj]. simpl in Hj, HWj, HNUj.
    destruct (mat_get_total W i j HwfW) as [w Hw]; [lia..|].
    destruct (mat_get_total NU i j HwfNU) as [nu Hnu]; [lia..|].
    rewrite Hw. cbn [bind]. rewrite vec_set_total by lia. cbn [bind].
    rewrite Hnu. cbn [bind]. rewrite vec_set_total by lia. cbn [bind].
    eexists. split; [reflexivity|]. simpl. by rewrite !length_insert.
  - exists Wi', NUi'. auto.
Qed.

(** the loop of [Lagrangian] passes every index check on a square image *)
Lemma Lagrangian_loop_total (L : nat) (A : Matrix T) (U B : Vector T)
    (W NU : Matrix T) (LAMBDA : Vector T) (beta mu : T) :
  length U = (L * L)%nat -> (Z.of_nat L * Z.of_nat L <= 2 ^ 64)%Z ->
  well_formed W -> well_formed NU ->
  (L * L <= size1 W)%nat -> (L * L <= size1 NU)%nat ->
  (2 <= size2 W)%nat -> (2 <= size2 NU)%nat ->
  exists value, Lagrangian A U B W NU LAMBDA beta mu = Ok value.
Proof.
  intros Hlen Hbound HwfW HwfNU HW1 HNU1 HW2 HNU2.
  unfold Lagrangian, for_range. rewrite Hlen.
  match goal with
  | |- context [for_from 0 ?n ?body ?s] =>
      destruct (for_from_total
        (fun (_ : nat) (st : T * Vector T * Vector T) =>
           length st.1.2 = 2%nat /\ length st.2 = 2%nat)
        body n 0 s) as ([[x Wi] NUi] & -> & _)
  end.
  - split; reflexivity.
  - intros i [[x Wi] NUi] Hi [HWi HNUi]. simpl in Hi, HWi, HNUi.
    rewrite (Gradient2D_square L U i Hlen Hbound) by lia. cbn [bind].
    destruct (load_W_NU_total i W NU Wi NUi) as (Wi' & NUi' & -> & ? & ?);
      try assumption; try lia.
    cbn [bind]. eexists. split; [reflexivity|]. simpl. auto.
  - cbn [bind]. eauto.
Qed.

(** X28: [Lagrangian] runs to its end, with no failed index check and
    without reaching [exit], on a square image of [L*L] pixels whose
    operands have the sizes the solver gives them: [A] has a column for
    every pixel, [B] and [LAMBDA] an entry for every row of [A], and [W]
    and [NU] a row of two entries for every pixel.  With these sizes no
    expression of the function meets operands of different sizes:
    [prod(A, U)] has the size of [B], and their difference the size of
    [LAMBDA]. *)
Theorem Lagrangian_returns (L : nat) (A : Matrix T) (U B : Vector T)
    (W NU : Matrix T) (LAMBDA : Vector T) (beta mu : T) :
  length U = (L * L)%nat -> (Z.of_nat L * Z.of_nat L <= 2 ^ 64)%Z ->
  well_formed A -> size2 A = (L * L)%nat ->
  length B = size1 A -> length LAMBDA = size1 A ->
  well_formed W -> well_formed NU ->
  (L * L <= size1 W)%nat -> (L * L <= size1 NU)%nat ->
  (2 <= size2 W)%nat -> (2 <= size2 NU)%nat ->
  (exists value, Lagrangian A U B W NU LAMBDA beta mu = Ok value) /\
  length (prod A U) = length B /\
  length (vsub (prod A U) B) = length LAMBDA.
Proof.
  intros Hlen Hbound HwfA HA2 HB HLAMBDA HwfW HwfNU HW1 HNU1 HW2 HNU2.
  split; [by apply (Lagrangian_loop_total L)|].
  assert (Hprod : length (prod A U) = size1 A)
    by (unfold prod; by rewrite length_map, length_seq).
  split; [congruence|].
  unfold vsub. rewrite length_zip_with, Hprod, HB, HLAMBDA. lia.
Qed.

(** X29: under the same sizes [Onestep_Direction] runs to its end as well,
    and the direction it returns has an entry for every pixel. *)
Theorem Onestep_Direction_returns (L : nat) (A : Matrix T) (U B : Vector T)
    (W NU : Matrix T) (LAMBDA : Vector T) (beta mu : T) :
  length U = (L * L)%nat -> (Z.of_nat (L * L) < 2 ^ 64)%Z ->
  well_formed A -> size2 A = (L * L)%nat ->
  length B = size1 A -> length LAMBDA = size1 A ->
  well_formed W -> well_formed NU ->
  (L * L <= size1 W)%nat -> (L * L <= size1 NU)%nat ->
  (2 <= size2 W)%nat -> (2 <= size2 NU)%nat ->
  exists D,
    Onestep_Direction A U B W NU LAMBDA beta mu = Ok D /\
    length D = (L * L)%nat.
Proof.
  intros Hlen Hbound HwfA HA2 HB HLAMBDA HwfW HwfNU HW1 HNU1 HW2 HNU2.
  assert (Hprod : forall (M : Matrix T) v, length (prod M v) = size1 M)
    by (intros M v; unfold prod; by rewrite length_map, length_seq).
  unfold Onestep_Direction, for_range. rewrite Hlen.
  match goal with
  | |- context [for_from 0 ?n ?body ?s] =>
      destruct (for_from_total
        (fun (_ : nat) (st : Vector T * Vector T * Vector T) =>
           length st.1.1 = (L * L)%nat /\
           length st.1.2 = 2%nat /\ length st.2 = 2%nat)
        body n 0 s) as ([[D Wi] NUi] & -> & HD & _)
  end.
  - simpl. unfold BoostZeroVector. rewrite !length_replicate. auto.
  - intros i [[D Wi] NUi] Hi (HD & HWi & HNUi). simpl in Hi, HD, HWi, HNUi.
    destruct (Unit_Gradient2DMatrix_stencil L i U Hlen Hbound)
      as (Di & -> & _ & HDi2 & _); [lia|].
    cbn [bind].
    rewrite (Gradient2D_square L U i Hlen) by lia. cbn [bind].
    destruct (load_W_NU_total i W NU Wi NUi) as (Wi' & NUi' & -> & ? & ?);
      try assumption; try lia.
    cbn [bind]. eexists. split; [reflexivity|]. simpl.
    split; [|auto].
    unfold vsub, vadd, vscale.
    rewrite !length_zip_with, length_map, !Hprod.
    cbn [trans tabulate size1]. lia.
  - cbn [bind]. eexists. split; [reflexivity|]. simpl in HD.
    unfold vsub, vadd, vscale.
    rewrite !length_zip_with, length_map, !Hprod.
    cbn [trans tabulate size1]. lia.
Qed.

End WellShaped.

(** ** The link test of the repository *)

(** X30: the steps of [test/test1.cpp] on a random matrix always run to their
    end, for every size and clock value: [CreateRandomMatrix] returns a
    matrix, [MatrixToVector] rasterises it, and [VectorToMatrix] with the same
    shape gives the matrix back. *)
Theorem random_matrix_round_trip {T : Type} `{Scalar T}
    (RandNormValue : Z -> nat -> T) (CurrentTick : Z) (rows cols : nat) :
  exists M v,
    CreateRandomMatrix RandNormValue CurrentTick rows cols = Ok M /\
    MatrixToVector M = Ok v /\
    VectorToMatrix v rows cols = Ok M.
Proof.
  set (M := mkMatrix rows cols
              (map (RandNormValue (seed_of CurrentTick))
                 (seq 0 (rows * cols)))).
  assert (Hwf : well_formed M).
  { unfold well_formed, M. cbn [size1 size2 data].
    by rewrite length_map, length_seq. }
  destruct (reshape_rasterised M Hwf) as (v & Hv & Hback).
  exists M, v. split; [apply CreateRandomMatrix_Ok|].
  split; [exact Hv | exact Hback].
Qed.

(** ** The order of the updates in a pass (C8) *)

Section PassOrder.
Context {T : Type} `{Scalar T}.
Local Open Scope scalar_scope.

(** the inner loop is left after a pass whose test fails; the multipliers
    that pass works with are those the loop was entered with *)
Lemma AM_loop_last (fuel count : nat) (A : Matrix T) (B : Vector T)
    (beta mu : T) (n : nat) (s s' : AM_locals T) :
  AM_loop fuel count A B beta mu n s = Ok s' ->
  exists s_prev innerstop,
    AM_iteration fuel A B beta mu n s_prev = Ok (s', innerstop) /\
    less hundredth innerstop = false /\
    am_NU s_prev = am_NU s /\ am_LAMBDA s_prev = am_LAMBDA s.
Proof.
  revert s.
  induction count as [|count IH]; intros s Hrun; simpl in Hrun;
    [discriminate|].
  inv_bind Hrun. destruct a as [s1 innerstop].
  destruct (less hundredth innerstop) eqn:Htest.
  - destruct (AM_iteration_frame _ _ _ _ _ _ _ _ _ Ha) as [HNU HLAMBDA].
    destruct (IH _ Hk) as (s_prev & stop & Hlast & Hstop & HNU' & HLAMBDA').
    exists s_prev, stop. repeat split; congruence.
  - injection Hk as <-. exists s, innerstop. auto.
Qed.

(** a call of the inner solver that returns: its last pass, and what it
    packs *)
Lemma Alternating_Minimisation_last (fuel : nat) (A : Matrix T)
    (U B : Vector T) (W NU : Matrix T) (LAMBDA : Vector T) (beta mu : T)
    (MIN : Matrix T) :
  Alternating_Minimisation fuel A U B W NU LAMBDA beta mu = Ok MIN ->
  exists s_prev s innerstop,
    AM_run fuel A U B W NU LAMBDA beta mu = Ok (s, MIN) /\
    AM_iteration fuel A B beta mu (length U) s_prev = Ok (s, innerstop) /\
    am_NU s_prev = NU /\ am_LAMBDA s_prev = LAMBDA /\
    forall pix, (pix < length U)%nat ->
      mat_get MIN pix 0 = mat_get (am_W s) pix 0 /\
      mat_get MIN pix 1 = mat_get (am_W s) pix 1 /\
      mat_get MIN pix 2 = vec_get (am_Uk s) pix.
Proof.
  unfold Alternating_Minimisation. intros Hrun. inv_bind Hrun.
  destruct a as [s AL_MIN]. injection Hk as ->.
  pose proof Ha as Hwhole.
  unfold AM_run in Ha. inv_binds.
  match goal with
  | Hloop : AM_loop _ _ _ _ _ _ _ _ = Ok _,
    Hentry : AM_entry _ _ _ _ _ _ _ _ = Ok _,
    Hpack : AM_pack _ _ _ = Ok _ |- _ =>
      destruct (AM_loop_last _ _ _ _ _ _ _ _ _ Hloop)
        as (s_prev & innerstop & Hlast & _ & HNU & HLAMBDA);
      destruct (AM_pack_Ok _ _ _ _ Hpack) as (_ & _ & Hget);
      unfold AM_entry in Hentry; inv_binds; simpl in HNU, HLAMBDA
  end.
  exists s_prev, s, innerstop. auto.
Qed.



End PassOrder.

(** ** The outer loop on the inputs the driver can receive (C6) *)

(** the only fault of a loop whose passes, inside its range, can only fail
    the range check *)
Lemma for_from_fault_within {S : Type} (body : nat -> S -> result S)
    (count start : nat) (s : S) (f : fault) :
  (forall i t f', (start <= i < start + count)%nat ->
     body i t = Fault f' -> f' = bad_index) ->
  for_from start count body s = Fault f -> f = bad_index.
Proof.
  revert start s.
  induction count as [|count IH]; intros start s Hbody Hrun; [discriminate|].
  simpl in Hrun. destruct (body start s) as [t|f'] eqn:Hpass; simpl in Hrun.
  - apply (IH (Datatypes.S start) t); [|exact Hrun].
    intros i u g Hi. apply Hbody. lia.
  - injection Hrun as <-. apply (Hbody start s); [lia | exact Hpass].
Qed.

Section FirstPass.
Context {T : Type} `{Scalar T}.

(** On a square image with at least one pixel the w-update runs into the
    range check: it stores [W(j,i)] into the [n x 2] matrix [W], which has
    no row 1 when [n = 1] and no column 2 when [n >= 4]. *)
Lemma w_subproblem_overruns (L : nat) (Uk : Vector T) (NU : Matrix T)
    (beta : T) (W : Matrix T) :
  (1 <= L)%nat -> length Uk = (L * L)%nat ->
  (Z.of_nat L * Z.of_nat L <= 2 ^ 64)%Z ->
  size1 W = (L * L)%nat -> size2 W = 2%nat ->
  w_subproblem (L * L) Uk NU beta W = Fault bad_index.
Proof.
  intros HL Hlen Hbound HW1 HW2.
  destruct (w_subproblem (L * L) Uk NU beta W) as [W'|f] eqn:Hrun.
  - exfalso.
    pose proof (w_subproblem_Ok _ _ _ _ _ _ Hrun) as Hshape.
    assert (Hpixel : (1 <= L * L)%nat) by (destruct L; simpl; lia).
    destruct (Hshape (L * L - 1)%nat) as [Hrow Hcol]; [lia|].
    rewrite HW1 in Hrow. rewrite HW2 in Hcol.
    destruct L as [|[|L]]; simpl in Hrow, Hcol; lia.
  - f_equal. unfold w_subproblem, for_range in Hrun.
    apply for_from_fault_within in Hrun; [exact Hrun|].
    clear Hrun. intros i M g Hi Hbody. simpl in Hi.
    rewrite (Gradient2D_square L Uk i Hlen Hbound) in Hbody by lia.
    cbn [bind] in Hbody.
    apply bind_Fault in Hbody as [Hloop|([M' NUi] & _ & Hend)];
      [|discriminate].
    unfold for_range in Hloop. apply for_from_fault in Hloop; [exact Hloop|].
    clear. intros j [M NUi] g Hbody.
    apply bind_Fault in Hbody as [Hr|(nu & _ & Hbody)];
      [by apply mat_get_fault in Hr|].
    apply bind_Fault in Hbody as [Hr|(NUi' & _ & Hbody)];
      [by apply vec_set_fault in Hr|].
    apply bind_Fault in Hbody as [Hr|(w & _ & Hbody)];
      [by apply vec_get_fault in Hr|].
    apply bind_Fault in Hbody as [Hr|(M' & _ & Hbody)];
      [by apply mat_set_fault in Hr | discriminate].
Qed.

(** so the first call of the inner solver ends there, before any pass of
    its loop is complete *)
Lemma Alternating_Minimisation_overruns (fuel L : nat) (A : Matrix T)
    (U B : Vector T) (W NU : Matrix T) (LAMBDA : Vector T) (beta mu : T) :
  (1 <= fuel)%nat -> (1 <= L)%nat -> length U = (L * L)%nat ->
  (Z.of_nat L * Z.of_nat L <= 2 ^ 64)%Z ->
  well_formed W -> well_formed NU ->
  size1 W = (L * L)%nat -> size2 W = 2%nat ->
  size1 NU = (L * L)%nat -> size2 NU = 2%nat ->
  Alternating_Minimisation fuel A U B W NU LAMBDA beta mu = Fault bad_index.
Proof.
  intros Hfuel HL Hlen Hbound HwfW HwfNU HW1 HW2 HNU1 HNU2.
  unfold Alternating_Minimisation, AM_run, AM_entry.
  destruct (Lagrangian_loop_total L A U B W NU LAMBDA beta mu)
    as (C & ->); try assumption; try lia.
  cbn [bind]. destruct fuel as [|fuel]; [lia|].
  cbn [AM_loop]. unfold AM_iteration. cbn [am_Uk am_NU am_W].
  rewrite Hlen.
  rewrite (w_subproblem_overruns L U NU beta W) by assumption.
  reflexivity.
Qed.

End FirstPass.

(** the run on a sinogram without rows, with its count of passes *)
Lemma tval3_run_no_rows (RandNormValue : Z -> nat -> float) (fuel : nat)
    (CurrentTick : Z) (Sinogram : Matrix float) :
  size1 Sinogram = 0%nat -> (1 <= fuel)%nat ->
  tval3_run RandNormValue (Alternating_Minimisation fuel) fuel CurrentTick
    Sinogram = Ok (mkMatrix 0 0 [], 1%nat).
Proof.
  intros Hrows Hfuel. destruct fuel as [|fuel]; [lia|].
  unfold tval3_run.
  rewrite (MatrixToVector_no_rows Sinogram Hrows), Hrows.
  vm_compute. reflexivity.
Qed.

(** the run on a sinogram with rows *)
Lemma tval3_run_rows (RandNormValue : Z -> nat -> float) (fuel : nat)
    (CurrentTick : Z) (Sinogram : Matrix float) :
  well_formed Sinogram -> size1 Sinogram <> 0%nat ->
  (Z.of_nat (size1 Sinogram) * Z.of_nat (size1 Sinogram) <= 2 ^ 64)%Z ->
  (1 <= fuel)%nat ->
  tval3_run RandNormValue (Alternating_Minimisation fuel) fuel CurrentTick
    Sinogram = Fault bad_index.
Proof.
  intros Hwf Hrows Hbound Hfuel. unfold tval3_run.
  rewrite CreateRandomMatrix_Ok. cbn [bind].
  destruct (MatrixToVector_Ok Sinogram Hwf) as (B & -> & _). cbn [bind].
  destruct fuel as [|fuel'] eqn:Hf; [lia|]. rewrite <- Hf.
  rewrite Hf at 2. cbn [outer_loop]. unfold outer_iteration, call_minimiser.
  cbn [driver_entry dr_W dr_U dr_NU dr_LAMBDA dr_beta dr_mu].
  rewrite (Alternating_Minimisation_overruns fuel (size1 Sinogram));
    [reflexivity | lia | lia | apply length_replicate | exact Hbound
    | apply BoostZeroMatrix_well_formed | apply BoostZeroMatrix_well_formed
    | reflexivity..].
Qed.


(** * Instances of the properties *)

Lemma MatrixToVector_column_major_witness :
  exists v,
    MatrixToVector matrix23 = Ok v /\
    length v = (size1 matrix23 * size2 matrix23)%nat /\
    forall i j, (i < size1 matrix23)%nat -> (j < size2 matrix23)%nat ->
      vec_get v (j * size1 matrix23 + i)%nat = mat_get matrix23 i j.
Proof. exact (MatrixToVector_column_major matrix23 eq_refl). Defined.

Lemma VectorToMatrix_MatrixToVector_witness :
  exists v,
    MatrixToVector matrix23 = Ok v /\
    VectorToMatrix v (size1 matrix23) (size2 matrix23) = Ok matrix23.
Proof. exact (VectorToMatrix_MatrixToVector matrix23 eq_refl). Defined.

Lemma MatrixToVector_VectorToMatrix_witness :
  exists X,
    VectorToMatrix (flv [1; 2; 3; 4; 5; 6; 7]%Z) 2 3 = Ok X /\
    MatrixToVector X = Ok (take (2 * 3) (flv [1; 2; 3; 4; 5; 6; 7]%Z)).
Proof.
  apply (MatrixToVector_VectorToMatrix (flv [1; 2; 3; 4; 5; 6; 7]%Z) 2 3).
  simpl. lia.
Defined.

Lemma RightNeighbor_column_major_witness :
  RightNeighbor (Z.of_nat (1 + 1 * 3)) (Z.of_nat 3)
  = if decide (1 = 3 - 1)%nat then (-1)%Z else Z.of_nat (1 + (1 + 1) * 3).
Proof. apply (RightNeighbor_column_major 3 1 1); lia. Defined.

Lemma RightNeighbor_side_below_2_witness :
  RightNeighbor 5 1 = (5 + 1)%Z.
Proof. apply (RightNeighbor_side_below_2 5 1); lia. Defined.

Lemma DownNeighbor_column_major_witness :
  DownNeighbor (Z.of_nat (2 + 0 * 3)) (Z.of_nat 3)
  = Some (if decide (2 = 3 - 1)%nat then (-1)%Z
          else Z.of_nat (2 + 1 + 0 * 3)).
Proof. apply (DownNeighbor_column_major 3 2 0); lia. Defined.

Lemma unpack_AM_pack_witness :
  exists AL_MIN W' U',
    AM_pack 2 matrix22 (flv [5; 6]%Z) = Ok AL_MIN /\
    unpack 2 AL_MIN (flm 2 2 [0; 0; 0; 0]%Z) (flv [0; 0]%Z) = Ok (W', U') /\
    forall i, (i < 2)%nat ->
      mat_get W' i 0 = mat_get matrix22 i 0 /\
      mat_get W' i 1 = mat_get matrix22 i 1 /\
      vec_get U' i = vec_get (flv [5; 6]%Z) i.
Proof.
  apply (unpack_AM_pack 2 matrix22 (flv [5; 6]%Z)
           (flm 2 2 [0; 0; 0; 0]%Z) (flv [0; 0]%Z));
    first [reflexivity | simpl; lia].
Defined.

Lemma tval3_reconstruction_Ok_witness :
  tval3_reconstruction counting_draws 3 0 empty_sinogram = Ok empty_sinogram /\
  size1 empty_sinogram = 0%nat.
Proof.
  assert (Hrun : tval3_reconstruction counting_draws 3 0 empty_sinogram
                 = Ok empty_sinogram) by (vm_compute; reflexivity).
  split; [exact Hrun|].
  exact (tval3_reconstruction_Ok counting_draws 3 0 empty_sinogram
           empty_sinogram Hrun).
Defined.

Lemma tval3_reconstruction_no_rows_witness :
  tval3_reconstruction counting_draws 1 0 (no_rows 3) = Ok (mkMatrix 0 0 []).
Proof.
  apply (tval3_reconstruction_no_rows counting_draws 1 0 (no_rows 3));
    [reflexivity | lia].
Defined.

Lemma Gradient2D_exit_witness :
  Gradient2D image22 4 = Fault exit_failure.
Proof. apply (Gradient2D_exit image22 4). simpl. lia. Defined.

Lemma Gradient2DMatrix_rows_witness :
  exists D,
    Gradient2DMatrix image22 = Ok D /\
    size1 D = (2 * 2)%nat /\ size2 D = 2%nat /\ well_formed D /\
    forall p, (p < 2 * 2)%nat ->
      exists d0 d1,
        Gradient2D image22 (Z.of_nat p) = Ok [d0; d1] /\
        mat_get D p 0 = Ok d0 /\ mat_get D p 1 = Ok d1.
Proof.
  apply (Gradient2DMatrix_rows 2 image22); [reflexivity | simpl; lia].
Defined.

Lemma Gradient2DMatrix_constant_witness :
  Gradient2DMatrix (replicate (2 * 2) 5%R) = Ok (BoostZeroMatrix (2 * 2) 2).
Proof. apply (Gradient2DMatrix_constant 2 5%R). simpl. lia. Defined.

Lemma Unit_Gradient2DMatrix_square_witness :
  exists Di,
    Unit_Gradient2DMatrix image33 (Z.of_nat 5) = Ok Di /\
    stencil (3 * 3) 3 5
      (bool_decide (5 + 1 < 3 * 3 /\ 5 <> 3 - 1)%nat)
      (bool_decide (5 + 3 < 3 * 3)%nat) Di.
Proof.
  apply (Unit_Gradient2DMatrix_square 3 5 image33);
    [reflexivity | simpl; lia | lia].
Defined.



Lemma GetCol_reads_column_witness :
  exists v,
    GetCol matrix23 2 = Ok v /\ length v = size1 matrix23 /\
    forall i, (i < size1 matrix23)%nat -> vec_get v i = mat_get matrix23 i 2.
Proof.
  apply (GetCol_reads_column matrix23 2); [reflexivity | simpl; lia].
Defined.

Lemma MakeUnitVector_unit_witness :
  norm_2 [3%R; 4%R] <> 0%R /\ norm_2 (MakeUnitVector [3%R; 4%R]) = 1%R.
Proof.
  assert (Hnorm : norm_2 [3%R; 4%R] <> 0%R).
  { unfold norm_2. cbn. apply Rgt_not_eq, sqrt_lt_R0. lra. }
  split; [exact Hnorm | exact (MakeUnitVector_unit [3%R; 4%R] Hnorm)].
Defined.




Lemma Lagrangian_returns_witness :
  (exists value,
     Lagrangian (flm 1 4 [1; 1; 1; 1]%Z) image22 (flv [1]%Z) zeros42 zeros42
       (flv [0]%Z) (fl 1) (fl 1) = Ok value) /\
  length (prod (flm 1 4 [1; 1; 1; 1]%Z) image22) = length (flv [1]%Z) /\
  length (vsub (prod (flm 1 4 [1; 1; 1; 1]%Z) image22) (flv [1]%Z))
    = length (flv [0]%Z).
Proof.
  apply (Lagrangian_returns 2); first [reflexivity | simpl; lia].
Defined.

Lemma Onestep_Direction_returns_witness :
  exists D,
    Onestep_Direction (flm 1 4 [1; 1; 1; 1]%Z) image22 (flv [1]%Z) zeros42
      zeros42 (flv [0]%Z) (fl 1) (fl 1) = Ok D /\
    length D = (2 * 2)%nat.
Proof.
  apply (Onestep_Direction_returns 2); first [reflexivity | simpl; lia].
Defined.



Lemma minimiser_leaves_multipliers_witness :
  exists d',
    call_minimiser (Alternating_Minimisation 12) identity22 (flv [1; 2]%Z)
      2 driver22 = Ok d' /\
    dr_NU d' = matrix22 /\ dr_LAMBDA d' = flv [5; 6]%Z /\
    dr_W d' = w22 /\ dr_U d' = u22 /\
    exists s,
      AM_run 12 identity22 (flv [1; 0]%Z) (flv [1; 2]%Z)
        (flm 2 2 [0; 0; 0; 0]%Z) matrix22 (flv [5; 6]%Z) (fl 2) (fl 3)
        = Ok (s, dr_MIN d') /\
      am_NU s = matrix22 /\ am_LAMBDA s = flv [5; 6]%Z.
Proof.
  eexists.
  assert (Hrun : call_minimiser (Alternating_Minimisation 12) identity22
                   (flv [1; 2]%Z) 2 driver22 = Ok _)
    by (vm_compute; reflexivity).
  split; [exact Hrun|].
  destruct (minimiser_leaves_multipliers _ _ _ _ _ _ Hrun)
    as (HNU & HLAMBDA & (s & Hs & HNUs & HLAMBDAs & _) & _).
  split; [exact HNU|]. split; [exact HLAMBDA|].
  split; [reflexivity|]. split; [reflexivity|].
  exists s. split; [exact Hs|]. split; [exact HNUs | exact HLAMBDAs].
Defined.
